(** * a0-lang: a shallow embedding of the lexer and of the tree-walking
    evaluator, with the properties checked against them.

    The Go sources are modelled as follows.
    - [float64] is IEEE-754 binary64, taken from the Standard Library's
      executable specification [spec_float] (precision 53, emax 1024).
    - Go's interface values [f.Stmt] and [RuntimeVal] may be [nil]; the AST
      fields the parser fills with [nil] are [option Stmt], and the nil
      runtime value is the constructor [NilVal].
    - The map of an object is only written while [evalObjectExpr] builds it,
      so an object is its finite map of properties.
    - [*Environment] is an index into a heap of environment frames carried in
      the interpreter state, so that closures and call scopes alias frames
      exactly as the pointers do.
    - A Go function returning [(RuntimeVal, error)] becomes a state-passing
      function into [Outcome], which also records host panics and, for the
      unbounded [while] loop and the recursion of [Evaluate], exhaustion of
      the evaluation budget. *)

From Stdlib Require Import ZArith String Ascii List Bool Lia.
From Stdlib Require Import Floats.SpecFloat.
From stdpp Require Import gmap strings list.

Set Warnings "-register-all".

Local Open Scope string_scope.
Local Open Scope Z_scope.

(** ** float64 *)

Module Float64.

Definition prec : Z := 53.
Definition emax : Z := 1024.

Definition float64 : Type := spec_float.

Definition zero : float64 := S754_zero false.
Definition of_Z (z : Z) : float64 := binary_normalize prec emax z 0 false.
Definition one : float64 := Eval vm_compute in of_Z 1.

Definition add : float64 -> float64 -> float64 := SFadd prec emax.
Definition sub : float64 -> float64 -> float64 := SFsub prec emax.
Definition mul : float64 -> float64 -> float64 := SFmul prec emax.
Definition div : float64 -> float64 -> float64 := SFdiv prec emax.
Definition neg : float64 -> float64 := SFopp.

(** Go's [==], [<], [<=] on float64; [>] and [>=] are the flipped forms. *)
Definition eqb : float64 -> float64 -> bool := SFeqb.
Definition ltb : float64 -> float64 -> bool := SFltb.
Definition leb : float64 -> float64 -> bool := SFleb.

Definition is_nan (x : float64) : bool :=
  match x with S754_nan => true | _ => false end.

(** The integer part of a finite float, rounding toward zero. *)
Definition truncate (x : float64) : option Z :=
  match x with
  | S754_zero _ => Some 0
  | S754_finite s m e =>
      let mag := if 0 <=? e then Z.shiftl (Z.pos m) e
                 else Z.shiftr (Z.pos m) (- e) in
      Some (if s then - mag else mag)
  | S754_infinity _ | S754_nan => None
  end.

Definition min_int : Z := - 2 ^ 63.
Definition max_int : Z := 2 ^ 63 - 1.

(** Go's conversion [int(x)] from float64 to the 64-bit [int]: the fraction
    is discarded.  For a value that [int] cannot represent the language
    leaves the result to the implementation; amd64's CVTTSD2SQ answers with
    the "integer indefinite" value [min_int], which is what is modelled. *)
Definition to_int (x : float64) : Z :=
  match truncate x with
  | Some z => if (min_int <=? z) && (z <=? max_int) then z else min_int
  | None => min_int
  end.

(** Go's conversion [float64(n)] from [int]: round to nearest, ties to even. *)
Definition of_int (n : Z) : float64 := of_Z n.

End Float64.

Export Float64.

(** ** The AST (package frontend) *)

Module Frontend.

(** [Stmt] and [Expr] are one interface in the source ([Expr] embeds
    [Stmt]); the node structs are the constructors.  [Value] of
    [VarDeclaration], [ReturnStmt] and [Property] is [nil] when the parser
    saw no expression, hence [option]; the other node fields are never nil
    in a parsed program.  [ObjectLiteral] holds its [Property] structs as
    pairs of key and value. *)
Inductive Stmt : Type :=
| Program (Body : list Stmt)
| VarDeclaration (Constant : bool) (Ident : string) (Value : option Stmt)
| FunctionDeclaration (Name : string) (Parameters : list string)
    (Body : list Stmt)
| IfStmt (Condition : Stmt) (Body : list Stmt)
| WhileStmt (Condition : Stmt) (Body : list Stmt)
| ForStmt (Condition : Stmt) (Body : list Stmt)
| ReturnStmt (Value : option Stmt)
| AssignmentExpr (Assignee : Stmt) (Value : Stmt)
| CallExpr (Args : list Stmt) (Caller : Stmt)
| MemberExpr (Object : Stmt) (Property : Stmt) (Computed : bool)
| LogicalExpr (Left : Stmt) (Right : Stmt) (Operator : string)
| BinaryExpr (Left : Stmt) (Right : Stmt) (Operator : string)
| UnaryExpr (Operant : Stmt) (Operator : string)
| NumericLiteral (Value : float64)
| StringLiteral (Value : string)
| Identifier (Symbol : string)
| Property (Key : string) (Value : option Stmt)
| ObjectLiteral (Properties : list (string * option Stmt)).

End Frontend.

Export Frontend.

(** ** Runtime values (runtime/values.go) *)

Module Values.

(** [*Environment]: the index of a frame in the state's heap. *)
Definition EnvPtr : Type := nat.

(** [FunctionCall]: the host closures installed by [setupGlobalScope]; the
    repository defines exactly one, [print]. *)
Inductive FunctionCall : Type := printCall.

(** [RuntimeVal]: the interface with its seven implementing structs, and
    [NilVal] for the nil interface value. *)
Inductive RuntimeVal : Type :=
| NilVal
| NumberVal (Value : float64)
| StringVal (Value : string)
| NadaVal
| BoolVal (Value : bool)
| ObjectVal (Properties : gmap string RuntimeVal) (ObjectName : string)
| NativeFunctionValue (Call : FunctionCall) (Name : string)
| UserFunctionValue (Name : string) (Parameters : list string)
    (DeclarationEnv : EnvPtr) (Body : list Stmt)
| ReturnValue (Value : RuntimeVal).

Definition isReturnValue (v : RuntimeVal) : bool :=
  match v with ReturnValue _ => true | _ => false end.

(** The number of constructors of a value; the measure for inductions that
    go through the properties of an object. *)
Fixpoint val_size (v : RuntimeVal) : nat :=
  match v with
  | ObjectVal props _ =>
      S (map_fold (fun _ x acc => (val_size x + acc)%nat) O props)
  | ReturnValue x => S (val_size x)
  | _ => 1%nat
  end.

End Values.

Export Values.

(** ** Comparison helpers of the evaluator (isTruthy, deepEqual, ...) *)

Module Compare.

Definition isTruthy (val : RuntimeVal) : bool :=
  match val with
  | BoolVal v => v
  | NumberVal v => negb (Float64.eqb v zero)
  | NadaVal => false
  | NilVal => false
  | _ => true
  end.

(** [deepEqual] and [objectsEqual] are mutually recursive in the source; the
    range loop of [objectsEqual] is the fold over the properties of [a].
    The loop returns [false] at the first failing key and has no effect, so
    the order in which the map is walked does not show in the result. *)
Fixpoint deepEqual (a b : RuntimeVal) {struct a} : bool :=
  match a, b with
  | NilVal, NilVal => true
  | NilVal, _ => false
  | _, NilVal => false
  | NumberVal x, NumberVal y => Float64.eqb x y
  | BoolVal x, BoolVal y => Bool.eqb x y
  | NadaVal, NadaVal => true
  | ObjectVal pa _, ObjectVal pb _ =>
      if negb (Nat.eqb (size pa) (size pb)) then false
      else map_fold
             (fun key valA acc =>
                acc && match pb !! key with
                       | Some valB => deepEqual valA valB
                       | None => false
                       end)
             true pa
  | _, _ => false
  end.

Definition objectsEqual (a b : gmap string RuntimeVal) : bool :=
  if negb (Nat.eqb (size a) (size b)) then false
  else map_fold
         (fun key valA acc =>
            acc && match b !! key with
                   | Some valB => deepEqual valA valB
                   | None => false
                   end)
         true a.

Definition lessThan (a b : RuntimeVal) : bool :=
  match a, b with
  | NumberVal x, NumberVal y => Float64.ltb x y
  | _, _ => false
  end.

Definition lessEqual (a b : RuntimeVal) : bool :=
  match a, b with
  | NumberVal x, NumberVal y => Float64.leb x y
  | _, _ => false
  end.

Definition greaterThan (a b : RuntimeVal) : bool :=
  match a, b with
  | NumberVal x, NumberVal y => Float64.ltb y x
  | _, _ => false
  end.

Definition greaterEqual (a b : RuntimeVal) : bool :=
  match a, b with
  | NumberVal x, NumberVal y => Float64.leb y x
  | _, _ => false
  end.

(** The values on which [deepEqual] has a comparing case all the way down:
    nil, Nada, Bool, a Number that is not NaN, and objects of such. *)
Fixpoint comparable (v : RuntimeVal) : bool :=
  match v with
  | NilVal | NadaVal | BoolVal _ => true
  | NumberVal x => negb (Float64.is_nan x)
  | ObjectVal props _ =>
      map_fold (fun _ x acc => acc && comparable x) true props
  | _ => false
  end.

End Compare.

Export Compare.

(** ** Interpreter state, errors and outcomes *)

Module Machine.

(** [Environment] (the struct behind [*Environment]). *)
Record Environment : Type := mkEnvironment {
  global : bool;
  parent : option EnvPtr;
  variables : gmap string RuntimeVal;
  constants : gset string
}.

(** The heap of frames, and what [print] has written so far: one entry per
    call, holding the values whose [String()] forms were joined into the
    line.  (The text of a Number comes from strconv.FormatFloat, which is
    outside the repository; the values themselves are recorded.) *)
Record State : Type := mkState {
  envs : list Environment;
  stdout : list (list RuntimeVal)
}.

(** The non-nil [error] values the evaluator builds.  The constructor stands
    for the message format, its arguments for what is spliced into it. *)
Inductive error : Type :=
| UnknownLogicalOperator (op : string)
    (* "unknown logical operator: %s" *)
| UnknownOperator (op : string)
    (* "Unknown operator %v" *)
| PropertyOfNonObject (v : RuntimeVal)
    (* "Attempted to access property of non-object value: %v" *)
| InvalidComputedKey (v : RuntimeVal)
    (* "Invalid computed property key type: %T" *)
| ExpectedIdentifierProperty (property : Stmt)
    (* "Expected Identifier for non-computed property, got %T" *)
| ArgsDoNotMatch (name : string)
    (* "Args do not match amount of parameters in function call for: %s" *)
| NotAFunction (v : RuntimeVal)
    (* "Cannot call value that is not a function: %v" *)
| IfConditionNotBool
    (* "If statement condition must be a boolean" *)
| WhileConditionNotBool
    (* "While loop condition must be a boolean" *)
| ForCountNotNumber
    (* "For loop count must evaluate to a number" *)
| AlreadyDefined (varName : string)
    (* "Variable %v already defined, cannot redeclare" *)
| AssignToConstant (varName : string)
    (* "Cannot assign to constant variable: %v" *)
| NodeNotAdded (node : option Stmt)
    (* "AST Node has not been added for interpretation: %v" *).

(** Host panics: the two explicit [panic] calls and the Go runtime's own. *)
Inductive panic : Type :=
| InvalidAssignee (assignee : Stmt)
    (* panic("Invalid left side of assignemt: %v") *)
| VariableDoesNotExist (varName : string)
    (* panic("Variable %v does not exist") *)
| IntegerDivideByZero
    (* runtime error: integer divide by zero *)
| NilDereference
    (* runtime error: invalid memory address or nil pointer dereference *).

Inductive Outcome (A : Type) : Type :=
| Ok (v : A) (st : State)          (* returned (v, nil) *)
| Err (e : error) (st : State)     (* returned (nil, e) *)
| Panic (p : panic) (st : State)   (* the goroutine panicked *)
| OutOfFuel.                       (* the evaluation budget ran out *)

Arguments Ok {A} v st.
Arguments Err {A} e st.
Arguments Panic {A} p st.
Arguments OutOfFuel {A}.

(** Computations over the interpreter state. *)
Definition M (A : Type) : Type := State -> Outcome A.

Definition ret {A} (v : A) : M A := fun st => Ok v st.
Definition fail {A} (e : error) : M A := fun st => Err e st.
Definition throw {A} (p : panic) : M A := fun st => Panic p st.

Definition bind {A B} (m : M A) (k : A -> M B) : M B :=
  fun st =>
    match m st with
    | Ok v st' => k v st'
    | Err e st' => Err e st'
    | Panic p st' => Panic p st'
    | OutOfFuel => OutOfFuel
    end.

(** A call whose [error] result the caller drops. *)
Definition ignoreError {A} (m : M A) : M unit :=
  fun st =>
    match m st with
    | Ok _ st' | Err _ st' => Ok tt st'
    | Panic p st' => Panic p st'
    | OutOfFuel => OutOfFuel
    end.

(** Go's [x % y] on [int]: the remainder of the division truncated toward
    zero, and a run-time panic when the divisor is zero. *)
Definition intRem (x y : Z) : M Z :=
  if y =? 0 then throw IntegerDivideByZero else ret (Z.rem x y).

Definition finalState {A} (o : Outcome A) : option State :=
  match o with
  | Ok _ st | Err _ st | Panic _ st => Some st
  | OutOfFuel => None
  end.

End Machine.

Export Machine.

Notation "'let*' x ':=' m 'in' k" := (bind m (fun x => k))
  (at level 10, x name, m at level 100, k at level 200).

(** ** Environments (NewEnvironment, DeclareVar, AssignVal, LookupVar) *)

Module Env.

(** Dereferencing a frame pointer. *)
Definition deref (env : EnvPtr) : M Environment :=
  fun st =>
    match envs st !! env with
    | Some e => Ok e st
    | None => Panic NilDereference st
    end.

Definition store (env : EnvPtr) (e : Environment) : M unit :=
  fun st => Ok tt (mkState (<[env := e]> (envs st)) (stdout st)).

(** [env.variables[name] = value] *)
Definition setVar (env : EnvPtr) (name : string) (value : RuntimeVal)
    : M unit :=
  let* e := deref env in
  store env (mkEnvironment (global e) (parent e)
               (<[name := value]> (variables e)) (constants e)).

Definition DeclareVar (env : EnvPtr) (varName : string) (value : RuntimeVal)
    (constant : bool) : M RuntimeVal :=
  let* e := deref env in
  match variables e !! varName with
  | Some _ => fail (AlreadyDefined varName)
  | None =>
      let* _ := setVar env varName value in
      let* _ :=
        if constant then
          let* e' := deref env in
          store env (mkEnvironment (global e') (parent e') (variables e')
                       ({[ varName ]} ∪ constants e'))
        else ret tt in
      ret value
  end.

(** [resolve] climbs the parent pointers.  The recursion is bounded by the
    number of frames in the heap: a chain without a cycle is no longer. *)
Fixpoint resolveFrom (bound : nat) (env : EnvPtr) (varName : string)
    : M EnvPtr :=
  let* e := deref env in
  match variables e !! varName with
  | Some _ => ret env
  | None =>
      match parent e with
      | None => throw (VariableDoesNotExist varName)
      | Some p =>
          match bound with
          | O => fun _ => OutOfFuel
          | S bound' => resolveFrom bound' p varName
          end
      end
  end.

Definition resolve (env : EnvPtr) (varName : string) : M EnvPtr :=
  fun st => resolveFrom (length (envs st)) env varName st.

Definition AssignVal (env : EnvPtr) (varName : string) (value : RuntimeVal)
    : M RuntimeVal :=
  let* resolvedEnv := resolve env varName in
  let* e := deref resolvedEnv in
  if decide (varName ∈ constants e) then fail (AssignToConstant varName)
  else
    let* _ := setVar resolvedEnv varName value in
    ret value.

(** [resolvedEnv.variables[varName]]: the zero value [nil] for a missing key
    (which [resolve] has just excluded). *)
Definition LookupVar (env : EnvPtr) (varName : string) : M RuntimeVal :=
  let* resolvedEnv := resolve env varName in
  let* e := deref resolvedEnv in
  ret (default NilVal (variables e !! varName)).

(** The argument lines of [print]: [arg.String()] is a method call through
    the interface, so a nil argument panics before anything is written. *)
Definition callNative (fn : FunctionCall) (args : list RuntimeVal)
    (env : EnvPtr) : M RuntimeVal :=
  match fn with
  | printCall =>
      if existsb (fun a => match a with NilVal => true | _ => false end) args
      then throw NilDereference
      else fun st => Ok NadaVal (mkState (envs st) (stdout st ++ [args]))
  end.

(** The declarations of [setupGlobalScope]; their results are dropped. *)
Definition setupGlobalScope (env : EnvPtr) : M unit :=
  let* _ := ignoreError (DeclareVar env "nada" NadaVal true) in
  let* _ := ignoreError (DeclareVar env "true" (BoolVal true) true) in
  let* _ := ignoreError (DeclareVar env "false" (BoolVal false) true) in
  ignoreError
    (DeclareVar env "print" (NativeFunctionValue printCall "print") true).

(** [NewEnvironment]: allocate a frame; a frame without a parent is global
    and receives the built-ins. *)
Definition NewEnvironment (parentEnv : option EnvPtr) : M EnvPtr :=
  fun st =>
    let e := length (envs st) in
    let isGlobal := match parentEnv with None => true | Some _ => false end in
    let st' := mkState (envs st ++ [mkEnvironment isGlobal parentEnv ∅ ∅])
                 (stdout st) in
    if isGlobal then (let* _ := setupGlobalScope e in ret e) st'
    else Ok e st'.

Definition emptyState : State := mkState [] [].

End Env.

Export Env.

(** ** The evaluator (runtime/interpreter.go and the eval* functions) *)

Module Interp.

Section Evaluators.

(** [strconv.FormatFloat(k, 'f', -1, 64)], the shortest decimal text of a
    float; it belongs to the Go library, not to the repository, and only
    computed member access on a Number key consults it. *)
Variable FormatFloat : float64 -> string.

Section Nodes.

(** The recursive calls to [Evaluate] made by the eval* functions. *)
Variable Evaluate : option Stmt -> EnvPtr -> M RuntimeVal.

Definition opIs (operator literal : string) : bool :=
  String.eqb operator literal.

(** *** Logical expressions *)

Definition evalLogicalExpr (Left Right : Stmt) (Operator : string)
    (env : EnvPtr) : M RuntimeVal :=
  let* leftSide := Evaluate (Some Left) env in
  let* rightSide := Evaluate (Some Right) env in
  if opIs Operator "and" then
    ret (BoolVal (isTruthy leftSide && isTruthy rightSide))
  else if opIs Operator "or" then
    ret (BoolVal (isTruthy leftSide || isTruthy rightSide))
  else if opIs Operator "not" then ret (BoolVal (negb (isTruthy leftSide)))
  else if opIs Operator "==" then ret (BoolVal (deepEqual leftSide rightSide))
  else if opIs Operator "!=" then
    ret (BoolVal (negb (deepEqual leftSide rightSide)))
  else if opIs Operator "<" then ret (BoolVal (lessThan leftSide rightSide))
  else if opIs Operator "<=" then ret (BoolVal (lessEqual leftSide rightSide))
  else if opIs Operator ">" then ret (BoolVal (greaterThan leftSide rightSide))
  else if opIs Operator ">=" then
    ret (BoolVal (greaterEqual leftSide rightSide))
  else fail (UnknownLogicalOperator Operator).

(** *** Binary expressions *)

(** The operands are [NumberVal] structs, i.e. their one float64 field. *)
Definition evalNumericBinaryExpr (leftSide rightSide : float64)
    (operator : string) : M float64 :=
  if opIs operator "+" then ret (Float64.add leftSide rightSide)
  else if opIs operator "-" then ret (Float64.sub leftSide rightSide)
  else if opIs operator "*" then ret (Float64.mul leftSide rightSide)
  else if opIs operator "/" then
    if Float64.eqb rightSide zero then ret zero
    else ret (Float64.div leftSide rightSide)
  else if opIs operator "%" then
    let leftInt := to_int leftSide in
    let rightInt := to_int rightSide in
    let* r := intRem leftInt rightInt in
    ret (of_int r)
  else fail (UnknownOperator operator).

Definition evalBinaryExpr (Left Right : Stmt) (Operator : string)
    (env : EnvPtr) : M RuntimeVal :=
  let* leftSide := Evaluate (Some Left) env in
  let* rightSide := Evaluate (Some Right) env in
  match leftSide, rightSide with
  | NumberVal leftNum, NumberVal rightNum =>
      let* result := evalNumericBinaryExpr leftNum rightNum Operator in
      ret (NumberVal result)
  | _, _ => ret NadaVal
  end.

(** *** Unary expressions *)

Definition evalNumericUnaryExpr (operant : float64) (operator : string)
    : RuntimeVal :=
  let result : float64 := zero in     (* var result float64 *)
  if opIs operator "-" then NumberVal (Float64.neg operant)
  else if opIs operator "!" then
    NumberVal (if Float64.eqb result zero then one else zero)
  else NumberVal operant.

Definition evalUnaryExpr (Operant : Stmt) (Operator : string) (env : EnvPtr)
    : M RuntimeVal :=
  let* operant := Evaluate (Some Operant) env in
  match operant with
  | NumberVal operantNum => ret (evalNumericUnaryExpr operantNum Operator)
  | _ => ret NadaVal
  end.

(** *** Identifiers, objects, members *)

Definition evalIdentifier (Symbol : string) (env : EnvPtr) : M RuntimeVal :=
  LookupVar env Symbol.

(** The range loop of [evalObjectExpr] over [obj.Properties], filling the
    map of the object under construction. *)
Fixpoint evalProperties (properties : list (string * option Stmt))
    (env : EnvPtr) (object : gmap string RuntimeVal)
    : M (gmap string RuntimeVal) :=
  match properties with
  | [] => ret object
  | (key, value) :: rest =>
      let* runtimeVal :=
        match value with
        | None => LookupVar env key
        | Some v => Evaluate (Some v) env
        end in
      evalProperties rest env (<[key := runtimeVal]> object)
  end.

Definition evalObjectExpr (Properties : list (string * option Stmt))
    (env : EnvPtr) : M RuntimeVal :=
  let* object := evalProperties Properties env ∅ in
  ret (ObjectVal object EmptyString).

Definition evalMemberExpr (Object PropertyExpr : Stmt) (Computed : bool)
    (env : EnvPtr) : M RuntimeVal :=
  let* objVal := Evaluate (Some Object) env in
  match objVal with
  | ObjectVal props _ =>
      let* key :=
        if Computed then
          let* propVal := Evaluate (Some PropertyExpr) env in
          match propVal with
          | StringVal k => ret k
          | NumberVal k => ret (FormatFloat k)
          | _ => fail (InvalidComputedKey propVal)
          end
        else
          match PropertyExpr with
          | Identifier sym => ret sym
          | _ => fail (ExpectedIdentifierProperty PropertyExpr)
          end in
      ret (default NadaVal (props !! key))
  | _ => fail (PropertyOfNonObject objVal)
  end.

(** *** Assignment *)

Definition evalAssignmentExpr (Assignee Value : Stmt) (env : EnvPtr)
    : M RuntimeVal :=
  match Assignee with
  | Identifier assigneeName =>
      let* assigneeValue := Evaluate (Some Value) env in
      AssignVal env assigneeName assigneeValue
  | _ => throw (InvalidAssignee Assignee)
  end.

(** *** Calls *)

(** The first loop of [evalCallExpr]: [args[i], err = Evaluate(arg, env)]
    for the arguments in index order. *)
Fixpoint evalArgs (Args : list Stmt) (env : EnvPtr) : M (list RuntimeVal) :=
  match Args with
  | [] => ret []
  | arg :: rest =>
      let* v := Evaluate (Some arg) env in
      let* vs := evalArgs rest env in
      ret (v :: vs)
  end.

(** [scope.DeclareVar(varName, args[i], false)] for each parameter; the
    result of the declaration is not looked at. *)
Fixpoint bindParameters (scope : EnvPtr) (Parameters : list string)
    (args : list RuntimeVal) : M unit :=
  match Parameters, args with
  | varName :: ps, a :: rest =>
      let* _ := ignoreError (DeclareVar scope varName a false) in
      bindParameters scope ps rest
  | _, _ => ret tt
  end.

(** The loop over the body of a user function: the first statement whose
    value is a [ReturnValue] ends the call with the value it carries. *)
Fixpoint callBody (Body : list Stmt) (scope : EnvPtr) : M RuntimeVal :=
  match Body with
  | [] => ret NadaVal
  | stmt :: rest =>
      let* result := Evaluate (Some stmt) scope in
      match result with
      | ReturnValue v => ret v
      | _ => callBody rest scope
      end
  end.

Definition callFunction (fn : RuntimeVal) (args : list RuntimeVal)
    (env : EnvPtr) : M RuntimeVal :=
  match fn with
  | NativeFunctionValue call _ => callNative call args env
  | UserFunctionValue name params declarationEnv body =>
      let* scope := NewEnvironment (Some declarationEnv) in
      if negb (Nat.eqb (length params) (length args)) then
        fail (ArgsDoNotMatch name)
      else
        let* _ := bindParameters scope params args in
        callBody body scope
  | _ => fail (NotAFunction fn)
  end.

Definition evalCallExpr (Args : list Stmt) (Caller : Stmt) (env : EnvPtr)
    : M RuntimeVal :=
  let* args := evalArgs Args env in
  let* fn := Evaluate (Some Caller) env in
  callFunction fn args env.

(** *** Statements *)

(** The loop shared by [evalProgram], [evalIfStmt], [evalWhileStmt] and
    [evalForStmt]: [last, err = Evaluate(s, env)] for each statement, leaving
    at the first error.  [lastEvaluated] is the variable's value on entry. *)
Fixpoint evalStatements (Body : list Stmt) (env : EnvPtr)
    (lastEvaluated : RuntimeVal) : M RuntimeVal :=
  match Body with
  | [] => ret lastEvaluated
  | s :: rest =>
      let* v := Evaluate (Some s) env in
      evalStatements rest env v
  end.

(** [var lastEvaluated RuntimeVal] starts as the nil interface. *)
Definition evalProgram (Body : list Stmt) (env : EnvPtr) : M RuntimeVal :=
  evalStatements Body env NilVal.

Definition evalVarDeclaration (Constant : bool) (Ident : string)
    (Value : option Stmt) (env : EnvPtr) : M RuntimeVal :=
  match Value with
  | None => DeclareVar env Ident NadaVal Constant
  | Some value =>
      let* evaluatedValue := Evaluate (Some value) env in
      DeclareVar env Ident evaluatedValue Constant
  end.

Definition evalFunctionDeclaration (Name : string) (Parameters : list string)
    (Body : list Stmt) (env : EnvPtr) : M RuntimeVal :=
  DeclareVar env Name (UserFunctionValue Name Parameters env Body) true.

Definition evalIfStmt (Condition : Stmt) (Body : list Stmt) (env : EnvPtr)
    : M RuntimeVal :=
  let* condVal := Evaluate (Some Condition) env in
  match condVal with
  | BoolVal true => evalStatements Body env NadaVal
  | BoolVal false => ret NadaVal
  | _ => fail IfConditionNotBool
  end.

(** The [for { ... }] of [evalWhileStmt]; [budget] bounds its iterations. *)
Fixpoint whileLoop (budget : nat) (Condition : Stmt) (Body : list Stmt)
    (env : EnvPtr) (result : RuntimeVal) : M RuntimeVal :=
  match budget with
  | O => fun _ => OutOfFuel
  | S budget' =>
      let* condVal := Evaluate (Some Condition) env in
      match condVal with
      | BoolVal true =>
          let* result' := evalStatements Body env result in
          whileLoop budget' Condition Body env result'
      | BoolVal false => ret result
      | _ => fail WhileConditionNotBool
      end
  end.

Definition evalWhileStmt (budget : nat) (Condition : Stmt) (Body : list Stmt)
    (env : EnvPtr) : M RuntimeVal :=
  whileLoop budget Condition Body env NadaVal.

(** [for i := 0; i < n; i++ { ... }] with [n = int(numVal.Value)].  The
    counter stays below [n], an [int], so [i++] never wraps.  [steps] is the
    number of iterations still allowed; [evalForStmt] passes [n] itself,
    which the counter cannot exceed. *)
Fixpoint forLoop (steps : nat) (i n : Z) (Body : list Stmt) (env : EnvPtr)
    (lastEvaluated : RuntimeVal) : M RuntimeVal :=
  if i <? n then
    match steps with
    | O => fun _ => OutOfFuel
    | S steps' =>
        let* v := evalStatements Body env lastEvaluated in
        forLoop steps' (i + 1) n Body env v
    end
  else ret lastEvaluated.

Definition evalForStmt (Condition : Stmt) (Body : list Stmt) (env : EnvPtr)
    : M RuntimeVal :=
  let* countVal := Evaluate (Some Condition) env in
  match countVal with
  | NumberVal numVal =>
      let n := to_int numVal in
      forLoop (Z.to_nat n) 0 n Body env NilVal
  | _ => fail ForCountNotNumber
  end.

Definition evalReturnStmt (Value : option Stmt) (env : EnvPtr)
    : M RuntimeVal :=
  let* val := Evaluate Value env in
  ret (ReturnValue val).

(** *** The dispatch of [Evaluate] *)

(** The type switch of [Evaluate]; a [Property] and a nil node have no case
    and reach the default.  [budget] is what the body of a [while] may still
    use. *)
Definition EvaluateNode (budget : nat) (astNode : option Stmt) (env : EnvPtr)
    : M RuntimeVal :=
  match astNode with
  | Some (Program body) => evalProgram body env
  | Some (NumericLiteral v) => ret (NumberVal v)
  | Some (StringLiteral v) => ret (StringVal v)
  | Some (Identifier sym) => evalIdentifier sym env
  | Some (ObjectLiteral props) => evalObjectExpr props env
  | Some (MemberExpr o p c) => evalMemberExpr o p c env
  | Some (BinaryExpr l r op) => evalBinaryExpr l r op env
  | Some (UnaryExpr o op) => evalUnaryExpr o op env
  | Some (VarDeclaration c i v) => evalVarDeclaration c i v env
  | Some (FunctionDeclaration n ps b) => evalFunctionDeclaration n ps b env
  | Some (AssignmentExpr a v) => evalAssignmentExpr a v env
  | Some (CallExpr args caller) => evalCallExpr args caller env
  | Some (LogicalExpr l r op) => evalLogicalExpr l r op env
  | Some (IfStmt c b) => evalIfStmt c b env
  | Some (WhileStmt c b) => evalWhileStmt budget c b env
  | Some (ForStmt c b) => evalForStmt c b env
  | Some (ReturnStmt v) => evalReturnStmt v env
  | Some (Property _ _) | None => fail (NodeNotAdded astNode)
  end.

End Nodes.

(** [Evaluate], by recursion on the nesting depth it may still descend. *)
Fixpoint Evaluate (fuel : nat) (astNode : option Stmt) (env : EnvPtr)
    : M RuntimeVal :=
  match fuel with
  | O => fun _ => OutOfFuel
  | S fuel' => EvaluateNode (Evaluate fuel') fuel' astNode env
  end.

(** What [main] does with a parsed program: a fresh global environment, then
    [Evaluate(program, env)]. *)
Definition run (fuel : nat) (program : Stmt) : Outcome RuntimeVal :=
  (let* env := NewEnvironment None in Evaluate fuel (Some program) env)
    emptyState.

End Evaluators.

End Interp.

Export Interp.

(** ** The lexer (frontend/lexer.go) *)

Module Lexer.

(** The token kinds in the order of the [iota] block; [Token_code] is the
    integer a kind stands for. *)
Inductive Token : Type :=
| EOF | ILLEGAL | IDENT | RETURN | INT | FLOAT | STRING | CHAR
| VAR | CONST | OPENCURLY | CLOSECURLY | OPENPAREN | CLOSEPAREN
| OPENBRACKET | CLOSEBRACKET | ADD | SUB | MUL | DIV | MOD
| NOT | COLON | COMMA | DOT | DE | NE | GT | LT | GTE | LTE
| IF | FOR | WHILE | FUN | AND | OR
| EQUALS.

Definition Token_code (t : Token) : Z :=
  match t with
  | EOF => 0 | ILLEGAL => 1 | IDENT => 2 | RETURN => 3 | INT => 4
  | FLOAT => 5 | STRING => 6 | CHAR => 7 | VAR => 8 | CONST => 9
  | OPENCURLY => 10 | CLOSECURLY => 11 | OPENPAREN => 12 | CLOSEPAREN => 13
  | OPENBRACKET => 14 | CLOSEBRACKET => 15 | ADD => 16 | SUB => 17
  | MUL => 18 | DIV => 19 | MOD => 20 | NOT => 21 | COLON => 22
  | COMMA => 23 | DOT => 24 | DE => 25 | NE => 26 | GT => 27 | LT => 28
  | GTE => 29 | LTE => 30 | IF => 31 | FOR => 32 | WHILE => 33 | FUN => 34
  | AND => 35 | OR => 36 | EQUALS => 37
  end.

(** A [rune] is a Unicode code point. *)
Definition rune : Type := Z.

Definition char (c : ascii) : rune := Z.of_N (N_of_ascii c).

Definition byte (z : Z) : ascii := ascii_of_N (Z.to_N z).

(** The double quote, U+0022. *)
Definition quote : rune := 34.

(** [string(r)]: the UTF-8 encoding of a rune, U+FFFD for an invalid one. *)
Definition runeString (r : rune) : string :=
  if (r <? 0) || (1114111 <? r) || ((55296 <=? r) && (r <=? 57343)) then
    String (byte 239) (String (byte 191) (String (byte 189) EmptyString))
  else if r <? 128 then String (byte r) EmptyString
  else if r <? 2048 then
    String (byte (192 + r / 64)) (String (byte (128 + r mod 64)) EmptyString)
  else if r <? 65536 then
    String (byte (224 + r / 4096))
      (String (byte (128 + (r / 64) mod 64))
         (String (byte (128 + r mod 64)) EmptyString))
  else
    String (byte (240 + r / 262144))
      (String (byte (128 + (r / 4096) mod 64))
         (String (byte (128 + (r / 64) mod 64))
            (String (byte (128 + r mod 64)) EmptyString))).

Record Position : Type := mkPosition { line : Z; column : Z }.

Record TokenItem : Type := mkTokenItem {
  tokenPos : Position;
  tokenType : Token;
  value : string
}.

(** The lexer: its position and the runes its reader has not yet handed
    out.  The reader is taken to hold its whole input: [ReadRune] fails only
    with [io.EOF], and the [UnreadRune] of [goBack], which always follows a
    successful [ReadRune], restores the rune just read and cannot fail.  The
    [error] results of the scanners are therefore always nil and left out. *)
Record Lexer : Type := mkLexer { pos : Position; input : list rune }.

Definition NewLexer (input : list rune) : Lexer :=
  mkLexer (mkPosition 1 0) input.

(** [l.pos.column++] *)
Definition advance (p : Position) : Position :=
  mkPosition (line p) (column p + 1).

Definition resetPosition (p : Position) : Position :=
  mkPosition (line p + 1) 0.

(** [goBack] after [r] was read: the column steps back and [r] is unread. *)
Definition goBack (r : rune) (p : Position) (rest : list rune) : Lexer :=
  mkLexer (mkPosition (line p) (column p - 1)) (r :: rest).

Section Scanners.

(** [unicode.IsSpace], [unicode.IsDigit] and [unicode.IsLetter]: tables of
    the Go library. *)
Variables IsSpace IsDigit IsLetter : rune -> bool.

(** The read loops of the scanners.  Each is written over the runes still to
    be read: the empty list is [io.EOF], and every exit that follows a rune
    the scanner does not take goes through [goBack]. *)

Fixpoint lexNumLoop (p : Position) (rs : list rune) (literal : string)
    (varType : Token) (dotCount : Z) : string * Token * Lexer :=
  match rs with
  | [] => (literal, varType, mkLexer p [])
  | r :: rest =>
      let p := advance p in
      if IsDigit r then
        lexNumLoop p rest (literal ++ runeString r) varType dotCount
      else if r =? char "." then
        lexNumLoop p rest (literal ++ runeString r)
          (if dotCount =? 0 then FLOAT else ILLEGAL) (dotCount + 1)
      else (literal, varType, goBack r p rest)
  end.

Definition lexNum (l : Lexer) : string * Token * Lexer :=
  lexNumLoop (pos l) (input l) EmptyString INT 0.

Fixpoint lexIdentLoop (p : Position) (rs : list rune) (literal : string)
    : string * Lexer :=
  match rs with
  | [] => (literal, mkLexer p [])
  | r :: rest =>
      let p := advance p in
      if IsLetter r || IsDigit r || (r =? char "_") then
        lexIdentLoop p rest (literal ++ runeString r)
      else (literal, goBack r p rest)
  end.

Definition lexIdent (l : Lexer) : string * Lexer :=
  lexIdentLoop (pos l) (input l) EmptyString.

Fixpoint lexStringLoop (p : Position) (rs : list rune) (literal : string)
    : string * Token * Lexer :=
  match rs with
  | [] => (literal, ILLEGAL, mkLexer p [])
  | r :: rest =>
      let p := advance p in
      if r =? quote then (literal, STRING, mkLexer p rest)
      else lexStringLoop p rest (literal ++ runeString r)
  end.

(** [lexString] is entered with the opening quote unread, so its first
    [ReadRune] succeeds; at end of input that call would return [io.EOF],
    which [Lex] hands to its caller: [None] here. *)
Definition lexString (l : Lexer) : option (string * Token * Lexer) :=
  match input l with
  | [] => None
  | r :: rest =>
      let p := advance (pos l) in
      if negb (r =? quote) then Some (EmptyString, ILLEGAL, mkLexer p rest)
      else Some (lexStringLoop p rest EmptyString)
  end.

Fixpoint lexEqualsLoop (p : Position) (rs : list rune) (lit : string)
    (equalCount : Z) : string * Z * Lexer :=
  match rs with
  | [] => (lit, equalCount, mkLexer p [])
  | r :: rest =>
      let p := advance p in
      if r =? char "=" then
        lexEqualsLoop p rest (lit ++ runeString r) (equalCount + 1)
      else (lit, equalCount, goBack r p rest)
  end.

Definition lexEquals (l : Lexer) : string * Token * Lexer :=
  let '(lit, equalCount, l') :=
    lexEqualsLoop (pos l) (input l) EmptyString 0 in
  let equalType :=
    if equalCount =? 1 then EQUALS
    else if equalCount =? 2 then DE
    else ILLEGAL in
  (lit, equalType, l').

(** The loop shared in shape by [lexNot], [lexLessThan] and
    [lexGreaterThan]: it takes [c] and ['='] and counts each. *)
Fixpoint lexPairLoop (c : rune) (p : Position) (rs : list rune) (lit : string)
    (cCount equalCount : Z) : string * Z * Z * Lexer :=
  match rs with
  | [] => (lit, cCount, equalCount, mkLexer p [])
  | r :: rest =>
      let p := advance p in
      if r =? c then
        lexPairLoop c p rest (lit ++ runeString r) (cCount + 1) equalCount
      else if r =? char "=" then
        lexPairLoop c p rest (lit ++ runeString r) cCount (equalCount + 1)
      else (lit, cCount, equalCount, goBack r p rest)
  end.

Definition lexNot (l : Lexer) : string * Token * Lexer :=
  let '(lit, notCount, equalCount, l') :=
    lexPairLoop (char "!") (pos l) (input l) EmptyString 0 0 in
  let notType :=
    if (notCount =? 1) && (equalCount =? 1) then NE
    else if (notCount =? 1) && (equalCount =? 0) then NOT
    else ILLEGAL in
  (lit, notType, l').

(** The loop of [lexAnd] and of [lexOr]: it takes the rune [c] and counts. *)
Fixpoint lexRepeatLoop (c : rune) (p : Position) (rs : list rune)
    (lit : string) (count : Z) : string * Z * Lexer :=
  match rs with
  | [] => (lit, count, mkLexer p [])
  | r :: rest =>
      let p := advance p in
      if r =? c then lexRepeatLoop c p rest (lit ++ runeString r) (count + 1)
      else (lit, count, goBack r p rest)
  end.

Definition lexAnd (l : Lexer) : string * Token * Lexer :=
  let '(lit, andCount, l') :=
    lexRepeatLoop (char "&") (pos l) (input l) EmptyString 0 in
  let andType := if andCount =? 2 then AND else ILLEGAL in
  (lit, andType, l').

(** [var orType Token] is the zero token; the test after the loop reads
    [orType == 2], the token kind against the constant, not [orCount]. *)
Definition lexOr (l : Lexer) : string * Token * Lexer :=
  let orType : Token := EOF in
  let '(lit, orCount, l') :=
    lexRepeatLoop (char "|") (pos l) (input l) EmptyString 0 in
  let orType := if Token_code orType =? 2 then OR else ILLEGAL in
  (lit, orType, l').

Definition lexLessThan (l : Lexer) : string * Token * Lexer :=
  let '(lit, ltCount, equalCount, l') :=
    lexPairLoop (char "<") (pos l) (input l) EmptyString 0 0 in
  let ltType :=
    if (ltCount =? 1) && (equalCount =? 1) then LTE
    else if (ltCount =? 1) && (equalCount =? 0) then LT
    else ILLEGAL in
  (lit, ltType, l').

Definition lexGreaterThan (l : Lexer) : string * Token * Lexer :=
  let '(lit, gtCount, equalCount, l') :=
    lexPairLoop (char ">") (pos l) (input l) EmptyString 0 0 in
  let gtType :=
    if (gtCount =? 1) && (equalCount =? 1) then GTE
    else if (gtCount =? 1) && (equalCount =? 0) then GT
    else ILLEGAL in
  (lit, gtType, l').

(** The keyword table applied to the lexeme of [lexIdent]. *)
Definition keyword (lit : string) : Token :=
  let among := existsb (String.eqb lit) in
  if among ["func"; "fun"; "fn"; "funky"; "def"] then FUN
  else if among ["if"; runeString 10067] then IF
  else if among ["for"] then FOR
  else if among ["while"; "loop"; "forever"] then WHILE
  else if among ["var"; "val"; "define"; "let"] then VAR
  else if among ["const"] then CONST
  else if among ["and"; "plus"] then AND
  else if among ["or"; "perhaps"] then OR
  else if among ["not"] then NOT
  else if among ["return"] then RETURN
  else IDENT.

(** What one turn of the loop of [Lex] does with the rune [r] it has read:
    the lexer to go on with, and the token appended, if any.  [l] is the
    lexer after the read, its column already advanced; the scanners are
    entered after [goBack].  [None]: [Lex] returns an error. *)
Definition lexRune (r : rune) (l : Lexer)
    : option (Lexer * option TokenItem) :=
  let single t s := Some (l, Some (mkTokenItem (pos l) t s)) in
  let scanned (scan : Lexer -> string * Token * Lexer) :=
    let '(lit, t, l') := scan (goBack r (pos l) (input l)) in
    Some (l', Some (mkTokenItem (pos l) t lit)) in
  if r =? 10 then Some (mkLexer (resetPosition (pos l)) (input l), None)
  else if r =? char "+" then single ADD "+"
  else if r =? char "-" then single SUB "-"
  else if r =? char "*" then single MUL "*"
  else if r =? char "/" then single DIV "/"
  else if r =? char "%" then single MOD "%"
  else if r =? char "=" then scanned lexEquals
  else if r =? char "(" then single OPENPAREN "("
  else if r =? char ")" then single CLOSEPAREN ")"
  else if r =? char "{" then single OPENCURLY "{"
  else if r =? char "}" then single CLOSECURLY "}"
  else if r =? char "[" then single OPENBRACKET "["
  else if r =? char "]" then single CLOSEBRACKET "]"
  else if r =? char "!" then scanned lexNot
  else if r =? char ":" then single COLON ":"
  else if r =? char "," then single COMMA ","
  else if r =? char "." then single DOT "."
  else if r =? char "&" then scanned lexAnd
  else if r =? char "|" then scanned lexOr
  else if r =? char "<" then scanned lexLessThan
  else if r =? char ">" then scanned lexGreaterThan
  else if IsSpace r then Some (l, None)
  else if IsDigit r then scanned lexNum
  else if IsLetter r then
    let '(lit, l') := lexIdent (goBack r (pos l) (input l)) in
    Some (l', Some (mkTokenItem (pos l) (keyword lit) lit))
  else if r =? quote then
    match lexString (goBack r (pos l) (input l)) with
    | Some (lit, t, l') => Some (l', Some (mkTokenItem (pos l) t lit))
    | None => None
    end
  else single ILLEGAL (runeString r).

(** The loop of [Lex]; every turn reads at least one rune, so a budget of
    one more than the runes to read is never used up. *)
Fixpoint lexLoop (budget : nat) (l : Lexer) (tokenList : list TokenItem)
    : option (list TokenItem) :=
  match budget with
  | O => None
  | S budget' =>
      match input l with
      | [] => Some (tokenList ++ [mkTokenItem (pos l) EOF EmptyString])%list
      | r :: rest =>
          match lexRune r (mkLexer (advance (pos l)) rest) with
          | Some (l', Some tok) => lexLoop budget' l' (tokenList ++ [tok])%list
          | Some (l', None) => lexLoop budget' l' tokenList
          | None => None
          end
      end
  end.

Definition Lex (l : Lexer) : option (list TokenItem) :=
  lexLoop (S (length (input l))) l [].

End Scanners.

(** The runes of an ASCII text. *)
Fixpoint runes (s : string) : list rune :=
  match s with
  | EmptyString => []
  | String c s' => char c :: runes s'
  end.

End Lexer.

(** ** Readings of the specification, and sample programs *)

Module Reading.

Section Reading.

Variable Evaluate : option Stmt -> EnvPtr -> M RuntimeVal.

(** The specification's order for a call, "evaluate callee and then
    arguments in order": the callee first, then what [evalCallExpr] does
    with the arguments and the function value. *)
Definition evalCallExpr_calleeFirst (Args : list Stmt) (Caller : Stmt)
    (env : EnvPtr) : M RuntimeVal :=
  let* fn := Evaluate (Some Caller) env in
  let* args := evalArgs Evaluate Args env in
  callFunction Evaluate fn args env.

(** "Evaluate statements in order": each statement is handed to [Evaluate]
    in [env] once the statements before it have returned; the value is the
    last statement's, or [lastEvaluated] where there is no statement.  An
    error or a panic ends the evaluation. *)
Definition inOrder (stmts : list Stmt) (env : EnvPtr)
    (lastEvaluated : RuntimeVal) : M RuntimeVal :=
  foldl (fun m s => let* _ := m in Evaluate (Some s) env)
    (ret lastEvaluated) stmts.

(** "Evaluate body [k] times in the enclosing scope": the statements of the
    body, [k] times over, evaluated in order in [env]. *)
Definition repeatStatements (k : nat) (Body : list Stmt) (env : EnvPtr)
    (lastEvaluated : RuntimeVal) : M RuntimeVal :=
  inOrder (mjoin (replicate k Body)) env lastEvaluated.

End Reading.

(** A stand-in for strconv.FormatFloat where a concrete run needs one; the
    sample programs below have no computed Number keys. *)
Definition noFormat (x : float64) : string := EmptyString.

Definition number (z : Z) : Stmt := NumericLiteral (of_Z z).

Definition printOf (arg : Stmt) : Stmt := CallExpr [arg] (Identifier "print").

(** [1/0] *)
Definition oneOverZero : Stmt := Program [BinaryExpr (number 1) (number 0) "/"].

(** [return 1] at top level *)
Definition topLevelReturn : Stmt := Program [ReturnStmt (Some (number 1))].

(** [1 % 0] *)
Definition oneModuloZero : Stmt :=
  Program [BinaryExpr (number 1) (number 0) "%"].

(** [while (0 == 0) { }] *)
Definition forever : Stmt :=
  Program [WhileStmt (LogicalExpr (number 0) (number 0) "==") []].

(** [fn f() { return }  f()] *)
Definition bareReturnCall : Stmt :=
  Program [FunctionDeclaration "f" [] [ReturnStmt None];
           CallExpr [] (Identifier "f")].

(** [print("callee")(print("arg"))]: a call whose callee and whose argument
    each write a line. *)
Definition printingCall : Stmt :=
  CallExpr [printOf (StringLiteral "arg")] (printOf (StringLiteral "callee")).

(** [for (3) { print("x") }] *)
Definition threeTimes : Stmt :=
  Program [ForStmt (number 3) [printOf (StringLiteral "x")]].

(** [print(1 + 2 * 3)] *)
Definition arithmetic : Stmt :=
  Program [printOf (BinaryExpr (number 1)
                      (BinaryExpr (number 2) (number 3) "*") "+")].

(** [funky f(n) { if (n == 0) { return 1 } return n * f(n - 1) }
    print(f(5))] *)
Definition factorial : Stmt :=
  Program
    [FunctionDeclaration "f" ["n"]
       [IfStmt (LogicalExpr (Identifier "n") (number 0) "==")
          [ReturnStmt (Some (number 1))];
        ReturnStmt
          (Some (BinaryExpr (Identifier "n")
                   (CallExpr [BinaryExpr (Identifier "n") (number 1) "-"]
                      (Identifier "f")) "*"))];
     printOf (CallExpr [number 5] (Identifier "f"))].

(** [val o = { a: 1, b: 2 }  print(o.a + o["b"])] *)
Definition members : Stmt :=
  Program
    [VarDeclaration false "o"
       (Some (ObjectLiteral [("a", Some (number 1)); ("b", Some (number 2))]));
     printOf (BinaryExpr
                (MemberExpr (Identifier "o") (Identifier "a") false)
                (MemberExpr (Identifier "o") (StringLiteral "b") true) "+")].

(** [val c = 3  while (c > 0) { print(c)  c = c - 1 }] *)
Definition countdown : Stmt :=
  Program
    [VarDeclaration false "c" (Some (number 3));
     WhileStmt (LogicalExpr (Identifier "c") (number 0) ">")
       [printOf (Identifier "c");
        AssignmentExpr (Identifier "c")
          (BinaryExpr (Identifier "c") (number 1) "-")]].

(** [const k = 1  k = 2] *)
Definition constantAssigned : Stmt :=
  Program [VarDeclaration true "k" (Some (number 1));
           AssignmentExpr (Identifier "k") (number 2)].

(** The state in which [main] starts the evaluation: the heap holds the
    global frame, at index 0, with the built-ins declared. *)
Definition globalState : State :=
  match NewEnvironment None emptyState with
  | Ok _ st => st
  | _ => emptyState
  end.

(** [globalState] after [print("arg")]. *)
Definition afterArg : State :=
  mkState (envs globalState) [[StringVal "arg"]].

(** The lines written by a run, if it ended. *)
Definition written (o : Outcome RuntimeVal) : option (list (list RuntimeVal)) :=
  stdout <$> finalState o.

End Reading.

Export Reading.

(** ** The shape of parsed programs, and values free of return signals *)

Module Shape.

(** The nodes built by [parseExpr] and the parsing functions below it. *)
Fixpoint isExpr (node : Stmt) : bool :=
  match node with
  | NumericLiteral _ | StringLiteral _ | Identifier _ => true
  | ObjectLiteral props =>
      forallb (fun kv : string * option Stmt =>
                 let (_, value) := kv in
                 match value with
                 | Some v => isExpr v
                 | None => true
                 end) props
  | MemberExpr o p _ => isExpr o && isExpr p
  | BinaryExpr l r _ | LogicalExpr l r _ => isExpr l && isExpr r
  | UnaryExpr o _ => isExpr o
  | AssignmentExpr a v => isExpr a && isExpr v
  | CallExpr args caller => forallb isExpr args && isExpr caller
  | _ => false
  end.

(** The nodes built by [parseStmt]: declarations, [if], [while], [for] and
    [return] over expressions and statement lists, and expressions. *)
Fixpoint isStmt (node : Stmt) : bool :=
  match node with
  | VarDeclaration _ _ None | ReturnStmt None => true
  | VarDeclaration _ _ (Some e) | ReturnStmt (Some e) => isExpr e
  | FunctionDeclaration _ _ body => forallb isStmt body
  | IfStmt c body | WhileStmt c body | ForStmt c body =>
      isExpr c && forallb isStmt body
  | Program _ | Property _ _ => false
  | e => isExpr e
  end.

(** The statements whose value may be a return signal: [return] itself and
    the statements that hand on the value of a body. *)
Definition mayReturn (node : Stmt) : bool :=
  match node with
  | ReturnStmt _ | IfStmt _ _ | WhileStmt _ _ | ForStmt _ _ => true
  | _ => false
  end.

(** A value that is no ReturnSignal and holds none: not in a property of an
    object, and a UserFunction among it has a parsed body. *)
Fixpoint noSignal (v : RuntimeVal) : bool :=
  match v with
  | ReturnValue _ => false
  | ObjectVal props _ => map_fold (fun _ x acc => acc && noSignal x) true props
  | UserFunctionValue _ _ _ body => forallb isStmt body
  | _ => true
  end.

(** The value of a statement: free of signals, or one signal around a value
    that is. *)
Definition stmtResult (v : RuntimeVal) : bool :=
  match v with
  | ReturnValue x => noSignal x
  | _ => noSignal v
  end.

Definition resultOk (node : Stmt) (v : RuntimeVal) : Prop :=
  if mayReturn node then stmtResult v = true else noSignal v = true.

Definition cleanEnv (e : Environment) : Prop :=
  map_Forall (fun _ v => noSignal v = true) (variables e).

(** No variable of any frame holds a return signal. *)
Definition cleanState (st : State) : Prop := Forall cleanEnv (envs st).

End Shape.

Export Shape.

(** ** What evaluation keeps: predicates on interpreter states *)

Module Kept.

(** [m] keeps [I]: from a state in [I], every state [m] ends in, whether it
    returns, fails or panics, is in [I]. *)
Definition keeps (I : State -> Prop) {A} (m : M A) : Prop :=
  forall st st', I st -> finalState (m st) = Some st' -> I st'.

(** [m] leaves the state as it is, however it ends. *)
Definition unchanged {A} (m : M A) : Prop :=
  forall st st', finalState (m st) = Some st' -> st' = st.

(** In every frame the names marked constant are names of variables. *)
Definition constantsDeclared (st : State) : Prop :=
  Forall (fun e => forall x, x ∈ constants e -> is_Some (variables e !! x))
    (envs st).

(** The lines written in [st0] are still the first lines written in [st]. *)
Definition outputExtends (st0 st : State) : Prop :=
  stdout st0 `prefix_of` stdout st.

(** Every frame of [st0] is still there in [st], with its parent and its
    global flag; its variables are still declared, its constants are still
    constant and hold the value they held. *)
Definition framesExtend (st0 st : State) : Prop :=
  forall i e,
    envs st0 !! i = Some e ->
    exists e',
      envs st !! i = Some e' /\
      parent e' = parent e /\ global e' = global e /\
      dom (variables e) ⊆ dom (variables e') /\
      constants e ⊆ constants e' /\
      (forall x v, x ∈ constants e -> variables e !! x = Some v ->
                   variables e' !! x = Some v).

(** The state after [env.variables[x] = v] in the frame [e] at [env], the
    name joining the frame's constants when [constant] is set. *)
Definition withVar (env : EnvPtr) (e : Environment) (x : string)
    (v : RuntimeVal) (constant : bool) (st : State) : State :=
  mkState
    (<[env := mkEnvironment (global e) (parent e) (<[x := v]> (variables e))
                (if constant then {[ x ]} ∪ constants e else constants e)]>
       (envs st))
    (stdout st).

(** The state after a new frame under [p] is allocated, and the state after
    [print] has written the line of [args]. *)
Definition withFrame (p : EnvPtr) (st : State) : State :=
  mkState (envs st ++ [mkEnvironment false (Some p) ∅ ∅]) (stdout st).

Definition withLine (args : list RuntimeVal) (st : State) : State :=
  mkState (envs st) (stdout st ++ [args]).

(** The four ways in which the interpreter changes its state: a frame gets
    a name it did not have, a variable that is not constant in its frame
    gets a value, a frame that is not global is put at the end of the heap,
    a line is put at the end of the output. *)
Inductive changes : State -> State -> Prop :=
| changes_declare st env e x v c :
    envs st !! env = Some e -> variables e !! x = None ->
    changes st (withVar env e x v c st)
| changes_assign st env e x v :
    envs st !! env = Some e -> is_Some (variables e !! x) ->
    x ∉ constants e ->
    changes st (withVar env e x v false st)
| changes_frame st p : changes st (withFrame p st)
| changes_line st args : changes st (withLine args st).

(** The frame of the built-ins, and the state in which a function declared
    at top level runs: the global frame and a call frame under it. *)
Definition globalFrame : Environment :=
  default (mkEnvironment true None ∅ ∅) (envs globalState !! 0%nat).

Definition callState : State :=
  match NewEnvironment (Some 0%nat) globalState with
  | Ok _ st => st
  | _ => globalState
  end.

Definition callFrame : Environment := mkEnvironment false (Some 0%nat) ∅ ∅.

(** The state in which the run of [countdown] ends. *)
Definition afterCountdown : State :=
  default globalState
    (finalState (Evaluate noFormat 8 (Some countdown) 0%nat globalState)).

(** The names [setupGlobalScope] declares. *)
Definition builtins : list (string * RuntimeVal) :=
  [("nada", NadaVal); ("true", BoolVal true); ("false", BoolVal false);
   ("print", NativeFunctionValue printCall "print")].

End Kept.

Export Kept.

(** ** The frame of a call *)

Module Calls.

(** The state in which the body of a user function runs: the frame of the
    call, put at the end of the heap under the frame the function was
    declared in, holds the arguments under the parameter names (for a name
    listed twice, the argument of its first place). *)
Definition withCall (declarationEnv : EnvPtr) (Parameters : list string)
    (args : list RuntimeVal) (st : State) : State :=
  mkState
    (envs st ++ [mkEnvironment false (Some declarationEnv)
                   (list_to_map (zip Parameters args)) ∅])
    (stdout st).

End Calls.

Export Calls.

(** ** Expressions without effects *)

Module Pure.

(** The expressions with no call and no assignment in them: literals,
    identifiers, object literals, member access and the operators. *)
Fixpoint pureExpr (node : Stmt) : bool :=
  match node with
  | NumericLiteral _ | StringLiteral _ | Identifier _ => true
  | ObjectLiteral props =>
      forallb (fun kv : string * option Stmt =>
                 let (_, value) := kv in
                 match value with
                 | Some v => pureExpr v
                 | None => true
                 end) props
  | MemberExpr o p _ => pureExpr o && pureExpr p
  | BinaryExpr l r _ | LogicalExpr l r _ => pureExpr l && pureExpr r
  | UnaryExpr o _ => pureExpr o
  | _ => false
  end.

End Pure.

Export Pure.

(** ** Lexemes *)

Module Lexemes.

Import Lexer.

(** The text the scanners build from the runes they take, appending
    [string(r)] for each. *)
Definition text (rs : list rune) : string :=
  fold_left (fun lit r => lit ++ runeString r) rs EmptyString.

(** The position [n] columns after [p] on the same line. *)
Definition moved (p : Position) (n : nat) : Position :=
  mkPosition (line p) (column p + Z.of_nat n).

(** A scanner that takes the runes [takes] accepts stops before [rest]: at
    the end of the input, or at a rune it does not take. *)
Definition stops (takes : rune -> bool) (rest : list rune) : Prop :=
  match rest with
  | [] => True
  | r :: _ => takes r = false
  end.

(** ASCII stand-ins for the tables of the [unicode] package. *)
Definition asciiSpace (r : rune) : bool :=
  (r =? 32) || ((9 <=? r) && (r <=? 13)).

Definition asciiDigit (r : rune) : bool := (48 <=? r) && (r <=? 57).

Definition asciiLetter (r : rune) : bool :=
  ((65 <=? r) && (r <=? 90)) || ((97 <=? r) && (r <=? 122)).

End Lexemes.

Export Lexemes.

(** ** The parser *)

Module Parsing.

Import Lexer.

Record ParsingError : Type := mkParsingError {
  Message : string;
  Pos : Position
}.

(** The parser: the token list, the index of the current token and the
    current token.  [NewParser] starts the index at -1 and [advance] only
    increases it, so the index at which [advance] reads is never negative. *)
Record Parser : Type := mkParser {
  tokens : list TokenItem;
  tokenIndex : Z;
  currentToken : TokenItem
}.

(** How a parsing function ends: it returns a value, it returns an error,
    or the recursion and loop budget of the model runs out. *)
Inductive Parsed (A : Type) : Type :=
| Done (v : A) (p : Parser)                (* returned (v, nil) *)
| Failed (e : ParsingError) (p : Parser)   (* returned (_, err) *)
| Unfinished.                              (* the budget ran out *)

Arguments Done {A} v p.
Arguments Failed {A} e p.
Arguments Unfinished {A}.

(** Computations over the parser. *)
Definition P (A : Type) : Type := Parser -> Parsed A.

Definition pure {A} (v : A) : P A := fun p => Done v p.

Definition andThen {A B} (m : P A) (k : A -> P B) : P B :=
  fun p =>
    match m p with
    | Done v p' => k v p'
    | Failed e p' => Failed e p'
    | Unfinished => Unfinished
    end.

Notation "'let+' x ':=' m 'in' k" :=
  (andThen m (fun x => k))
  (at level 10, x name, m at level 100, k at level 200).

(** A call whose [error] result the caller drops. *)
Definition dropError {A} (m : P A) : P unit :=
  fun p =>
    match m p with
    | Done _ p' | Failed _ p' => Done tt p'
    | Unfinished => Unfinished
    end.

(** [&ParsingError{Message: message, Pos: p.currentToken.pos}] *)
Definition errorHere {A} (message : string) : P A :=
  fun p => Failed (mkParsingError message (tokenPos (currentToken p))) p.

Definition errorAt {A} (message : string) (at_ : Position) : P A :=
  fun p => Failed (mkParsingError message at_) p.

(** [TokenItem{}] *)
Definition zeroToken : TokenItem :=
  mkTokenItem (mkPosition 0 0) EOF EmptyString.

(** [t == u] on token kinds, which are integers. *)
Definition tokenIs (t u : Token) : bool := Token_code t =? Token_code u.

(** The text [s] between double quotes. *)
Definition quoted (s : string) : string :=
  String (byte quote) (s ++ String (byte quote) EmptyString).

(** The names of the token kinds. *)
Definition TokensList (t : Token) : string :=
  match t with
  | EOF => "EOF" | ILLEGAL => "ILLEGAL" | IDENT => "IDENT"
  | RETURN => "RETURN" | INT => "INT" | FLOAT => "FLOAT"
  | STRING => "STRING" | CHAR => "CHAR" | VAR => "VAR" | CONST => "CONST"
  | OPENCURLY => "OPENCURLY" | CLOSECURLY => "CLOSECURLY"
  | OPENPAREN => "OPENPAREN" | CLOSEPAREN => "CLOSEPAREN"
  | OPENBRACKET => "OPENBRACKET" | CLOSEBRACKET => "CLOSEBRACKET"
  | ADD => "ADD" | SUB => "SUB" | MUL => "MUL" | DIV => "DIV"
  | MOD => "MOD" | NOT => "NOT" | COLON => "COLON" | COMMA => "COMMA"
  | DOT => "DOT" | DE => "DE" | NE => "NE" | GT => "GT" | LT => "LT"
  | GTE => "GTE" | LTE => "LTE" | IF => "IF" | FOR => "FOR"
  | WHILE => "WHILE" | FUN => "FUN" | AND => "AND" | OR => "OR"
  | EQUALS => "EQUALS"
  end.

Definition advance (p : Parser) : Parser :=
  let tokenIndex := tokenIndex p + 1 in
  mkParser (tokens p) tokenIndex
    (if tokenIndex <? Z.of_nat (length (tokens p)) then
       default (currentToken p) (tokens p !! Z.to_nat tokenIndex)
     else currentToken p).

Definition NewParser (tokens : list TokenItem) : Parser :=
  advance (mkParser tokens (-1) zeroToken).

Definition eat : P TokenItem :=
  fun p => Done (currentToken p) (advance p).

Definition expect (expectedType : Token) (errMsg : string) : P TokenItem :=
  let+ token := eat in
  if negb (tokenIs (tokenType token) expectedType) then
    errorAt ("Parsing Error: " ++ errMsg) (tokenPos token)
  else pure token.

(** [p.currentToken.tokenType] *)
Definition currentType : P Token :=
  fun p => Done (tokenType (currentToken p)) p.

(** [node.NodeType() == IdentifierNode] *)
Definition isIdentifier (node : Stmt) : bool :=
  match node with
  | Identifier _ => true
  | _ => false
  end.

(** The parsing functions that are called from a function they call
    themselves; the model reaches them through [parse] below. *)
Inductive Rule : Type :=
| StmtRule          (* parseStmt *)
| ExprRule          (* parseExpr *)
| PrimaryRule       (* parsePrimary *)
| ObjectExprRule    (* parseObjectExpr *)
| AdditiveRule.     (* parseAdditive *)

Section Grammar.

(** [strconv.ParseFloat(s, 64)], of the Go library, with its error
    dropped as [TokenToFloat] drops it. *)
Variable ParseFloat : string -> float64.

Definition TokenToFloat (token : TokenItem) : float64 :=
  ParseFloat (value token).

Section Rules.

(** The calls that close a cycle of the grammar, and the number of turns
    a loop may still take. *)
Variable parse : Rule -> P Stmt.
Variable budget : nat.

(** *** Objects *)

(** The loop of [parseObjectExpr] over the properties. *)
Fixpoint parseProperties (budget : nat)
    (properties : list (string * option Stmt))
    : P (list (string * option Stmt)) :=
  let+ ty := currentType in
  if negb (tokenIs ty EOF) && negb (tokenIs ty CLOSECURLY) then
    match budget with
    | O => fun _ => Unfinished
    | S budget' =>
        let+ object := expect IDENT "Object missing identifier" in
        let key := value object in
        let+ ty := currentType in
        if tokenIs ty COMMA || tokenIs ty CLOSECURLY then
          let properties := (properties ++ [(key, None)])%list in
          let+ _ :=
            if tokenIs ty COMMA then
              let+ _ := eat in
              pure tt
            else pure tt in
          parseProperties budget' properties
        else
          let+ _ := expect COLON "Missing colon after identifier" in
          let+ ty := currentType in
          let+ val :=
            if tokenIs ty OPENCURLY then parse ObjectExprRule
            else parse ExprRule in
          let properties := (properties ++ [(key, Some val)])%list in
          let+ ty := currentType in
          let+ _ :=
            if negb (tokenIs ty CLOSECURLY) then
              let+ _ :=
                expect COMMA
                  "Expected comma or closing brace after property" in
              pure tt
            else pure tt in
          parseProperties budget' properties
    end
  else pure properties.

Definition parseObjectExpr : P Stmt :=
  let+ ty := currentType in
  if negb (tokenIs ty OPENCURLY) then parse AdditiveRule
  else
    let+ _ := eat in
    let+ properties := parseProperties budget [] in
    let+ _ := expect CLOSECURLY "Object literal missing closing brace" in
    pure (ObjectLiteral properties).

(** *** Primary expressions *)

Definition parsePrimary : P Stmt :=
  let+ tokenType := currentType in
  if tokenIs tokenType NOT then
    let+ _ := eat in
    let+ expr := parse PrimaryRule in
    pure (UnaryExpr expr "!")
  else if tokenIs tokenType IDENT then
    let+ token := eat in
    pure (Identifier (value token))
  else if tokenIs tokenType INT || tokenIs tokenType FLOAT then
    let+ token := eat in
    pure (NumericLiteral (TokenToFloat token))
  else if tokenIs tokenType STRING then
    let+ token := eat in
    pure (StringLiteral (value token))
  else if tokenIs tokenType OPENPAREN then
    let+ _ := eat in
    let+ val := parse ExprRule in
    let+ _ := expect CLOSEPAREN "Expected closing parenthesis" in
    pure val
  else if tokenIs tokenType OPENCURLY then parseObjectExpr
  else if tokenIs tokenType EOF || tokenIs tokenType CLOSEPAREN
          || tokenIs tokenType CLOSECURLY || tokenIs tokenType COMMA then
    errorHere "Expected an expression or value but found none"
  else if tokenIs tokenType ILLEGAL then
    fun p =>
      errorHere ("Illegal token passed " ++ quoted (value (currentToken p)))
        p
  else
    fun p =>
      errorHere
        ("Unrecognized Primary Token (Type: "
         ++ TokensList (Lexer.tokenType (currentToken p))
         ++ ", Value: " ++ value (currentToken p) ++ ")") p.

(** *** Member access and calls *)

(** The loop of [parseMemberExpr].  The result of
    [p.expect(CLOSEBRACKET, ...)] is not looked at. *)
Fixpoint memberLoop (budget : nat) (object : Stmt) : P Stmt :=
  let+ ty := currentType in
  if tokenIs ty DOT || tokenIs ty OPENBRACKET then
    match budget with
    | O => fun _ => Unfinished
    | S budget' =>
        let+ operator := eat in
        if tokenIs (tokenType operator) DOT then
          let+ property := parsePrimary in
          if negb (isIdentifier property) then
            errorHere
              "Cannot use dot operator without having an identifier after it"
          else memberLoop budget' (MemberExpr object property false)
        else
          let+ property := parse ExprRule in
          let+ _ :=
            dropError (expect CLOSEBRACKET ("Expected " ++ quoted "]")) in
          memberLoop budget' (MemberExpr object property true)
    end
  else pure object.

Definition parseMemberExpr : P Stmt :=
  let+ object := parsePrimary in
  memberLoop budget object.

(** The [for { ... }] of [parseArguments]. *)
Fixpoint argumentLoop (budget : nat) (args : list Stmt) : P (list Stmt) :=
  match budget with
  | O => fun _ => Unfinished
  | S budget' =>
      let+ arg := parse ExprRule in
      let args := (args ++ [arg])%list in
      let+ ty := currentType in
      if negb (tokenIs ty COMMA) then pure args
      else
        let+ _ := eat in
        argumentLoop budget' args
  end.

Definition parseArguments : P (list Stmt) :=
  let+ _ := expect OPENPAREN ("Expected " ++ quoted "(") in
  let+ ty := currentType in
  if tokenIs ty CLOSEPAREN then
    let+ _ := eat in
    pure []
  else
    let+ args := argumentLoop budget [] in
    let+ _ := expect CLOSEPAREN ("Expected " ++ quoted ")") in
    pure args.

(** [parseCallExpr] calls itself for each further argument list. *)
Fixpoint parseCallExpr (budget : nat) (caller : Stmt) : P Stmt :=
  let+ arguments := parseArguments in
  let callExpr := CallExpr arguments caller in
  let+ ty := currentType in
  if tokenIs ty OPENPAREN then
    match budget with
    | O => fun _ => Unfinished
    | S budget' => parseCallExpr budget' callExpr
    end
  else pure callExpr.

Definition parseCallMemberExpr : P Stmt :=
  let+ member := parseMemberExpr in
  let+ ty := currentType in
  if tokenIs ty OPENPAREN then parseCallExpr budget member
  else pure member.

(** *** Operators *)

(** The loop shared in shape by [parseMulti], [parseAdditive],
    [parseRelationalExpr], [parseEqualityExpr] and [parseLogicalExpr]:
    while the current token is one of [operators], eat it, parse the right
    operand and put the node over what has been parsed. *)
Fixpoint operatorLoop (budget : nat) (operators : list Token)
    (operand : P Stmt) (node : Stmt -> Stmt -> string -> Stmt)
    (left : Stmt) : P Stmt :=
  let+ ty := currentType in
  if existsb (tokenIs ty) operators then
    match budget with
    | O => fun _ => Unfinished
    | S budget' =>
        let+ operator := eat in
        let+ right := operand in
        operatorLoop budget' operators operand node
          (node left right (value operator))
    end
  else pure left.

Definition parseMulti : P Stmt :=
  let+ left := parseCallMemberExpr in
  operatorLoop budget [MUL; DIV; MOD] parseCallMemberExpr BinaryExpr left.

Definition parseAdditive : P Stmt :=
  let+ left := parseMulti in
  operatorLoop budget [ADD; SUB] parseMulti BinaryExpr left.

Definition parseRelationalExpr : P Stmt :=
  let+ left := parseAdditive in
  operatorLoop budget [LT; GT; LTE; GTE] parseAdditive LogicalExpr left.

Definition parseEqualityExpr : P Stmt :=
  let+ left := parseRelationalExpr in
  operatorLoop budget [DE; NE] parseRelationalExpr LogicalExpr left.

Definition parseLogicalExpr : P Stmt :=
  let+ left := parseEqualityExpr in
  operatorLoop budget [AND; OR] parseEqualityExpr LogicalExpr left.

(** The call of [parseAssignmentExpr] to itself is a call of the body of
    [parseExpr]. *)
Definition parseAssignmentExpr : P Stmt :=
  let+ expr := parseLogicalExpr in
  let+ ty := currentType in
  if tokenIs ty EQUALS then
    let+ _ := eat in
    let+ val := parse ExprRule in
    pure (AssignmentExpr expr val)
  else pure expr.

Definition parseExpr : P Stmt := parseAssignmentExpr.

(** *** Statements *)

Definition parseVarDeclaration : P Stmt :=
  let+ ty := currentType in
  let isConstant := tokenIs ty CONST in
  let+ _ := eat in
  let+ identifier :=
    expect IDENT "Expected identifier name after var | const keyword" in
  let+ ty := currentType in
  if negb (tokenIs ty EQUALS) then
    if isConstant then errorHere "Uninitialized constant"
    else pure (VarDeclaration isConstant (value identifier) None)
  else
    let+ _ := eat in
    let+ val := parseExpr in
    pure (VarDeclaration isConstant (value identifier) (Some val)).

(** The loop over the statements of a body, shared by
    [parseFunctionDeclaration], [parseIfStmt], [parseWhileStmt] and
    [parseForStmt]. *)
Fixpoint parseBody (budget : nat) (body : list Stmt) : P (list Stmt) :=
  let+ ty := currentType in
  if negb (tokenIs ty EOF) && negb (tokenIs ty CLOSECURLY) then
    match budget with
    | O => fun _ => Unfinished
    | S budget' =>
        let+ statement := parse StmtRule in
        parseBody budget' (body ++ [statement])%list
    end
  else pure body.

(** The loop of [parseFunctionDeclaration] over the parsed arguments. *)
Fixpoint parameters (name : TokenItem) (args : list Stmt)
    (params : list string) : P (list string) :=
  match args with
  | [] => pure params
  | arg :: rest =>
      match arg with
      | Identifier Symbol => parameters name rest (params ++ [Symbol])%list
      | _ =>
          errorAt "Expected parameter inside function declaration"
            (tokenPos name)
      end
  end.

Definition parseFunctionDeclaration : P Stmt :=
  let+ _ := eat in
  let+ name :=
    expect IDENT ("Expected function name after keyword " ++ quoted "fun") in
  let+ args := parseArguments in
  let+ params := parameters name args [] in
  let+ _ := expect OPENCURLY ("Expected " ++ quoted "{") in
  let+ body := parseBody budget [] in
  let+ _ := expect CLOSECURLY ("Expected " ++ quoted "}") in
  pure (FunctionDeclaration (value name) params body).

Definition parseIfStmt : P Stmt :=
  let+ _ := expect IF "Expected 'if' keyword" in
  let+ _ := expect OPENPAREN "Expected '(' after 'if'" in
  let+ condition := parseExpr in
  let+ _ := expect CLOSEPAREN "Expected ')' after if condition" in
  let+ _ := expect OPENCURLY "Expected '{' to begin if statement body" in
  let+ body := parseBody budget [] in
  let+ _ := expect CLOSECURLY "Expected '}' to close if statement body" in
  pure (IfStmt condition body).

Definition parseWhileStmt : P Stmt :=
  let+ _ := expect WHILE "Expected 'while' keyword" in
  let+ _ := expect OPENPAREN "Expected '(' after 'while'" in
  let+ condition := parseExpr in
  let+ _ := expect CLOSEPAREN "Expected ')' after while condition" in
  let+ _ := expect OPENCURLY "Expected '{' to begin while loop body" in
  let+ body := parseBody budget [] in
  let+ _ := expect CLOSECURLY "Expected '}' to close while loop body" in
  pure (WhileStmt condition body).

Definition parseForStmt : P Stmt :=
  let+ _ := expect FOR "Expected 'for' keyword" in
  let+ _ := expect OPENPAREN "Expected '(' after 'for'" in
  let+ condition := parseExpr in
  let+ _ := expect CLOSEPAREN "Expected ')' after for condition" in
  let+ _ := expect OPENCURLY "Expected '{' to begin for loop body" in
  let+ body := parseBody budget [] in
  let+ _ := expect CLOSECURLY "Expected '}' to close while loop body" in
  pure (ForStmt condition body).

Definition parseReturnStmt : P Stmt :=
  let+ _ := expect RETURN "Expected 'return' keyword" in
  let+ ty := currentType in
  if tokenIs ty CLOSECURLY || tokenIs ty EOF then pure (ReturnStmt None)
  else
    let+ expr := parseExpr in
    pure (ReturnStmt (Some expr)).

Definition parseStmt : P Stmt :=
  let+ ty := currentType in
  if tokenIs ty VAR || tokenIs ty CONST then parseVarDeclaration
  else if tokenIs ty FUN then parseFunctionDeclaration
  else if tokenIs ty IF then parseIfStmt
  else if tokenIs ty WHILE then parseWhileStmt
  else if tokenIs ty FOR then parseForStmt
  else if tokenIs ty RETURN then parseReturnStmt
  else parseExpr.

Definition parseRule (rule : Rule) : P Stmt :=
  match rule with
  | StmtRule => parseStmt
  | ExprRule => parseExpr
  | PrimaryRule => parsePrimary
  | ObjectExprRule => parseObjectExpr
  | AdditiveRule => parseAdditive
  end.

End Rules.

(** The parsing functions, by recursion on the depth to which the grammar
    may still be entered. *)
Fixpoint parse (fuel : nat) (rule : Rule) : P Stmt :=
  match fuel with
  | O => fun _ => Unfinished
  | S fuel' => parseRule (parse fuel') fuel' rule
  end.

(** The [for { ... }] of [ProduceAst]. *)
Fixpoint produceLoop (fuel budget : nat) (Body : list Stmt) : P Stmt :=
  match budget with
  | O => fun _ => Unfinished
  | S budget' =>
      let+ stmt := parse fuel StmtRule in
      let Body := (Body ++ [stmt])%list in
      let+ ty := currentType in
      if tokenIs ty EOF then pure (Program Body)
      else produceLoop fuel budget' Body
  end.

Definition ProduceAst (fuel : nat) : P Stmt := produceLoop fuel fuel [].

End Grammar.

(** A stand-in for strconv.ParseFloat where a concrete run needs one: the
    value of a text of ASCII digits, and zero for any other text. *)
Definition digitsValue (s : string) : float64 :=
  let digit (c : ascii) : Z := Z.of_N (N_of_ascii c) - 48 in
  let fix go (s : string) (acc : option Z) : option Z :=
    match s, acc with
    | EmptyString, _ => acc
    | String c s', Some n =>
        if (0 <=? digit c) && (digit c <=? 9) then
          go s' (Some (10 * n + digit c))
        else None
    | String _ _, None => None
    end in
  match s, go s (Some 0) with
  | String _ _, Some n => of_Z n
  | _, _ => zero
  end.

(** What [main] does with a source text up to the AST: [Lex], then
    [NewParser] and [ProduceAst]. *)
Definition parseSource (IsSpace IsDigit IsLetter : rune -> bool)
    (ParseFloat : string -> float64) (fuel : nat) (source : list rune)
    : option (Parsed Stmt) :=
  match Lex IsSpace IsDigit IsLetter (NewLexer source) with
  | Some tokenList => Some (ProduceAst ParseFloat fuel (NewParser tokenList))
  | None => None
  end.

End Parsing.

(** ** What parsing yields *)

Module Yield.

Import Lexer.
Import Parsing.

(** Every value [m] returns satisfies [Q]. *)
Definition yields {A} (Q : A -> Prop) (m : P A) : Prop :=
  forall p v p', m p = Done v p' -> Q v.

(** The properties of an object literal hold expressions. *)
Definition propertiesOk (properties : list (string * option Stmt)) : Prop :=
  forallb (fun kv : string * option Stmt =>
             let (_, value) := kv in
             match value with
             | Some v => isExpr v
             | None => true
             end) properties = true.

(** What a rule of the grammar returns: [parseStmt] a statement, the other
    rules an expression. *)
Definition ruleOk (rule : Rule) (node : Stmt) : Prop :=
  match rule with
  | StmtRule => isStmt node = true
  | _ => isExpr node = true
  end.

(** The tokens still before the parser, the last one apart. *)
Definition remaining (p : Parser) : nat :=
  Z.to_nat (Z.of_nat (length (tokens p)) - 1 - tokenIndex p).

(** A parser as [NewParser] and [advance] leave it, over a token list that
    ends with the EOF token: the current token is the one at the index, or
    the last one once the index has passed the end. *)
Definition ready (p : Parser) : Prop :=
  0 <= tokenIndex p /\
  tokens p !! Z.to_nat (Z.min (tokenIndex p)
                          (Z.of_nat (length (tokens p)) - 1)) =
    Some (currentToken p) /\
  tokenType <$> last (tokens p) = Some EOF.

(** A parsing function has ended, and if it has returned, it has left the
    parser ready with fewer than [n] tokens before it. *)
Definition below (n : nat) {A} (o : Parsed A) : Prop :=
  match o with
  | Done _ p' => ready p' /\ (remaining p' < n)%nat
  | Failed _ _ => True
  | Unfinished => False
  end.

(** [parseObjectExpr] may hand on to [parseAdditive] where it stands. *)
Definition rank (rule : Rule) : nat :=
  match rule with
  | ObjectExprRule => 1
  | _ => 0
  end.

End Yield.

(** ** Blank source texts *)

Module Blank.

Import Lexer.

(** The runes for which the loop of [Lex] has a case of their own, the
    line break apart. *)
Definition signs : list rune :=
  map char ["+"; "-"; "*"; "/"; "%"; "="; "("; ")"; "{"; "}"; "["; "]";
            "!"; ":"; ","; "."; "&"; "|"; "<"; ">"]%char.

(** A rune that [Lex] passes over: a line break, or white space that is
    none of the signs. *)
Definition blank (IsSpace : rune -> bool) (r : rune) : bool :=
  (r =? 10) || (IsSpace r && negb (existsb (Z.eqb r) signs)).

End Blank.

Export Blank.

(** ** Tokens that carry an expression on *)

Module Carry.

Import Lexer.

(** The kinds of token at which a parsed expression is carried on: member
    access, a call, the operators and the assignment sign. *)
Definition carriesOn : list Token :=
  [DOT; OPENBRACKET; OPENPAREN; MUL; DIV; MOD; ADD; SUB;
   LT; GT; LTE; GTE; DE; NE; AND; OR; EQUALS].

End Carry.

Export Carry.

(** ** Operator aliases *)

Module Aliases.

(** The spellings of the logical operators, beside [and] and [or], for
    which [Lex] gives an AND or an OR token. *)
Definition aliases : list string := ["&&"; "plus"; "perhaps"].

End Aliases.

Export Aliases.

(** ** Scope chains *)

Module Scopes.

(** From the frame [env], [n] steps up the parent pointers, each from a
    frame that does not declare [x], lead to the frame [top]. *)
Inductive climbs (st : State) (x : string) : nat -> EnvPtr -> EnvPtr -> Prop :=
| climbs_here env : climbs st x O env env
| climbs_up n env e p top :
    envs st !! env = Some e -> variables e !! x = None ->
    parent e = Some p -> climbs st x n p top ->
    climbs st x (S n) env top.

(** [target] is the nearest frame that declares [x] on the scope chain of
    [env]: the frames from [env] up to it do not declare [x], and it does. *)
Definition nearest (st : State) (x : string) (env target : EnvPtr) : Prop :=
  exists n e,
    climbs st x n env target /\ envs st !! target = Some e /\
    is_Some (variables e !! x).

(** No frame on the scope chain of [env] declares [x]: the frames from [env]
    up to the root, the frame without a parent, do not declare it. *)
Definition undeclared (st : State) (x : string) (env : EnvPtr) : Prop :=
  exists n root e,
    climbs st x n env root /\ envs st !! root = Some e /\
    variables e !! x = None /\ parent e = None.

(** Where the climb of [resolve] stops: at a frame that declares [x], or at
    the root. *)
Definition climbEnds (st : State) (x : string) (top : EnvPtr) : Prop :=
  exists e, envs st !! top = Some e /\
            (is_Some (variables e !! x) \/ parent e = None).

(** [callState] once the global frame has the variable [c]: the state in
    which a function called at top level runs after [val c = 3]. *)
Definition scopedState : State :=
  match DeclareVar 0%nat "c" (NumberVal (of_Z 3)) false callState with
  | Ok _ st => st
  | _ => callState
  end.

(** Its global frame. *)
Definition scopedFrame : Environment :=
  default globalFrame (envs scopedState !! 0%nat).

End Scopes.

Export Scopes.

(** ** Sample token lists *)

Module Strays.

Import Lexer.
Import Parsing.

(** The tokens of [a[1)], and the parser over them once [a] is read. *)
Definition strayTokens : list TokenItem :=
  [mkTokenItem (mkPosition 1 1) IDENT "a";
   mkTokenItem (mkPosition 1 2) OPENBRACKET "[";
   mkTokenItem (mkPosition 1 3) INT "1";
   mkTokenItem (mkPosition 1 4) CLOSEPAREN ")";
   mkTokenItem (mkPosition 1 5) EOF EmptyString].

Definition atBracket : Parser := advance (NewParser strayTokens).

(** The parser over the same tokens with [)] the current token. *)
Definition atStray : Parser := advance (advance atBracket).

(** The tokens of [a && b], and the parser over them once [a] is read. *)
Definition aliasTokens : list TokenItem :=
  [mkTokenItem (mkPosition 1 1) IDENT "a";
   mkTokenItem (mkPosition 1 3) AND "&&";
   mkTokenItem (mkPosition 1 6) IDENT "b";
   mkTokenItem (mkPosition 1 7) EOF EmptyString].

Definition atOperator : Parser := advance (NewParser aliasTokens).

End Strays.

Export Strays.

(** * Properties *)

(** ** Values and deep equality *)

Section FoldFacts.

Context {A : Type}.

(** A conjunction folded over a map holds exactly when every entry passes. *)
Lemma map_fold_andb_true (g : string -> A -> bool) (m : gmap string A) :
  map_fold (fun k x acc => acc && g k x) true m = true <->
  map_Forall (fun k x => g k x = true) m.
Proof.
  induction m as [|i x m Hi Hfirst IH] using map_first_key_ind.
  - rewrite map_fold_empty. split; [intros _; apply map_Forall_empty | done].
  - rewrite map_fold_insert_first_key by done.
    rewrite andb_true_iff, IH, map_Forall_insert by done. tauto.
Qed.

(** A sum folded over a map is at least each of its summands. *)
Lemma map_fold_sum_lookup (w : A -> nat) (m : gmap string A) k x :
  m !! k = Some x ->
  (w x <= map_fold (fun _ y acc => (w y + acc)%nat) O m)%nat.
Proof.
  induction m as [|i y m Hi Hfirst IH] using map_first_key_ind.
  - rewrite lookup_empty. discriminate.
  - rewrite map_fold_insert_first_key by done.
    destruct (decide (i = k)) as [->|Hne].
    + rewrite lookup_insert_eq. intros [= ->]. lia.
    + rewrite lookup_insert_ne by done. intros Hk. specialize (IH Hk). lia.
Qed.

End FoldFacts.

Lemma val_size_property props name k v :
  props !! k = Some v -> (val_size v < val_size (ObjectVal props name))%nat.
Proof.
  intros Hk. cbn [val_size].
  pose proof (map_fold_sum_lookup val_size props k v Hk). lia.
Qed.

(** Induction on runtime values that reaches the properties of objects. *)
Lemma RuntimeVal_deep_ind (P : RuntimeVal -> Prop) :
  (forall v,
      (forall props name k x,
          v = ObjectVal props name -> props !! k = Some x -> P x) ->
      (forall x, v = ReturnValue x -> P x) ->
      P v) ->
  forall v, P v.
Proof.
  intros step v.
  remember (val_size v) as n eqn:Hn.
  revert v Hn. induction n as [n IH] using lt_wf_ind. intros v ->.
  apply step.
  - intros props name k x -> Hk. eapply IH; [|reflexivity].
    by eapply val_size_property.
  - intros x ->. eapply IH; [|reflexivity]. cbn. lia.
Qed.

Lemma deepEqual_objects a an b bn :
  deepEqual (ObjectVal a an) (ObjectVal b bn) = objectsEqual a b.
Proof. reflexivity. Qed.

Lemma comparable_object props name :
  comparable (ObjectVal props name) = true <->
  map_Forall (fun _ x => comparable x = true) props.
Proof.
  cbn [comparable]. apply (map_fold_andb_true (fun _ x => comparable x)).
Qed.

Lemma float64_eqb_refl (x : float64) :
  is_nan x = false -> Float64.eqb x x = true.
Proof.
  unfold Float64.eqb, SFeqb, SFcompare.
  destruct x as [s|s| |s m e]; cbn; try done.
  - intros _. by destruct s.
  - intros _. rewrite Z.compare_refl.
    change (PosDef.Pos.compare_cont Eq m m) with (Pos.compare m m).
    rewrite Pos.compare_refl. by destruct s.
Qed.

Lemma objectsEqual_refl (props : gmap string RuntimeVal) :
  map_Forall (fun _ x => deepEqual x x = true) props ->
  objectsEqual props props = true.
Proof.
  intros Hall. unfold objectsEqual. rewrite Nat.eqb_refl. cbn [negb].
  apply (map_fold_andb_true
           (fun key valA => match props !! key with
                            | Some valB => deepEqual valA valB
                            | None => false
                            end)).
  intros k x Hk. rewrite Hk. by apply (Hall k).
Qed.

(** C1 (as the code has it): [deepEqual v v] holds for the absent value,
    Nada, every Bool, every Number other than NaN, and every Object whose
    property values are, recursively, of these kinds; for a NativeFunction
    and for a UserFunction it is false, since [deepEqual] has no case that
    compares them. *)
Theorem deepEqual_refl_comparable :
  (forall v, comparable v = true -> deepEqual v v = true) /\
  (forall call name, deepEqual (NativeFunctionValue call name)
                       (NativeFunctionValue call name) = false) /\
  (forall name params declEnv body,
      deepEqual (UserFunctionValue name params declEnv body)
        (UserFunctionValue name params declEnv body) = false).
Proof.
  split; [|split; reflexivity].
  induction v as [v IHprops _] using RuntimeVal_deep_ind.
  destruct v as [|x|s| |b|props name|call name|name ps env body|x];
    cbn [comparable]; try done.
  - intros Hx. cbn. apply float64_eqb_refl. by destruct (is_nan x).
  - intros _. cbn. by destruct b.
  - intros Hc. rewrite deepEqual_objects. apply objectsEqual_refl.
    intros k x Hk. eapply IHprops; [reflexivity|exact Hk|].
    exact (proj1 (comparable_object props name) Hc k x Hk).
Qed.

Lemma deepEqual_refl_comparable_witness :
  comparable (ObjectVal {[ "a" := NumberVal one; "b" := BoolVal true ]} "o")
    = true /\
  deepEqual (ObjectVal {[ "a" := NumberVal one; "b" := BoolVal true ]} "o")
    (ObjectVal {[ "a" := NumberVal one; "b" := BoolVal true ]} "o") = true.
Proof.
  split; [vm_compute; reflexivity|].
  apply (proj1 deepEqual_refl_comparable). vm_compute. reflexivity.
Defined.

(** C1 as stated fails: the built-in [print], a NativeFunction value, is not
    [deepEqual] to itself. *)
Lemma deepEqual_not_reflexive :
  ~ (forall v, deepEqual v v = true).
Proof.
  intros H. specialize (H (NativeFunctionValue printCall "print")).
  discriminate H.
Qed.

(** ** The evaluator *)

Section EvaluatorFacts.

Variable FormatFloat : float64 -> string.

Lemma Evaluate_S fuel node env :
  Evaluate FormatFloat (S fuel) node env =
  EvaluateNode FormatFloat (Evaluate FormatFloat fuel) fuel node env.
Proof. reflexivity. Qed.

Lemma bind_Ok {A B} (m : M A) (k : A -> M B) st v st' :
  m st = Ok v st' -> bind m k st = k v st'.
Proof. unfold bind. by intros ->. Qed.

Lemma bind_Ok_inv {A B} (m : M A) (k : A -> M B) st w st' :
  bind m k st = Ok w st' ->
  exists v st1, m st = Ok v st1 /\ k v st1 = Ok w st'.
Proof. unfold bind. destruct (m st) as [v st1| | |]; try done. eauto. Qed.

Section Generic.

Variable Ev : option Stmt -> EnvPtr -> M RuntimeVal.

(** The statement loop on a list with a last element: the statements before
    it, then the last one, whose value is the loop's. *)
Lemma evalStatements_snoc body s env last st :
  evalStatements Ev (body ++ [s]) env last st =
  (let* _ := evalStatements Ev body env last in Ev (Some s) env) st.
Proof.
  revert last st. induction body as [|x body IH]; intros last st; cbn.
  - unfold bind. by destruct (Ev (Some s) env st).
  - unfold bind. destruct (Ev (Some x) env st); [apply IH|done..].
Qed.

Lemma foldl_bind (stmts : list Stmt) env (m : M RuntimeVal) st :
  foldl (fun m s => let* _ := m in Ev (Some s) env) m stmts st =
  (let* v := m in inOrder Ev stmts env v) st.
Proof.
  revert m st. induction stmts as [|s stmts IH]; intros m st.
  - unfold inOrder, bind, ret. cbn [foldl]. destruct (m st); reflexivity.
  - cbn [foldl]. rewrite IH. unfold bind.
    destruct (m st) as [v st1| | |]; [|reflexivity..].
    unfold inOrder at 2. cbn [foldl]. rewrite IH. reflexivity.
Qed.

Lemma inOrder_cons s stmts env last st :
  inOrder Ev (s :: stmts) env last st =
  (let* v := Ev (Some s) env in inOrder Ev stmts env v) st.
Proof.
  unfold inOrder at 1. cbn [foldl]. rewrite foldl_bind.
  unfold bind, ret. reflexivity.
Qed.

Lemma inOrder_app a b env last st :
  inOrder Ev (a ++ b) env last st =
  (let* v := inOrder Ev a env last in inOrder Ev b env v) st.
Proof.
  revert last st. induction a as [|s a IH]; intros last st.
  - reflexivity.
  - cbn [app]. unfold bind. rewrite !inOrder_cons. unfold bind.
    destruct (Ev (Some s) env st) as [v st1| | |]; [|reflexivity..].
    rewrite IH. reflexivity.
Qed.

(** The statement loop of the evaluator evaluates the statements in
    order. *)
Lemma evalStatements_inOrder body env last st :
  evalStatements Ev body env last st = inOrder Ev body env last st.
Proof.
  revert last st. induction body as [|s body IH]; intros last st.
  - reflexivity.
  - rewrite inOrder_cons. cbn [evalStatements]. unfold bind.
    destruct (Ev (Some s) env st) as [v st1| | |]; [|reflexivity..].
    apply IH.
Qed.

Lemma repeatStatements_S k body env last st :
  repeatStatements Ev (S k) body env last st =
  (let* v := inOrder Ev body env last in repeatStatements Ev k body env v) st.
Proof. unfold repeatStatements. cbn [replicate mjoin]. apply inOrder_app. Qed.

Lemma forLoop_repeat steps i n body env last st :
  (Z.to_nat (n - i) <= steps)%nat ->
  forLoop Ev steps i n body env last st =
  repeatStatements Ev (Z.to_nat (n - i)) body env last st.
Proof.
  revert i last st. induction steps as [|steps IH]; intros i last st Hle;
    cbn [forLoop].
  - destruct (Z.ltb_spec i n) as [Hlt|Hge]; [lia|].
    replace (Z.to_nat (n - i)) with O by lia. reflexivity.
  - destruct (Z.ltb_spec i n) as [Hlt|Hge].
    + replace (Z.to_nat (n - i)) with (S (Z.to_nat (n - (i + 1)))) by lia.
      rewrite repeatStatements_S. unfold bind.
      rewrite evalStatements_inOrder.
      destruct (inOrder Ev body env last st); [|reflexivity..].
      apply IH. lia.
    + replace (Z.to_nat (n - i)) with O by lia. reflexivity.
Qed.

End Generic.

End EvaluatorFacts.

(** One step of [Evaluate]: the dispatch on the node at hand. *)
Ltac step_Evaluate := rewrite Evaluate_S; cbn [EvaluateNode].

Tactic Notation "step_Evaluate" "in" hyp(H) :=
  rewrite Evaluate_S in H; cbn [EvaluateNode] in H.

(** The operator of a numeric expression, decided by computation. *)
Ltac decide_operator := cbn [opIs String.eqb Ascii.eqb Bool.eqb].

(** *** The end-to-end scenarios of the specification *)

Example arithmetic_prints_7 :
  written (run noFormat 6 arithmetic) = Some [[NumberVal (of_Z 7)]].
Proof. vm_compute. reflexivity. Qed.

Example factorial_prints_120 :
  written (run noFormat 30 factorial) = Some [[NumberVal (of_Z 120)]].
Proof. vm_compute. reflexivity. Qed.

Example members_prints_3 :
  written (run noFormat 6 members) = Some [[NumberVal (of_Z 3)]].
Proof. vm_compute. reflexivity. Qed.

Example countdown_prints_3_2_1 :
  written (run noFormat 8 countdown) =
  Some [[NumberVal (of_Z 3)]; [NumberVal (of_Z 2)]; [NumberVal (of_Z 1)]].
Proof. vm_compute. reflexivity. Qed.

Example constantAssigned_fails :
  match run noFormat 4 constantAssigned with
  | Err e _ => e = AssignToConstant "k"
  | _ => False
  end.
Proof. vm_compute. reflexivity. Qed.

Example threeTimes_prints_3_lines :
  written (run noFormat 6 threeTimes) =
  Some [[StringVal "x"]; [StringVal "x"]; [StringVal "x"]].
Proof. vm_compute. reflexivity. Qed.

(** ** Return signals stay inside calls *)

Lemma ret_Ok {A} (v w : A) st st' :
  ret v st = Ok w st' -> w = v /\ st' = st.
Proof. unfold ret. by intros [= -> ->]. Qed.

Lemma deref_Ok env st e st' :
  deref env st = Ok e st' -> st' = st /\ envs st !! env = Some e.
Proof.
  unfold deref. destruct (envs st !! env); [|done]. by intros [= -> ->].
Qed.

Lemma cleanState_lookup st env e :
  cleanState st -> envs st !! env = Some e -> cleanEnv e.
Proof. intros Hst He. exact (Forall_lookup_1 _ _ _ _ Hst He). Qed.

Lemma store_clean env e st u st' :
  cleanState st -> cleanEnv e -> store env e st = Ok u st' -> cleanState st'.
Proof.
  intros Hst He [= _ <-]. unfold cleanState. cbn. by apply Forall_insert.
Qed.

Lemma setVar_clean env name v st u st' :
  cleanState st -> noSignal v = true ->
  setVar env name v st = Ok u st' -> cleanState st'.
Proof.
  intros Hst Hv Hset. unfold setVar in Hset.
  apply bind_Ok_inv in Hset as (e & st1 & [-> He]%deref_Ok & Hstore).
  eapply store_clean; [done| |done].
  unfold cleanEnv. cbn. apply map_Forall_insert_2; [done|].
  by eapply cleanState_lookup.
Qed.

Lemma DeclareVar_Ok env varName v constant st w st' :
  cleanState st -> noSignal v = true ->
  DeclareVar env varName v constant st = Ok w st' ->
  cleanState st' /\ w = v.
Proof.
  intros Hst Hv Hdecl. unfold DeclareVar in Hdecl.
  apply bind_Ok_inv in Hdecl as (e & st1 & [-> He]%deref_Ok & Hdecl).
  destruct (variables e !! varName); [done|].
  apply bind_Ok_inv in Hdecl as (u & st1 & Hset & Hdecl).
  apply (setVar_clean _ _ _ _ _ _ Hst Hv) in Hset.
  apply bind_Ok_inv in Hdecl as (u' & st2 & Hconst & [-> ->]%ret_Ok).
  split; [|done]. destruct constant.
  - apply bind_Ok_inv in Hconst as (e' & st3 & [-> He']%deref_Ok & Hstore).
    eapply store_clean; [done| |done].
    change (cleanEnv e'). by eapply cleanState_lookup.
  - by apply ret_Ok in Hconst as [_ ->].
Qed.

Lemma bind_Err_inv {A B} (m : M A) (k : A -> M B) st e st' :
  bind m k st = Err e st' ->
  m st = Err e st' \/ exists v st1, m st = Ok v st1 /\ k v st1 = Err e st'.
Proof.
  unfold bind. destruct (m st) as [v st1| | |]; intros H;
    [right; by eexists _, _|injection H as -> ->; by left|done..].
Qed.

Lemma deref_Err env st e st' : deref env st = Err e st' -> False.
Proof. unfold deref. by destruct (envs st !! env). Qed.

Lemma setVar_Err env name v st e st' :
  setVar env name v st = Err e st' -> False.
Proof.
  unfold setVar. intros [H|(fr & st1 & _ & H)]%bind_Err_inv; [|done].
  by apply deref_Err in H.
Qed.

(** A declaration that fails leaves the state as it was. *)
Lemma DeclareVar_Err env varName v constant st e st' :
  DeclareVar env varName v constant st = Err e st' -> st' = st.
Proof.
  unfold DeclareVar.
  intros [H|(fr & st1 & [-> _]%deref_Ok & H)]%bind_Err_inv;
    [by apply deref_Err in H|].
  destruct (variables fr !! varName); [by injection H as _ <-|].
  apply bind_Err_inv in H as [H|(u & st1 & _ & H)];
    [by apply setVar_Err in H|].
  apply bind_Err_inv in H as [H|(u' & st2 & _ & H)]; [|done].
  destruct constant; [|done].
  apply bind_Err_inv in H as [H|(fr' & st2 & _ & H)]; [|done].
  by apply deref_Err in H.
Qed.

Lemma declare_ignoring_clean env varName v constant st u st' :
  cleanState st -> noSignal v = true ->
  ignoreError (DeclareVar env varName v constant) st = Ok u st' ->
  cleanState st'.
Proof.
  intros Hst Hv. unfold ignoreError.
  destruct (DeclareVar env varName v constant st) as [w st1|e st1|p st1|]
    eqn:Hdecl; try done; intros [= _ <-].
  - by destruct (DeclareVar_Ok _ _ _ _ _ _ _ Hst Hv Hdecl).
  - by rewrite (DeclareVar_Err _ _ _ _ _ _ _ Hdecl).
Qed.

Lemma resolveFrom_Ok bound env varName st p st' :
  resolveFrom bound env varName st = Ok p st' -> st' = st.
Proof.
  revert env. induction bound as [|bound IH]; intros env; cbn;
    unfold bind, deref; destruct (envs st !! env) as [e|]; try done;
    destruct (variables e !! varName); try (by intros [= _ <-]);
    destruct (parent e); try done.
  apply IH.
Qed.

Lemma LookupVar_clean env varName st v st' :
  cleanState st -> LookupVar env varName st = Ok v st' ->
  st' = st /\ noSignal v = true.
Proof.
  intros Hst Hlook. unfold LookupVar in Hlook.
  apply bind_Ok_inv in Hlook as (p & st1 & Hres & Hlook).
  unfold resolve in Hres. apply resolveFrom_Ok in Hres as ->.
  apply bind_Ok_inv in Hlook as (e & st1 & [-> He]%deref_Ok & [-> ->]%ret_Ok).
  split; [done|]. destruct (variables e !! varName) as [x|] eqn:Hx; [|done].
  exact (cleanState_lookup _ _ _ Hst He _ _ Hx).
Qed.

Lemma AssignVal_clean env varName v st w st' :
  cleanState st -> noSignal v = true ->
  AssignVal env varName v st = Ok w st' -> cleanState st' /\ w = v.
Proof.
  intros Hst Hv Hassign. unfold AssignVal in Hassign.
  apply bind_Ok_inv in Hassign as (p & st1 & Hres & Hassign).
  unfold resolve in Hres. apply resolveFrom_Ok in Hres as ->.
  apply bind_Ok_inv in Hassign as (e & st1 & [-> He]%deref_Ok & Hassign).
  destruct (decide _); [done|].
  apply bind_Ok_inv in Hassign as (u & st1 & Hset & [-> ->]%ret_Ok).
  split; [|done]. by eapply setVar_clean.
Qed.

Lemma NewEnvironment_clean parentEnv st e st' :
  cleanState st -> NewEnvironment parentEnv st = Ok e st' -> cleanState st'.
Proof.
  intros Hst. unfold NewEnvironment.
  set (st0 := mkState _ _).
  assert (Hst0 : cleanState st0).
  { unfold cleanState. cbn. apply Forall_app. split; [done|].
    repeat constructor. unfold cleanEnv. cbn. apply map_Forall_empty. }
  clearbody st0. destruct parentEnv; [by intros [= _ <-]|].
  intros Hnew.
  apply bind_Ok_inv in Hnew as (u & st1 & Hsetup & [_ ->]%ret_Ok).
  unfold setupGlobalScope in Hsetup.
  apply bind_Ok_inv in Hsetup as (u1 & s1 & H1 & Hsetup).
  apply bind_Ok_inv in Hsetup as (u2 & s2 & H2 & Hsetup).
  apply bind_Ok_inv in Hsetup as (u3 & s3 & H3 & H4).
  apply declare_ignoring_clean in H1; [|done..].
  apply declare_ignoring_clean in H2; [|done..].
  apply declare_ignoring_clean in H3; [|done..].
  by apply declare_ignoring_clean in H4.
Qed.

Lemma callNative_clean fn args env st v st' :
  cleanState st -> callNative fn args env st = Ok v st' ->
  cleanState st' /\ noSignal v = true.
Proof.
  intros Hst. destruct fn. cbn. destruct (existsb _ args); [done|].
  by intros [= <- <-].
Qed.

Lemma isExpr_isStmt node :
  isExpr node = true -> isStmt node = true /\ mayReturn node = false.
Proof. by destruct node. Qed.

Lemma noSignal_stmtResult v : noSignal v = true -> stmtResult v = true.
Proof. by destruct v. Qed.

Lemma resultOk_stmtResult node v : resultOk node v -> stmtResult v = true.
Proof.
  unfold resultOk. destruct (mayReturn node); [done|].
  apply noSignal_stmtResult.
Qed.

Lemma noSignal_object props name :
  noSignal (ObjectVal props name) = true <->
  map_Forall (fun _ x => noSignal x = true) props.
Proof. cbn [noSignal]. apply (map_fold_andb_true (fun _ x => noSignal x)). Qed.

Lemma evalNumericBinaryExpr_state l r op st x st' :
  evalNumericBinaryExpr l r op st = Ok x st' -> st' = st.
Proof.
  unfold evalNumericBinaryExpr, intRem.
  repeat (destruct (opIs op _); [by intros [_ ->]%ret_Ok|]).
  destruct (opIs op _).
  { destruct (Float64.eqb r zero); by intros [_ ->]%ret_Ok. }
  destruct (opIs op _); [|done]. intros H.
  apply bind_Ok_inv in H as (z & st1 & Hz & [_ ->]%ret_Ok).
  destruct (_ =? 0); [done|]. by apply ret_Ok in Hz as [_ ->].
Qed.

Section SignalFree.

Variable FormatFloat : float64 -> string.
Variable Ev : option Stmt -> EnvPtr -> M RuntimeVal.

(** What the eval* functions need of their recursive calls: a parsed
    statement, run in a clean state, leaves a clean state and a value fit
    for its kind. *)
Hypothesis Ev_clean :
  forall node env st v st',
    isStmt node = true -> cleanState st ->
    Ev (Some node) env st = Ok v st' ->
    cleanState st' /\ resultOk node v.

(** A nil node is never evaluated to a value. *)
Hypothesis Ev_nil : forall env st v st', Ev None env st = Ok v st' -> False.

Lemma Ev_expr node env st v st' :
  isExpr node = true -> cleanState st ->
  Ev (Some node) env st = Ok v st' ->
  cleanState st' /\ noSignal v = true.
Proof.
  intros [Hstmt Hmay]%isExpr_isStmt Hst Hev.
  destruct (Ev_clean _ _ _ _ _ Hstmt Hst Hev) as [Hst' Hv].
  unfold resultOk in Hv. by rewrite Hmay in Hv.
Qed.

Lemma evalArgs_clean args env st vs st' :
  forallb isExpr args = true -> cleanState st ->
  evalArgs Ev args env st = Ok vs st' ->
  cleanState st' /\ Forall (fun v => noSignal v = true) vs.
Proof.
  revert st vs. induction args as [|arg rest IH]; intros st vs; cbn.
  - by intros _ Hst [-> ->]%ret_Ok.
  - intros [Harg Hrest]%andb_true_iff Hst Hargs.
    apply bind_Ok_inv in Hargs as (v & st1 & Hv & Hargs).
    apply bind_Ok_inv in Hargs as (vs' & st2 & Hvs & [-> ->]%ret_Ok).
    destruct (Ev_expr _ _ _ _ _ Harg Hst Hv) as [Hst1 Hclean].
    destruct (IH _ _ Hrest Hst1 Hvs) as [Hst2 Hall].
    by split; [|constructor].
Qed.

Lemma evalProperties_clean props env object st o st' :
  forallb (fun kv : string * option Stmt =>
             let (_, value) := kv in
             match value with
             | Some v => isExpr v
             | None => true
             end) props = true ->
  cleanState st -> map_Forall (fun _ x => noSignal x = true) object ->
  evalProperties Ev props env object st = Ok o st' ->
  cleanState st' /\ map_Forall (fun _ x => noSignal x = true) o.
Proof.
  revert st object. induction props as [|[key value] rest IH];
    intros st object; cbn.
  - by intros _ Hst Hobj [-> ->]%ret_Ok.
  - intros [Hvalue Hrest]%andb_true_iff Hst Hobj Hprops.
    apply bind_Ok_inv in Hprops as (v & st1 & Hv & Hprops).
    assert (cleanState st1 /\ noSignal v = true) as [Hst1 Hclean].
    { destruct value as [e|].
      - by eapply Ev_expr.
      - by destruct (LookupVar_clean _ _ _ _ _ Hst Hv) as [-> ?]. }
    eapply IH; [done|done| |done]. by apply map_Forall_insert_2.
Qed.

Lemma evalStatements_clean body env init st v st' :
  forallb isStmt body = true -> cleanState st -> stmtResult init = true ->
  evalStatements Ev body env init st = Ok v st' ->
  cleanState st' /\ stmtResult v = true.
Proof.
  revert st init. induction body as [|s rest IH]; intros st init; cbn.
  - by intros _ Hst Hinit [-> ->]%ret_Ok.
  - intros [Hs Hrest]%andb_true_iff Hst _ Hrun.
    apply bind_Ok_inv in Hrun as (w & st1 & Hw & Hrun).
    destruct (Ev_clean _ _ _ _ _ Hs Hst Hw) as [Hst1 Hok].
    eapply IH; [done|done| |done]. by eapply resultOk_stmtResult.
Qed.

Lemma callBody_clean body scope st v st' :
  forallb isStmt body = true -> cleanState st ->
  callBody Ev body scope st = Ok v st' ->
  cleanState st' /\ noSignal v = true.
Proof.
  revert st. induction body as [|s rest IH]; intros st; cbn.
  - by intros _ Hst [-> ->]%ret_Ok.
  - intros [Hs Hrest]%andb_true_iff Hst Hrun.
    apply bind_Ok_inv in Hrun as (w & st1 & Hw & Hrun).
    destruct (Ev_clean _ _ _ _ _ Hs Hst Hw) as [Hst1 Hok].
    apply resultOk_stmtResult in Hok.
    destruct w; try (by eapply IH).
    by apply ret_Ok in Hrun as [-> ->].
Qed.

Lemma bindParameters_clean scope params args st u st' :
  Forall (fun v => noSignal v = true) args -> cleanState st ->
  bindParameters scope params args st = Ok u st' -> cleanState st'.
Proof.
  revert args st. induction params as [|x ps IH]; intros args st Hargs; cbn.
  - by intros Hst [_ ->]%ret_Ok.
  - destruct Hargs as [|a rest Ha Hrest]; [by intros Hst [_ ->]%ret_Ok|].
    intros Hst Hbind.
    apply bind_Ok_inv in Hbind as (u' & st1 & Hdecl & Hbind).
    eapply IH; [done| |done]. by eapply declare_ignoring_clean.
Qed.

(** A call hands back a value free of signals: the one signal its body
    raises is taken off at the call. *)
Lemma callFunction_clean fn args env st v st' :
  noSignal fn = true -> Forall (fun v => noSignal v = true) args ->
  cleanState st -> callFunction Ev fn args env st = Ok v st' ->
  cleanState st' /\ noSignal v = true.
Proof.
  intros Hfn Hargs Hst Hcall. destruct fn; try done;
    unfold callFunction in Hcall.
  - by eapply callNative_clean.
  - apply bind_Ok_inv in Hcall as (scope & st1 & Hnew & Hcall).
    apply (NewEnvironment_clean _ _ _ _ Hst) in Hnew.
    destruct (negb _); [done|].
    apply bind_Ok_inv in Hcall as (u & st2 & Hbind & Hcall).
    apply (bindParameters_clean _ _ _ _ _ _ Hargs Hnew) in Hbind.
    by eapply callBody_clean.
Qed.

Lemma whileLoop_clean budget cond body env result st v st' :
  isExpr cond = true -> forallb isStmt body = true ->
  cleanState st -> stmtResult result = true ->
  whileLoop Ev budget cond body env result st = Ok v st' ->
  cleanState st' /\ stmtResult v = true.
Proof.
  intros Hcond Hbody. revert result st.
  induction budget as [|budget IH]; intros result st Hst Hres; [done|].
  cbn. intros Hrun.
  apply bind_Ok_inv in Hrun as (c & st1 & Hc & Hrun).
  destruct (Ev_expr _ _ _ _ _ Hcond Hst Hc) as [Hst1 _].
  destruct c as [| | | |[|]| | | |]; try done.
  - apply bind_Ok_inv in Hrun as (w & st2 & Hw & Hrun).
    destruct (evalStatements_clean _ _ _ _ _ _ Hbody Hst1 Hres Hw)
      as [Hst2 Hw'].
    by eapply IH.
  - by apply ret_Ok in Hrun as [-> ->].
Qed.

Lemma forLoop_clean steps i n body env last st v st' :
  forallb isStmt body = true -> cleanState st -> stmtResult last = true ->
  forLoop Ev steps i n body env last st = Ok v st' ->
  cleanState st' /\ stmtResult v = true.
Proof.
  intros Hbody. revert i last st.
  induction steps as [|steps IH]; intros i last st Hst Hlast; cbn;
    destruct (i <? n); try done; try (by intros [-> ->]%ret_Ok).
  intros Hrun. apply bind_Ok_inv in Hrun as (w & st1 & Hw & Hrun).
  destruct (evalStatements_clean _ _ _ _ _ _ Hbody Hst Hlast Hw)
    as [Hst1 Hw'].
  by eapply IH.
Qed.

Lemma EvaluateNode_clean budget node env st v st' :
  isStmt node = true -> cleanState st ->
  EvaluateNode FormatFloat Ev budget (Some node) env st = Ok v st' ->
  cleanState st' /\ resultOk node v.
Proof.
  intros Hnode Hst Hrun.
  destruct node as [body|c x value|name ps body|cond body|cond body
                   |cond body|value|a e|args caller|o p c|l r op|l r op
                   |o op|x|x|x|k value|props];
    cbn [isStmt isExpr] in Hnode; try done;
    cbn [EvaluateNode] in Hrun; unfold resultOk; cbn [mayReturn].
  - (* VarDeclaration *)
    unfold evalVarDeclaration in Hrun. destruct value as [e|].
    + apply bind_Ok_inv in Hrun as (w & st1 & Hw & Hrun).
      destruct (Ev_expr _ _ _ _ _ Hnode Hst Hw) as [Hst1 Hclean].
      by destruct (DeclareVar_Ok _ _ _ _ _ _ _ Hst1 Hclean Hrun) as [? ->].
    + by destruct (DeclareVar_Ok _ _ NadaVal _ _ _ _ Hst eq_refl Hrun)
        as [? ->].
  - (* FunctionDeclaration *)
    unfold evalFunctionDeclaration in Hrun.
    by destruct (DeclareVar_Ok _ _ (UserFunctionValue name ps env body)
                   _ _ _ _ Hst Hnode Hrun) as [? ->].
  - (* IfStmt *)
    apply andb_true_iff in Hnode as [Hcond Hbody].
    unfold evalIfStmt in Hrun.
    apply bind_Ok_inv in Hrun as (c & st1 & Hc & Hrun).
    destruct (Ev_expr _ _ _ _ _ Hcond Hst Hc) as [Hst1 _].
    destruct c as [| | | |[|]| | | |]; try done.
    + exact (evalStatements_clean _ _ NadaVal _ _ _ Hbody Hst1 eq_refl Hrun).
    + by apply ret_Ok in Hrun as [-> ->].
  - (* WhileStmt *)
    apply andb_true_iff in Hnode as [Hcond Hbody].
    exact (whileLoop_clean _ _ _ _ NadaVal _ _ _ Hcond Hbody Hst eq_refl
             Hrun).
  - (* ForStmt *)
    apply andb_true_iff in Hnode as [Hcond Hbody].
    unfold evalForStmt in Hrun.
    apply bind_Ok_inv in Hrun as (c & st1 & Hc & Hrun).
    destruct (Ev_expr _ _ _ _ _ Hcond Hst Hc) as [Hst1 _].
    destruct c; try done.
    exact (forLoop_clean _ _ _ _ _ NilVal _ _ _ Hbody Hst1 eq_refl Hrun).
  - (* ReturnStmt *)
    unfold evalReturnStmt in Hrun.
    apply bind_Ok_inv in Hrun as (w & st1 & Hw & [-> ->]%ret_Ok).
    destruct value as [e|].
    + by destruct (Ev_expr _ _ _ _ _ Hnode Hst Hw).
    + by destruct (Ev_nil _ _ _ _ Hw).
  - (* AssignmentExpr *)
    apply andb_true_iff in Hnode as [_ He].
    unfold evalAssignmentExpr in Hrun. destruct a; try done.
    apply bind_Ok_inv in Hrun as (w & st1 & Hw & Hrun).
    destruct (Ev_expr _ _ _ _ _ He Hst Hw) as [Hst1 Hclean].
    by destruct (AssignVal_clean _ _ _ _ _ _ Hst1 Hclean Hrun) as [? ->].
  - (* CallExpr *)
    apply andb_true_iff in Hnode as [Hargs Hcaller].
    unfold evalCallExpr in Hrun.
    apply bind_Ok_inv in Hrun as (vs & st1 & Hvs & Hrun).
    destruct (evalArgs_clean _ _ _ _ _ Hargs Hst Hvs) as [Hst1 Hall].
    apply bind_Ok_inv in Hrun as (fn & st2 & Hfn & Hrun).
    destruct (Ev_expr _ _ _ _ _ Hcaller Hst1 Hfn) as [Hst2 Hclean].
    by eapply callFunction_clean.
  - (* MemberExpr *)
    apply andb_true_iff in Hnode as [Ho Hp].
    unfold evalMemberExpr in Hrun.
    apply bind_Ok_inv in Hrun as (obj & st1 & Hobj & Hrun).
    destruct (Ev_expr _ _ _ _ _ Ho Hst Hobj) as [Hst1 Hclean].
    destruct obj as [| | | | |fields name| | |]; try done.
    apply bind_Ok_inv in Hrun as (key & st2 & Hkey & [-> ->]%ret_Ok).
    split.
    + destruct c.
      * apply bind_Ok_inv in Hkey as (pv & st3 & Hpv & Hkey).
        destruct (Ev_expr _ _ _ _ _ Hp Hst1 Hpv) as [Hst3 _].
        destruct pv; try done; by apply ret_Ok in Hkey as [_ ->].
      * destruct p; try done. by apply ret_Ok in Hkey as [_ ->].
    + destruct (fields !! key) as [x|] eqn:Hx; [|done].
      exact (proj1 (noSignal_object fields name) Hclean key x Hx).
  - (* LogicalExpr *)
    apply andb_true_iff in Hnode as [Hl Hr].
    unfold evalLogicalExpr in Hrun.
    apply bind_Ok_inv in Hrun as (lv & st1 & Hlv & Hrun).
    destruct (Ev_expr _ _ _ _ _ Hl Hst Hlv) as [Hst1 _].
    apply bind_Ok_inv in Hrun as (rv & st2 & Hrv & Hrun).
    destruct (Ev_expr _ _ _ _ _ Hr Hst1 Hrv) as [Hst2 _].
    repeat (destruct (opIs op _); [by apply ret_Ok in Hrun as [-> ->]|]).
    done.
  - (* BinaryExpr *)
    apply andb_true_iff in Hnode as [Hl Hr].
    unfold evalBinaryExpr in Hrun.
    apply bind_Ok_inv in Hrun as (lv & st1 & Hlv & Hrun).
    destruct (Ev_expr _ _ _ _ _ Hl Hst Hlv) as [Hst1 _].
    apply bind_Ok_inv in Hrun as (rv & st2 & Hrv & Hrun).
    destruct (Ev_expr _ _ _ _ _ Hr Hst1 Hrv) as [Hst2 _].
    destruct lv; try (by apply ret_Ok in Hrun as [-> ->]).
    destruct rv; try (by apply ret_Ok in Hrun as [-> ->]).
    apply bind_Ok_inv in Hrun as (x & st3 & Hx & [-> ->]%ret_Ok).
    by apply evalNumericBinaryExpr_state in Hx as ->.
  - (* UnaryExpr *)
    unfold evalUnaryExpr in Hrun.
    apply bind_Ok_inv in Hrun as (w & st1 & Hw & Hrun).
    destruct (Ev_expr _ _ _ _ _ Hnode Hst Hw) as [Hst1 _].
    destruct w; apply ret_Ok in Hrun as [-> ->]; try done.
    split; [done|]. unfold evalNumericUnaryExpr.
    by repeat destruct (opIs op _).
  - (* NumericLiteral *) by apply ret_Ok in Hrun as [-> ->].
  - (* StringLiteral *) by apply ret_Ok in Hrun as [-> ->].
  - (* Identifier *)
    by destruct (LookupVar_clean _ _ _ _ _ Hst Hrun) as [-> ?].
  - (* ObjectLiteral *)
    unfold evalObjectExpr in Hrun.
    apply bind_Ok_inv in Hrun as (o & st1 & Ho & [-> ->]%ret_Ok).
    destruct (evalProperties_clean _ _ _ _ _ _ Hnode Hst
                (map_Forall_empty _) Ho) as [Hst1 Hall].
    split; [done|]. by apply noSignal_object.
Qed.

End SignalFree.

(** I4 for parsed programs: evaluating a parsed statement in a state
    whose variables hold no return signal keeps the state so, and gives a
    value that is free of signals - or, for [return], [if], [while] and
    [for], one signal around such a value. *)
Lemma Evaluate_clean FormatFloat fuel :
  forall node env st v st',
    isStmt node = true -> cleanState st ->
    Evaluate FormatFloat fuel (Some node) env st = Ok v st' ->
    cleanState st' /\ resultOk node v.
Proof.
  induction fuel as [|fuel IH]; [done|].
  intros node env st v st' Hnode Hst Hrun.
  eapply (EvaluateNode_clean FormatFloat (Evaluate FormatFloat fuel) IH);
    [|done|done|done].
  intros env0 st0 v0 st0'. by destruct fuel.
Qed.

Lemma globalState_clean : cleanState globalState.
Proof.
  unfold globalState.
  destruct (NewEnvironment None emptyState) as [e st| | |] eqn:Hnew;
    try by constructor.
  eapply NewEnvironment_clean; [|done]. constructor.
Qed.

(** *** Programs and return signals *)

(** A loop whose condition is always true uses up every budget. *)
Lemma whileLoop_forever (FormatFloat : float64 -> string) fuel budget env
    result st :
  whileLoop (Evaluate FormatFloat fuel) budget
    (LogicalExpr (number 0) (number 0) "==") [] env result st = OutOfFuel.
Proof.
  revert result st. induction budget as [|budget IH]; intros result st;
    [reflexivity|].
  cbn [whileLoop]. unfold bind at 1.
  destruct fuel as [|[|fuel]]; [reflexivity..|].
  change (Evaluate FormatFloat (S (S fuel))
            (Some (LogicalExpr (number 0) (number 0) "==")) env st)
    with (Ok (BoolVal true) st : Outcome RuntimeVal).
  cbn [evalStatements]. apply IH.
Qed.

Lemma forever_never_returns (FormatFloat : float64 -> string) fuel env st :
  Evaluate FormatFloat fuel (Some forever) env st = OutOfFuel.
Proof.
  destruct fuel as [|[|fuel]]; [reflexivity..|].
  unfold forever. step_Evaluate. unfold evalProgram. cbn [evalStatements].
  unfold bind. step_Evaluate. unfold evalWhileStmt.
  by rewrite whileLoop_forever.
Qed.

(** C2 (as the code has it): a program hands on what its top-level
    statements give.  The value of a program is the value of its last
    top-level statement, handed on as it is.
    - A program whose last top-level statement is a return statement
      therefore yields, whenever its evaluation succeeds, a ReturnSignal as
      the program's result.
    - For a parsed program run in a state whose variables hold no
      ReturnSignal, the result is no ReturnSignal when the last top-level
      statement is an expression or a declaration: the signal raised in the
      body of a UserFunction is taken off at the call.
    - A program need not return a value or an error: [1 % 0] ends in a host
      panic, and [while (0 == 0) { }] does not end, whatever the budget. *)
Theorem Program_surfaces_ReturnSignal (FormatFloat : float64 -> string) :
  (forall fuel body s env st,
      Evaluate FormatFloat (S fuel) (Some (Program (body ++ [s]))) env st =
      (let* _ := evalStatements (Evaluate FormatFloat fuel) body env NilVal in
       Evaluate FormatFloat fuel (Some s) env) st) /\
  (forall fuel body e env st v st',
      Evaluate FormatFloat fuel
        (Some (Program (body ++ [ReturnStmt e]))) env st = Ok v st' ->
      isReturnValue v = true) /\
  (forall fuel body s env st v st',
      forallb isStmt (body ++ [s]) = true -> mayReturn s = false ->
      cleanState st ->
      Evaluate FormatFloat fuel (Some (Program (body ++ [s]))) env st =
        Ok v st' ->
      isReturnValue v = false) /\
  (forall fuel env st,
      Evaluate FormatFloat (3 + fuel) (Some oneModuloZero) env st =
      Panic IntegerDivideByZero st) /\
  (forall fuel env st,
      Evaluate FormatFloat fuel (Some forever) env st = OutOfFuel).
Proof.
  split; [|split; [|split; [|split]]].
  - intros fuel body s env st. step_Evaluate.
    unfold evalProgram. apply evalStatements_snoc.
  - intros fuel body e env st v st' Hrun.
    destruct fuel as [|fuel]; [discriminate|].
    step_Evaluate in Hrun.
    unfold evalProgram in Hrun. rewrite evalStatements_snoc in Hrun.
    apply bind_Ok_inv in Hrun as (w & st1 & _ & Hlast).
    destruct fuel as [|fuel]; [discriminate|].
    step_Evaluate in Hlast.
    unfold evalReturnStmt in Hlast.
    apply bind_Ok_inv in Hlast as (x & st2 & _ & Hret).
    injection Hret as <- _. reflexivity.
  - intros fuel body s env st v st' Hshape Hmay Hst Hrun.
    destruct fuel as [|fuel]; [discriminate|].
    step_Evaluate in Hrun.
    unfold evalProgram in Hrun. rewrite evalStatements_snoc in Hrun.
    apply bind_Ok_inv in Hrun as (w & st1 & Hbody & Hlast).
    rewrite forallb_app in Hshape.
    apply andb_true_iff in Hshape as [Hshape Hs]. cbn in Hs.
    rewrite andb_true_r in Hs.
    destruct (evalStatements_clean (Evaluate FormatFloat fuel)
                (Evaluate_clean FormatFloat fuel) body env NilVal st w st1
                Hshape Hst eq_refl Hbody) as [Hst1 _].
    destruct (Evaluate_clean FormatFloat fuel s env st1 v st' Hs Hst1 Hlast)
      as [_ Hv].
    unfold resultOk in Hv. rewrite Hmay in Hv. by destruct v.
  - reflexivity.
  - apply forever_never_returns.
Qed.

Lemma Program_surfaces_ReturnSignal_witness :
  (Evaluate noFormat 3 (Some topLevelReturn) 0%nat globalState =
     Ok (ReturnValue (NumberVal one)) globalState /\
   isReturnValue (ReturnValue (NumberVal one)) = true) /\
  (forallb isStmt [BinaryExpr (number 1) (number 0) "/"] = true /\
   mayReturn (BinaryExpr (number 1) (number 0) "/") = false /\
   Evaluate noFormat 3 (Some oneOverZero) 0%nat globalState =
     Ok (NumberVal zero) globalState /\
   isReturnValue (NumberVal zero) = false).
Proof.
  split.
  - split; [vm_compute; reflexivity|].
    apply (proj1 (proj2 (Program_surfaces_ReturnSignal noFormat)) 3%nat []
             (Some (number 1)) 0%nat globalState
             (ReturnValue (NumberVal one)) globalState).
    vm_compute. reflexivity.
  - do 3 (split; [vm_compute; reflexivity|]).
    apply (proj1 (proj2 (proj2 (Program_surfaces_ReturnSignal noFormat)))
             3%nat []
             (BinaryExpr (number 1) (number 0) "/") 0%nat globalState
             (NumberVal zero) globalState).
    + vm_compute. reflexivity.
    + reflexivity.
    + apply globalState_clean.
    + vm_compute. reflexivity.
Defined.

(** C2 as stated fails: the program [return 1], run by [main]'s steps in a
    fresh global environment, ends with a ReturnSignal as its value. *)
Lemma top_level_return_yields_ReturnSignal :
  match run noFormat 3 topLevelReturn with
  | Ok v _ => v = ReturnValue (NumberVal one)
  | _ => False
  end.
Proof. vm_compute. reflexivity. Qed.


(** *** Return statements without a value *)

(** C4 (what the code does): [evalReturnStmt] passes the absent value
    expression to [Evaluate], whose type switch has no case for nil, so a
    bare [return] fails with the "AST Node has not been added" error; the call
    of a function whose body is a bare [return] fails with it too. *)
Theorem bare_return_fails (FormatFloat : float64 -> string) :
  (forall fuel env st,
      Evaluate FormatFloat (S (S fuel)) (Some (ReturnStmt None)) env st =
      Err (NodeNotAdded None) st) /\
  match run FormatFloat 5 bareReturnCall with
  | Err e _ => e = NodeNotAdded None
  | _ => False
  end.
Proof.
  split; [reflexivity|]. vm_compute. reflexivity.
Qed.

(** *** Calls *)

(** C3 (as the code has it): a call evaluates its argument expressions
    first, in left-to-right order, and its callee expression after them.
    - The arguments are evaluated head first, each in the state the previous
      one left.
    - When an argument fails or panics, the call ends there and the callee
      is not evaluated.
    - When the arguments have all been evaluated, the callee is evaluated in
      the state they left, and the function value is then applied. *)
Theorem CallExpr_arguments_then_callee (FormatFloat : float64 -> string) :
  forall fuel Args Caller env st,
    let Ev := Evaluate FormatFloat fuel in
    (forall arg rest s,
        evalArgs Ev (arg :: rest) env s =
        (let* v := Ev (Some arg) env in
         let* vs := evalArgs Ev rest env in
         ret (v :: vs)) s) /\
    (forall e st1, evalArgs Ev Args env st = Err e st1 ->
        Evaluate FormatFloat (S fuel) (Some (CallExpr Args Caller)) env st =
        Err e st1) /\
    (forall p st1, evalArgs Ev Args env st = Panic p st1 ->
        Evaluate FormatFloat (S fuel) (Some (CallExpr Args Caller)) env st =
        Panic p st1) /\
    (forall args st1, evalArgs Ev Args env st = Ok args st1 ->
        Evaluate FormatFloat (S fuel) (Some (CallExpr Args Caller)) env st =
        (let* fn := Ev (Some Caller) env in callFunction Ev fn args env) st1).
Proof.
  intros fuel Args Caller env st Ev. split; [reflexivity|].
  step_Evaluate. unfold evalCallExpr. fold Ev.
  repeat split; intros ? ? Hargs; unfold bind at 1; by rewrite Hargs.
Qed.

Lemma CallExpr_arguments_then_callee_witness :
  evalArgs (Evaluate noFormat 3) [printOf (StringLiteral "arg")] 0%nat
    globalState = Ok [NadaVal] afterArg /\
  Evaluate noFormat 4 (Some printingCall) 0%nat globalState =
    (let* fn := Evaluate noFormat 3 (Some (printOf (StringLiteral "callee")))
                  0%nat in
     callFunction (Evaluate noFormat 3) fn [NadaVal] 0%nat) afterArg.
Proof.
  split; [vm_compute; reflexivity|].
  apply (CallExpr_arguments_then_callee noFormat 3%nat
           [printOf (StringLiteral "arg")]
           (printOf (StringLiteral "callee")) 0%nat globalState).
  vm_compute. reflexivity.
Defined.

(** C3 as stated fails: in [print("callee")(print("arg"))] the line of the
    argument is written before the line of the callee, whereas evaluating the
    callee first would write them the other way round. *)
Lemma CallExpr_callee_is_not_first :
  written (Evaluate noFormat 4 (Some printingCall) 0%nat globalState) =
    Some [[StringVal "arg"]; [StringVal "callee"]] /\
  written (evalCallExpr_calleeFirst (Evaluate noFormat 3)
             [printOf (StringLiteral "arg")]
             (printOf (StringLiteral "callee")) 0%nat globalState) =
    Some [[StringVal "callee"]; [StringVal "arg"]].
Proof. split; vm_compute; reflexivity. Qed.

(** *** Arithmetic *)

Lemma to_int_zero (x : float64) : truncate x = Some 0 -> to_int x = 0.
Proof. unfold to_int. by intros ->. Qed.

Lemma to_int_representable (x : float64) z :
  truncate x = Some z -> min_int <= z <= max_int -> to_int x = z.
Proof.
  unfold to_int. intros -> [Hlo Hhi].
  destruct (Z.leb_spec min_int z); [|lia].
  destruct (Z.leb_spec z max_int); [reflexivity|lia].
Qed.

(** C6: when both operands of [/] are Numbers and the right one compares
    equal to zero, the result is the Number 0 and there is no error; the
    program [1/0] evaluates to 0. *)
Theorem division_by_zero_yields_zero (FormatFloat : float64 -> string) :
  (forall fuel Left Right env st l r st1 st2,
      Evaluate FormatFloat fuel (Some Left) env st = Ok (NumberVal l) st1 ->
      Evaluate FormatFloat fuel (Some Right) env st1 = Ok (NumberVal r) st2 ->
      Float64.eqb r zero = true ->
      evalNumericBinaryExpr l r "/" st2 = Ok zero st2 /\
      Evaluate FormatFloat (S fuel) (Some (BinaryExpr Left Right "/")) env st =
        Ok (NumberVal zero) st2) /\
  (forall fuel env st,
      Evaluate FormatFloat (3 + fuel) (Some oneOverZero) env st =
      Ok (NumberVal zero) st).
Proof.
  split; [|reflexivity].
  intros fuel Left Right env st l r st1 st2 HL HR Hzero.
  assert (Hnum : evalNumericBinaryExpr l r "/" st2 = Ok zero st2).
  { unfold evalNumericBinaryExpr. decide_operator.
    by rewrite Hzero. }
  split; [exact Hnum|].
  step_Evaluate. unfold evalBinaryExpr.
  rewrite (bind_Ok _ _ _ _ _ HL), (bind_Ok _ _ _ _ _ HR).
  by rewrite (bind_Ok _ _ _ _ _ Hnum).
Qed.

Lemma division_by_zero_yields_zero_witness :
  Evaluate noFormat 1 (Some (number 1)) 0%nat globalState =
    Ok (NumberVal one) globalState /\
  Evaluate noFormat 1 (Some (number 0)) 0%nat globalState =
    Ok (NumberVal zero) globalState /\
  Float64.eqb zero zero = true /\
  Evaluate noFormat 2 (Some (BinaryExpr (number 1) (number 0) "/")) 0%nat
    globalState = Ok (NumberVal zero) globalState.
Proof.
  do 3 (split; [vm_compute; reflexivity|]).
  apply (proj1 (division_by_zero_yields_zero noFormat) 1%nat (number 1)
           (number 0) 0%nat globalState one zero globalState globalState);
    vm_compute; reflexivity.
Defined.

(** C10: [%] has no guard on its divisor.  When both operands are Numbers
    and the right one truncates to the integer 0, the evaluation neither
    returns a value nor an error: it ends in the host's integer
    divide-by-zero panic. *)
Theorem modulo_by_zero_panics (FormatFloat : float64 -> string) :
  forall fuel Left Right env st l r st1 st2,
    Evaluate FormatFloat fuel (Some Left) env st = Ok (NumberVal l) st1 ->
    Evaluate FormatFloat fuel (Some Right) env st1 = Ok (NumberVal r) st2 ->
    truncate r = Some 0 ->
    evalNumericBinaryExpr l r "%" st2 = Panic IntegerDivideByZero st2 /\
    Evaluate FormatFloat (S fuel) (Some (BinaryExpr Left Right "%")) env st =
      Panic IntegerDivideByZero st2.
Proof.
  intros fuel Left Right env st l r st1 st2 HL HR Hzero.
  assert (Hnum : evalNumericBinaryExpr l r "%" st2
                 = Panic IntegerDivideByZero st2).
  { unfold evalNumericBinaryExpr. decide_operator.
    by rewrite (to_int_zero r Hzero). }
  split; [exact Hnum|].
  step_Evaluate. unfold evalBinaryExpr.
  rewrite (bind_Ok _ _ _ _ _ HL), (bind_Ok _ _ _ _ _ HR).
  unfold bind. by rewrite Hnum.
Qed.

Lemma modulo_by_zero_panics_witness :
  Evaluate noFormat 1 (Some (number 7)) 0%nat globalState =
    Ok (NumberVal (of_Z 7)) globalState /\
  Evaluate noFormat 1 (Some (number 0)) 0%nat globalState =
    Ok (NumberVal zero) globalState /\
  truncate zero = Some 0 /\
  Evaluate noFormat 2 (Some (BinaryExpr (number 7) (number 0) "%")) 0%nat
    globalState = Panic IntegerDivideByZero globalState.
Proof.
  do 3 (split; [vm_compute; reflexivity|]).
  apply (modulo_by_zero_panics noFormat 1%nat (number 7) (number 0)
           0%nat globalState (of_Z 7) zero globalState globalState);
    vm_compute; reflexivity.
Defined.

(** C8: on a Number operand the unary [!] compares its own zero-initialised
    [result], not the operand, so the outcome is the Number 1 whatever the
    operand is. *)
Theorem not_on_Number_is_one (FormatFloat : float64 -> string) :
  forall fuel Operant env st n st1,
    Evaluate FormatFloat fuel (Some Operant) env st = Ok (NumberVal n) st1 ->
    evalNumericUnaryExpr n "!" = NumberVal one /\
    Evaluate FormatFloat (S fuel) (Some (UnaryExpr Operant "!")) env st =
      Ok (NumberVal one) st1.
Proof.
  intros fuel Operant env st n st1 HO. split; [reflexivity|].
  step_Evaluate. unfold evalUnaryExpr.
  by rewrite (bind_Ok _ _ _ _ _ HO).
Qed.

Lemma not_on_Number_is_one_witness :
  Evaluate noFormat 1 (Some (number 5)) 0%nat globalState =
    Ok (NumberVal (of_Z 5)) globalState /\
  Evaluate noFormat 2 (Some (UnaryExpr (number 5) "!")) 0%nat globalState =
    Ok (NumberVal one) globalState.
Proof.
  split; [vm_compute; reflexivity|].
  apply (not_on_Number_is_one noFormat 1%nat (number 5) 0%nat globalState
           (of_Z 5) globalState).
  vm_compute. reflexivity.
Defined.

(** *** The conversion of a count to [int] *)

Lemma digits2_pos_bound (m : positive) :
  Z.pos m < 2 ^ Z.pos (digits2_pos m).
Proof.
  induction m as [p IH|p IH|]; cbn [digits2_pos].
  - rewrite Pos2Z.inj_succ, Z.pow_succ_r, Pos2Z.inj_xI by lia. lia.
  - rewrite Pos2Z.inj_succ, Z.pow_succ_r, Pos2Z.inj_xO by lia. lia.
  - reflexivity.
Qed.

Lemma canonical_mantissa_bound m e :
  canonical_mantissa prec emax m e = true -> Z.pos m < 2 ^ 53.
Proof.
  unfold canonical_mantissa, fexp, prec. intros Hc%Z.eqb_eq.
  pose proof (digits2_pos_bound m) as Hm.
  assert (Hd : Z.pos (digits2_pos m) <= 53) by lia.
  pose proof (Z.pow_le_mono_r 2 _ _ ltac:(lia) Hd). lia.
Qed.

Lemma compare_cont_Lt (m p : positive) :
  PosDef.Pos.compare_cont Eq m p = Lt -> Z.pos m < Z.pos p.
Proof. intros H. exact H. Qed.

Lemma shiftr_small a k : 0 <= a < 2 ^ k -> 0 <= k -> Z.shiftr a k = 0.
Proof.
  intros Ha Hk. rewrite Z.shiftr_div_pow2 by done. by apply Z.div_small.
Qed.

(** A valid float below 1 (negative ones included) converts to an integer
    that is at most 0. *)
Lemma to_int_below_one (x : float64) :
  valid_binary prec emax x = true -> Float64.ltb x one = true ->
  Z.max 0 (to_int x) = 0.
Proof.
  destruct x as [s|s| |s m e]; try done.
  intros Hvalid Hlt. destruct s.
  - unfold to_int, truncate.
    set (mag := if 0 <=? e then _ else _).
    assert (0 <= mag).
    { subst mag. destruct (0 <=? e).
      - by apply Z.shiftl_nonneg.
      - by apply Z.shiftr_nonneg. }
    destruct (_ && _); unfold min_int; lia.
  - cbn [valid_binary] in Hvalid. unfold bounded in Hvalid.
    apply andb_true_iff in Hvalid as [Hcanon _].
    apply canonical_mantissa_bound in Hcanon.
    assert (Hmag : Z.shiftr (Z.pos m) (- e) = 0 /\ e < 0).
    { unfold Float64.ltb, SFltb, SFcompare, one in Hlt.
      destruct (Z.compare_spec e (-52)) as [->|He|He]; try done.
      - split; [|lia]. apply shiftr_small; [|lia].
        destruct (PosDef.Pos.compare_cont Eq m _) eqn:Hm; [done| |done].
        apply compare_cont_Lt in Hm. lia.
      - split; [|lia]. apply shiftr_small; [|lia].
        pose proof (Z.pow_le_mono_r 2 53 (- e) ltac:(lia) ltac:(lia)). lia. }
    destruct Hmag as [Hmag He]. unfold to_int, truncate.
    destruct (Z.leb_spec 0 e); [lia|]. by rewrite Hmag.
Qed.

(** ** Environments: declaring, assigning, looking up *)

Lemma deref_at env st e :
  envs st !! env = Some e -> deref env st = Ok e st.
Proof. unfold deref. by intros ->. Qed.

Lemma resolveFrom_here bound env x st e v :
  envs st !! env = Some e -> variables e !! x = Some v ->
  resolveFrom bound env x st = Ok env st.
Proof.
  intros He Hx. destruct bound; cbn; unfold bind;
    by rewrite (deref_at _ _ _ He), Hx.
Qed.

Lemma resolveFrom_up bound env x st e p :
  envs st !! env = Some e -> variables e !! x = None -> parent e = Some p ->
  resolveFrom (S bound) env x st = resolveFrom bound p x st.
Proof.
  intros He Hx Hp. cbn. unfold bind. by rewrite (deref_at _ _ _ He), Hx, Hp.
Qed.

Lemma LookupVar_here env x st e v :
  envs st !! env = Some e -> variables e !! x = Some v ->
  LookupVar env x st = Ok v st.
Proof.
  intros He Hx. unfold LookupVar, resolve, bind.
  rewrite (resolveFrom_here _ _ _ _ _ _ He Hx), (deref_at _ _ _ He).
  by rewrite Hx.
Qed.


Lemma withVar_at env e x v c st :
  envs st !! env = Some e ->
  envs (withVar env e x v c st) !! env =
  Some (mkEnvironment (global e) (parent e) (<[x := v]> (variables e))
          (if c then {[ x ]} ∪ constants e else constants e)).
Proof.
  intros He. cbn. apply list_lookup_insert_eq. by eapply lookup_lt_Some.
Qed.

Lemma withVar_other env e x v c st i :
  env <> i -> envs (withVar env e x v c st) !! i = envs st !! i.
Proof. intros Hne. cbn. by apply list_lookup_insert_ne. Qed.

Lemma DeclareVar_fresh env x v c st e :
  envs st !! env = Some e -> variables e !! x = None ->
  DeclareVar env x v c st = Ok v (withVar env e x v c st).
Proof.
  intros He Hx. pose proof (lookup_lt_Some _ _ _ He) as Hlt.
  unfold DeclareVar, setVar, store, bind. rewrite (deref_at _ _ _ He), Hx.
  rewrite (deref_at _ _ _ He). destruct c; [|done].
  unfold deref. cbn. rewrite list_lookup_insert_eq by done. cbn.
  unfold withVar. by rewrite list_insert_insert_eq.
Qed.

(** X1: declaring a name that the frame does not have succeeds with the
    value declared; a lookup from that frame then returns the value, and
    declaring the name again in that frame fails, whatever the value and the
    constant flag, and changes nothing. *)
Theorem DeclareVar_then_LookupVar env x v c st e :
  envs st !! env = Some e -> variables e !! x = None ->
  exists st',
    DeclareVar env x v c st = Ok v st' /\
    LookupVar env x st' = Ok v st' /\
    (forall v2 c2, DeclareVar env x v2 c2 st' = Err (AlreadyDefined x) st').
Proof.
  intros He Hx. exists (withVar env e x v c st).
  pose proof (withVar_at env e x v c st He) as He'.
  split; [by apply DeclareVar_fresh|]. split.
  - eapply LookupVar_here; [done|]. cbn. apply lookup_insert_eq.
  - intros v2 c2. unfold DeclareVar, bind. rewrite (deref_at _ _ _ He').
    cbn. by rewrite lookup_insert_eq.
Qed.

Lemma DeclareVar_then_LookupVar_witness :
  envs globalState !! 0%nat = Some globalFrame /\
  variables globalFrame !! "x" = None /\
  exists st',
    DeclareVar 0%nat "x" (NumberVal one) false globalState =
      Ok (NumberVal one) st' /\
    LookupVar 0%nat "x" st' = Ok (NumberVal one) st' /\
    (forall v2 c2,
        DeclareVar 0%nat "x" v2 c2 st' = Err (AlreadyDefined "x") st').
Proof.
  split; [vm_compute; reflexivity|]. split; [vm_compute; reflexivity|].
  apply (DeclareVar_then_LookupVar 0%nat "x" (NumberVal one) false
           globalState globalFrame); vm_compute; reflexivity.
Defined.

Lemma resolveFrom_found bound env x st target st' :
  resolveFrom bound env x st = Ok target st' ->
  st' = st /\
  exists e v, envs st !! target = Some e /\ variables e !! x = Some v.
Proof.
  revert env. induction bound as [|bound IH]; intros env; cbn;
    unfold bind, deref; destruct (envs st !! env) as [e|] eqn:He; try done;
    destruct (variables e !! x) as [v|] eqn:Hx;
    try (intros [= <- <-]; by eauto);
    destruct (parent e); try done.
  apply IH.
Qed.

(** *** Scope chains *)

Section ScopeChains.

Variables (st : State) (x : string).

Lemma climbs_depth n env top m top' :
  climbs st x n env top -> climbEnds st x top ->
  climbs st x m env top' -> climbEnds st x top' -> n = m.
Proof.
  intros Hn Htop. revert m. induction Hn as [env|n env e p top He Hx Hp Hn IH];
    intros m Hm Htop'.
  - destruct Hm as [|m env e p top' He Hx Hp Hm]; [done|].
    destruct Htop as (e0 & He0 & [[v Hv]|Hroot]);
      injection (eq_trans (eq_sym He) He0) as <-; congruence.
  - destruct Hm as [|m env e' p' top' He' Hx' Hp' Hm].
    + destruct Htop' as (e0 & He0 & [[v Hv]|Hroot]);
        injection (eq_trans (eq_sym He) He0) as <-; congruence.
    + injection (eq_trans (eq_sym He) He') as <-.
      assert (p' = p) as -> by congruence.
      f_equal. by apply IH.
Qed.

(** The frames on a chain that ends are as many frames of the heap. *)
Lemma climbs_frames n env top :
  climbs st x n env top -> climbEnds st x top ->
  exists frames : list EnvPtr,
    length frames = S n /\ NoDup frames /\
    forall f, f ∈ frames ->
      (f < length (envs st))%nat /\
      exists k, (k <= n)%nat /\ climbs st x k f top.
Proof.
  intros Hn Htop. induction Hn as [env|n env e p top He Hx Hp Hn IH].
  - exists [env]. split; [done|]. split; [apply NoDup_singleton|].
    intros f ->%list_elem_of_singleton. split.
    + destruct Htop as (e & He & _). by eapply lookup_lt_Some.
    + exists O. split; [done|constructor].
  - destruct (IH Htop) as (frames & Hlen & Hnodup & Hframes).
    exists (env :: frames). split; [cbn; by rewrite Hlen|]. split.
    + apply NoDup_cons. split; [|done]. intros Hin.
      destruct (Hframes env Hin) as (_ & k & Hk & Hclimb).
      assert (k = S n); [|lia].
      eapply climbs_depth; [exact Hclimb|done| |done].
      by eapply climbs_up.
    + intros f [->|Hin]%elem_of_cons.
      * split; [by eapply lookup_lt_Some|].
        exists (S n). split; [done|]. by eapply climbs_up.
      * destruct (Hframes f Hin) as (Hlt & k & Hk & Hclimb).
        split; [done|]. exists k. split; [lia|done].
Qed.

Lemma climbs_short n env top :
  climbs st x n env top -> climbEnds st x top -> (n < length (envs st))%nat.
Proof.
  intros Hn Htop.
  destruct (climbs_frames n env top Hn Htop)
    as (frames & Hlen & Hnodup & Hframes).
  assert (Hsub : frames ⊆+ seq 0 (length (envs st))).
  { apply NoDup_submseteq; [done|]. intros f Hf.
    apply elem_of_seq. destruct (Hframes f Hf) as [Hlt _]. lia. }
  apply submseteq_length in Hsub. rewrite length_seq in Hsub. lia.
Qed.

Lemma resolveFrom_climbs n env top bound :
  climbs st x n env top -> (n <= bound)%nat ->
  resolveFrom bound env x st = resolveFrom (bound - n) top x st.
Proof.
  intros Hn. revert bound.
  induction Hn as [env|n env e p top He Hx Hp Hn IH]; intros bound Hle.
  - by rewrite Nat.sub_0_r.
  - destruct bound as [|bound]; [lia|].
    rewrite (resolveFrom_up _ _ _ _ _ _ He Hx Hp). apply IH. lia.
Qed.

(** [resolve] finds the nearest frame that declares the name. *)
Lemma resolve_nearest env target :
  nearest st x env target -> resolve env x st = Ok target st.
Proof.
  intros (n & e & Hn & He & [v Hv]).
  assert (Hends : climbEnds st x target) by (exists e; eauto).
  pose proof (climbs_short n env target Hn Hends) as Hlt.
  unfold resolve. rewrite (resolveFrom_climbs n env target) by (done || lia).
  by apply (resolveFrom_here _ _ _ _ e v).
Qed.

(** [resolve] panics when no frame of the chain declares the name. *)
Lemma resolve_undeclared env :
  undeclared st x env ->
  resolve env x st = Panic (VariableDoesNotExist x) st.
Proof.
  intros (n & root & e & Hn & He & Hx & Hroot).
  assert (Hends : climbEnds st x root) by (exists e; eauto).
  pose proof (climbs_short n env root Hn Hends) as Hlt.
  unfold resolve. rewrite (resolveFrom_climbs n env root) by (done || lia).
  destruct (length (envs st) - n)%nat; cbn; unfold bind;
    by rewrite (deref_at _ _ _ He), Hx, Hroot.
Qed.

End ScopeChains.

(** Giving [x] a value in the frame that declares it leaves that frame the
    nearest one. *)
Lemma nearest_withVar st x env target e w :
  nearest st x env target -> envs st !! target = Some e ->
  nearest (withVar target e x w false st) x env target.
Proof.
  intros (n & e0 & Hn & He0 & Hx) He.
  injection (eq_trans (eq_sym He) He0) as <-.
  exists n. eexists. split; [|split; [by apply withVar_at|]].
  - induction Hn as [env|n env fr p top Hfr Hfrx Hp Hn IH]; [constructor|].
    eapply climbs_up; [|exact Hfrx|exact Hp|by apply IH].
    rewrite withVar_other; [done|]. intros <-.
    injection (eq_trans (eq_sym He) Hfr) as <-.
    rewrite Hfrx in Hx. by destruct Hx.
  - cbn. by rewrite lookup_insert_eq.
Qed.

(** X2: an assignment goes to the nearest frame up the scope chain that
    declares the name, the frame at which [resolve] stops.  If the name is
    constant there, the assignment fails and changes nothing; otherwise it
    succeeds with the value assigned, only that variable of that frame
    changes - the frame of the assignment, when it is another one, stays as
    it is - and a lookup from the same scope then returns the value. *)
Theorem AssignVal_then_LookupVar env x w st target e :
  nearest st x env target -> envs st !! target = Some e ->
  resolve env x st = Ok target st /\
  (x ∈ constants e -> AssignVal env x w st = Err (AssignToConstant x) st) /\
  (x ∉ constants e ->
   AssignVal env x w st = Ok w (withVar target e x w false st) /\
   (target <> env ->
    envs (withVar target e x w false st) !! env = envs st !! env) /\
   LookupVar env x (withVar target e x w false st) =
     Ok w (withVar target e x w false st)).
Proof.
  intros Hnear He.
  pose proof (resolve_nearest st x env target Hnear) as Hres.
  split; [exact Hres|]. split.
  - intros Hconst. unfold AssignVal, bind. rewrite Hres, (deref_at _ _ _ He).
    by rewrite decide_True.
  - intros Hvar. split; [|split].
    + unfold AssignVal, setVar, store, bind.
      rewrite Hres, (deref_at _ _ _ He), decide_False by done.
      by rewrite (deref_at _ _ _ He).
    + intros Hne. by apply withVar_other.
    + unfold LookupVar, bind.
      rewrite (resolve_nearest _ x env target
                 (nearest_withVar st x env target e w Hnear He)).
      rewrite (deref_at _ _ _ (withVar_at target e x w false st He)). cbn.
      by rewrite lookup_insert_eq.
Qed.

Lemma AssignVal_then_LookupVar_witness :
  nearest scopedState "c" 1%nat 0%nat /\
  envs scopedState !! 0%nat = Some scopedFrame /\
  ("c" ∉ constants scopedFrame) /\
  AssignVal 1%nat "c" NadaVal scopedState =
    Ok NadaVal (withVar 0%nat scopedFrame "c" NadaVal false scopedState) /\
  LookupVar 1%nat "c"
    (withVar 0%nat scopedFrame "c" NadaVal false scopedState) =
    Ok NadaVal (withVar 0%nat scopedFrame "c" NadaVal false scopedState).
Proof.
  assert (Hnear : nearest scopedState "c" 1%nat 0%nat).
  { exists 1%nat, scopedFrame. split; [|split].
    - apply (climbs_up scopedState "c" 0 1%nat callFrame 0%nat 0%nat);
        [vm_compute; reflexivity..|constructor].
    - vm_compute. reflexivity.
    - exists (NumberVal (of_Z 3)). vm_compute. reflexivity. }
  assert (Hframe : envs scopedState !! 0%nat = Some scopedFrame)
    by (vm_compute; reflexivity).
  assert (Hvar : "c" ∉ constants scopedFrame).
  { apply (bool_decide_unpack ("c" ∉ constants scopedFrame)).
    vm_compute. exact I. }
  split; [exact Hnear|]. split; [exact Hframe|]. split; [exact Hvar|].
  pose proof (proj2 (proj2 (AssignVal_then_LookupVar 1%nat "c" NadaVal
                              scopedState 0%nat scopedFrame Hnear Hframe))
                Hvar) as (Hassign & _ & Hlookup).
  split; [exact Hassign|exact Hlookup].
Defined.

(** X3: scopes shadow.  When the parent frame declares [x] and the child
    frame does not, a lookup from the child finds the parent's value; after
    the child declares [x] itself, a lookup from the child finds the child's
    value while a lookup from the parent still finds the parent's. *)
Theorem child_scope_shadows child p x v w c st ce pe :
  envs st !! child = Some ce -> parent ce = Some p ->
  variables ce !! x = None ->
  envs st !! p = Some pe -> variables pe !! x = Some v ->
  LookupVar child x st = Ok v st /\
  exists st',
    DeclareVar child x w c st = Ok w st' /\
    LookupVar child x st' = Ok w st' /\
    LookupVar p x st' = Ok v st'.
Proof.
  intros Hce Hparent Hfresh Hpe Hx. split.
  - unfold LookupVar, resolve, bind.
    pose proof (lookup_lt_Some _ _ _ Hce) as Hlt.
    destruct (length (envs st)) as [|n] eqn:Hlen; [lia|].
    rewrite (resolveFrom_up _ _ _ _ _ _ Hce Hfresh Hparent).
    rewrite (resolveFrom_here _ _ _ _ _ _ Hpe Hx), (deref_at _ _ _ Hpe).
    by rewrite Hx.
  - exists (withVar child ce x w c st).
    split; [by apply DeclareVar_fresh|]. split.
    + eapply LookupVar_here; [by apply withVar_at|]. cbn.
      apply lookup_insert_eq.
    + assert (child <> p) as Hne by (intros ->; congruence).
      eapply LookupVar_here; [|done].
      by rewrite withVar_other.
Qed.

Lemma child_scope_shadows_witness :
  envs callState !! 1%nat = Some callFrame /\
  parent callFrame = Some 0%nat /\
  variables callFrame !! "true" = None /\
  envs callState !! 0%nat = Some globalFrame /\
  variables globalFrame !! "true" = Some (BoolVal true) /\
  LookupVar 1%nat "true" callState = Ok (BoolVal true) callState.
Proof.
  do 5 (split; [vm_compute; reflexivity|]).
  apply (child_scope_shadows 1%nat 0%nat "true" (BoolVal true) NadaVal false
           callState callFrame globalFrame); vm_compute; reflexivity.
Defined.

(** ** Counted loops *)

(** One call of the built-in [print] on a string literal, where the frame
    of the call declares [print]: the line is written, nothing else
    changes. *)
Lemma print_literal_writes (FormatFloat : float64 -> string) fuel env st e
    name text :
  envs st !! env = Some e ->
  variables e !! "print" = Some (NativeFunctionValue printCall name) ->
  Evaluate FormatFloat (S (S fuel)) (Some (printOf (StringLiteral text)))
    env st = Ok NadaVal (withLine [StringVal text] st).
Proof.
  intros He Hprint. unfold printOf. step_Evaluate.
  unfold evalCallExpr. cbn [evalArgs]. rewrite Evaluate_S.
  cbn [EvaluateNode]. unfold bind at 1 2 3. cbn [ret].
  unfold bind at 1. rewrite Evaluate_S. cbn [EvaluateNode].
  unfold evalIdentifier. rewrite (LookupVar_here _ _ _ _ _ He Hprint).
  reflexivity.
Qed.

Lemma repeat_print_writes (FormatFloat : float64 -> string) fuel env e name
    text k :
  variables e !! "print" = Some (NativeFunctionValue printCall name) ->
  forall last st,
    envs st !! env = Some e ->
    written
      (repeatStatements (Evaluate FormatFloat (S (S fuel))) k
         [printOf (StringLiteral text)] env last st) =
    Some (stdout st ++ replicate k [StringVal text])%list.
Proof.
  intros Hprint. induction k as [|k IH]; intros last st He.
  - cbn. by rewrite app_nil_r.
  - rewrite repeatStatements_S. unfold bind. rewrite inOrder_cons. unfold bind.
    rewrite (print_literal_writes _ _ _ _ _ _ _ He Hprint).
    unfold inOrder. cbn [foldl ret]. rewrite IH by done.
    cbn [withLine stdout replicate]. by rewrite <- app_assoc.
Qed.

(** C7 (as the code has it): when the count expression of a [for]
    evaluates to a Number [n], the statements of the body are evaluated in
    order, in the scope of the statement, [max 0 (int n)] times over, [int]
    being Go's conversion of the count to [int]; when it evaluates to
    anything else, the statement fails with the "For loop count must
    evaluate to a number" error.
    - A body that prints a text writes exactly that many lines.
    - The number of runs is the integer part [z] of the count when
      [0 <= z <= max_int], and none for a count below 1.
    - For a count whose integer part is beyond [max_int] the conversion is
      not the integer part (it is the least [int] on amd64), and the body
      does not run. *)
Theorem ForStmt_runs_body_count_times (FormatFloat : float64 -> string) :
  (forall fuel Condition Body env st n st1,
      Evaluate FormatFloat fuel (Some Condition) env st =
        Ok (NumberVal n) st1 ->
      Evaluate FormatFloat (S fuel) (Some (ForStmt Condition Body)) env st =
      repeatStatements (Evaluate FormatFloat fuel)
        (Z.to_nat (Z.max 0 (to_int n))) Body env NilVal st1) /\
  (forall fuel Condition env st n st1 e name text,
      Evaluate FormatFloat (S (S fuel)) (Some Condition) env st =
        Ok (NumberVal n) st1 ->
      envs st1 !! env = Some e ->
      variables e !! "print" = Some (NativeFunctionValue printCall name) ->
      written
        (Evaluate FormatFloat (S (S (S fuel)))
           (Some (ForStmt Condition [printOf (StringLiteral text)])) env st) =
      Some (stdout st1 ++
            replicate (Z.to_nat (Z.max 0 (to_int n))) [StringVal text])%list) /\
  (forall fuel Condition Body env st v st1,
      Evaluate FormatFloat fuel (Some Condition) env st = Ok v st1 ->
      (forall n, v <> NumberVal n) ->
      Evaluate FormatFloat (S fuel) (Some (ForStmt Condition Body)) env st =
      Err ForCountNotNumber st1) /\
  (forall n z,
      truncate n = Some z -> 0 <= z <= max_int ->
      Z.to_nat (Z.max 0 (to_int n)) = Z.to_nat z) /\
  (forall n,
      valid_binary prec emax n = true -> Float64.ltb n one = true ->
      Z.to_nat (Z.max 0 (to_int n)) = O) /\
  (forall n z,
      truncate n = Some z -> max_int < z ->
      Z.to_nat (Z.max 0 (to_int n)) = O).
Proof.
  assert (Hfor : forall fuel Condition Body env st n st1,
            Evaluate FormatFloat fuel (Some Condition) env st =
              Ok (NumberVal n) st1 ->
            Evaluate FormatFloat (S fuel) (Some (ForStmt Condition Body))
              env st =
            repeatStatements (Evaluate FormatFloat fuel)
              (Z.to_nat (Z.max 0 (to_int n))) Body env NilVal st1).
  { intros fuel Condition Body env st n st1 Hcount. step_Evaluate.
    unfold evalForStmt. rewrite (bind_Ok _ _ _ _ _ Hcount).
    rewrite forLoop_repeat by lia. f_equal. lia. }
  split; [exact Hfor|]. split; [|split; [|split; [|split]]].
  - intros fuel Condition env st n st1 e name text Hcount He Hprint.
    rewrite (Hfor _ _ _ _ _ _ _ Hcount).
    by apply (repeat_print_writes FormatFloat fuel env e name).
  - intros fuel Condition Body env st v st1 Hcount Hnot. step_Evaluate.
    unfold evalForStmt. rewrite (bind_Ok _ _ _ _ _ Hcount).
    destruct v; try reflexivity. by destruct (Hnot Value).
  - intros n z Htrunc Hz.
    rewrite (to_int_representable n z Htrunc) by (unfold min_int; lia). lia.
  - intros n Hvalid Hlt. by rewrite (to_int_below_one n Hvalid Hlt).
  - intros n z Htrunc Hz. unfold to_int. rewrite Htrunc.
    destruct (Z.leb_spec z max_int); [lia|].
    rewrite andb_false_r. reflexivity.
Qed.

Lemma ForStmt_runs_body_count_times_witness :
  Evaluate noFormat 2 (Some (number 3)) 0%nat globalState =
    Ok (NumberVal (of_Z 3)) globalState /\
  envs globalState !! 0%nat = Some globalFrame /\
  variables globalFrame !! "print" =
    Some (NativeFunctionValue printCall "print") /\
  Z.to_nat (Z.max 0 (to_int (of_Z 3))) = 3%nat /\
  written
    (Evaluate noFormat 3
       (Some (ForStmt (number 3) [printOf (StringLiteral "x")])) 0%nat
       globalState) =
  Some (stdout globalState ++
        replicate (Z.to_nat (Z.max 0 (to_int (of_Z 3)))) [StringVal "x"])%list.
Proof.
  do 4 (split; [vm_compute; reflexivity|]).
  apply (proj1 (proj2 (ForStmt_runs_body_count_times noFormat)) 0%nat
           (number 3) 0%nat globalState (of_Z 3) globalState globalFrame
           "print" "x");
    vm_compute; reflexivity.
Defined.

(** C7 as stated fails: 10^19 is an integer count that is at least 0, and
    [for (10000000000000000000) { print("x") }] returns without a line
    written: the body is not run once, whereas running it 10^19 times writes
    lines. *)
Lemma ForStmt_count_beyond_int_runs_nothing :
  truncate (of_Z (10 ^ 19)) = Some (10 ^ 19) /\
  written
    (run noFormat 4
       (Program [ForStmt (NumericLiteral (of_Z (10 ^ 19)))
                   [printOf (StringLiteral "x")]])) = Some [] /\
  written
    (repeatStatements (Evaluate noFormat 2) (Z.to_nat (10 ^ 19))
       [printOf (StringLiteral "x")] 0%nat NilVal globalState) <> Some [].
Proof.
  split; [vm_compute; reflexivity|]. split; [vm_compute; reflexivity|].
  rewrite (repeat_print_writes noFormat 0 0%nat globalFrame "print" "x"
             (Z.to_nat (10 ^ 19)) ltac:(vm_compute; reflexivity) NilVal
             globalState ltac:(vm_compute; reflexivity)).
  assert (Hk : exists k, Z.to_nat (10 ^ 19) = S k).
  { exists (Z.to_nat (10 ^ 19 - 1)). lia. }
  destruct Hk as [k ->]. cbn [replicate].
  intros Hnil. injection Hnil as Hnil.
  apply app_nil in Hnil as [_ Hnil]. discriminate Hnil.
Qed.

(** ** What evaluation keeps *)

Section KeepsBasics.

Context {A B : Type}.
Variable I : State -> Prop.

Lemma keeps_ret (v : A) : keeps I (ret v).
Proof. intros st st' Hst [= <-]. exact Hst. Qed.

Lemma keeps_fail e : keeps I (@fail A e).
Proof. intros st st' Hst [= <-]. exact Hst. Qed.

Lemma keeps_throw p : keeps I (@throw A p).
Proof. intros st st' Hst [= <-]. exact Hst. Qed.

Lemma keeps_out_of_fuel : keeps I (fun _ => @OutOfFuel A).
Proof. by intros st st' Hst. Qed.

Lemma keeps_bind (m : M A) (k : A -> M B) :
  keeps I m -> (forall v, keeps I (k v)) -> keeps I (bind m k).
Proof.
  intros Hm Hk st st' Hst. unfold bind.
  destruct (m st) as [v st1|e st1|p st1|] eqn:Hrun; cbn; try done.
  - apply Hk. apply (Hm st); [done|]. by rewrite Hrun.
  - intros [= <-]. apply (Hm st); [done|]. by rewrite Hrun.
  - intros [= <-]. apply (Hm st); [done|]. by rewrite Hrun.
Qed.

Lemma keeps_ignoreError (m : M A) : keeps I m -> keeps I (ignoreError m).
Proof.
  intros Hm st st' Hst. unfold ignoreError.
  destruct (m st) as [v st1|e st1|p st1|] eqn:Hrun; cbn; try done;
    intros [= <-]; apply (Hm st); try done; by rewrite Hrun.
Qed.

Lemma keeps_unchanged (m : M A) : unchanged m -> keeps I m.
Proof. intros Hm st st' Hst Hrun. by rewrite (Hm _ _ Hrun). Qed.

End KeepsBasics.

Lemma unchanged_ret {A} (v : A) : unchanged (ret v).
Proof. by intros st st' [= <-]. Qed.

Lemma unchanged_fail {A} e : unchanged (@fail A e).
Proof. by intros st st' [= <-]. Qed.

Lemma unchanged_throw {A} p : unchanged (@throw A p).
Proof. by intros st st' [= <-]. Qed.

Lemma unchanged_bind {A B} (m : M A) (k : A -> M B) :
  unchanged m -> (forall v, unchanged (k v)) -> unchanged (bind m k).
Proof.
  intros Hm Hk st st'. unfold bind.
  destruct (m st) as [v st1|e st1|p st1|] eqn:Hrun; cbn; try done.
  - intros Hk'. apply Hk in Hk' as ->. apply Hm. by rewrite Hrun.
  - intros [= <-]. apply Hm. by rewrite Hrun.
  - intros [= <-]. apply Hm. by rewrite Hrun.
Qed.

Lemma unchanged_deref env : unchanged (deref env).
Proof.
  intros st st'. unfold deref. by destruct (envs st !! env); intros [= <-].
Qed.

Lemma unchanged_resolveFrom bound env x : unchanged (resolveFrom bound env x).
Proof.
  revert env. induction bound as [|bound IH]; intros env; cbn;
    (apply unchanged_bind; [apply unchanged_deref|]); intros e;
    destruct (variables e !! x); try apply unchanged_ret;
    destruct (parent e); try apply unchanged_throw; [done|apply IH].
Qed.

Lemma unchanged_resolve env x : unchanged (resolve env x).
Proof. intros st st'. apply unchanged_resolveFrom. Qed.

Lemma unchanged_LookupVar env x : unchanged (LookupVar env x).
Proof.
  unfold LookupVar. apply unchanged_bind; [apply unchanged_resolve|].
  intros p. apply unchanged_bind; [apply unchanged_deref|].
  intros e. apply unchanged_ret.
Qed.

Lemma unchanged_evalNumericBinaryExpr l r op :
  unchanged (evalNumericBinaryExpr l r op).
Proof.
  unfold evalNumericBinaryExpr, intRem.
  repeat (destruct (opIs op _); [apply unchanged_ret|]).
  destruct (opIs op _).
  { destruct (Float64.eqb r zero); apply unchanged_ret. }
  destruct (opIs op _); [|apply unchanged_fail].
  apply unchanged_bind; [|intros z; apply unchanged_ret].
  destruct (_ =? 0); [apply unchanged_throw|apply unchanged_ret].
Qed.

Section EvaluateKeeps.

Variable FormatFloat : float64 -> string.
Variable I : State -> Prop.

(** The four operations through which the evaluator changes the state. *)
Hypothesis DeclareVar_keeps :
  forall env x v c, keeps I (DeclareVar env x v c).
Hypothesis AssignVal_keeps : forall env x v, keeps I (AssignVal env x v).
Hypothesis NewEnvironment_keeps :
  forall p, keeps I (NewEnvironment (Some p)).
Hypothesis callNative_keeps :
  forall fn args env, keeps I (callNative fn args env).

Section KeptNodes.

Variable Ev : option Stmt -> EnvPtr -> M RuntimeVal.
Hypothesis Ev_keeps : forall node env, keeps I (Ev node env).

Ltac keeps_step :=
  first
    [ apply keeps_ret | apply keeps_fail | apply keeps_throw
    | apply keeps_out_of_fuel
    | apply Ev_keeps | apply DeclareVar_keeps | apply AssignVal_keeps
    | apply NewEnvironment_keeps | apply callNative_keeps
    | apply keeps_ignoreError
    | apply keeps_unchanged; first
        [ apply unchanged_LookupVar | apply unchanged_evalNumericBinaryExpr ]
    | apply keeps_bind; [|intros ?]
    | lazymatch goal with
      | |- keeps _ (match ?x with _ => _ end) => destruct x
      end ].

Lemma evalArgs_keeps args env : keeps I (evalArgs Ev args env).
Proof. induction args as [|a rest IH]; cbn; repeat keeps_step. exact IH. Qed.

Lemma evalProperties_keeps props env object :
  keeps I (evalProperties Ev props env object).
Proof.
  revert object. induction props as [|[k v] rest IH]; intros object; cbn;
    repeat keeps_step; apply IH.
Qed.

Lemma evalStatements_keeps body env init :
  keeps I (evalStatements Ev body env init).
Proof.
  revert init. induction body as [|s rest IH]; intros init; cbn;
    repeat keeps_step. apply IH.
Qed.

Lemma callBody_keeps body scope : keeps I (callBody Ev body scope).
Proof.
  induction body as [|s rest IH]; cbn; repeat keeps_step; exact IH.
Qed.

Lemma bindParameters_keeps scope params args :
  keeps I (bindParameters scope params args).
Proof.
  revert args. induction params as [|x ps IH]; intros [|a rest]; cbn;
    repeat keeps_step. apply IH.
Qed.

Lemma callFunction_keeps fn args env : keeps I (callFunction Ev fn args env).
Proof.
  unfold callFunction. repeat keeps_step.
  - apply bindParameters_keeps.
  - apply callBody_keeps.
Qed.

Lemma whileLoop_keeps budget cond body env result :
  keeps I (whileLoop Ev budget cond body env result).
Proof.
  revert result. induction budget as [|budget IH]; intros result; cbn;
    repeat keeps_step; try apply evalStatements_keeps. apply IH.
Qed.

Lemma forLoop_keeps steps i n body env last :
  keeps I (forLoop Ev steps i n body env last).
Proof.
  revert i last. induction steps as [|steps IH]; intros i last; cbn;
    destruct (i <? n); repeat keeps_step;
    try apply evalStatements_keeps. apply IH.
Qed.

Lemma EvaluateNode_keeps budget node env :
  keeps I (EvaluateNode FormatFloat Ev budget node env).
Proof.
  destruct node as [node|]; [|apply keeps_fail].
  destruct node; cbn [EvaluateNode];
    unfold evalProgram, evalVarDeclaration, evalFunctionDeclaration,
      evalIfStmt, evalWhileStmt, evalForStmt, evalReturnStmt,
      evalAssignmentExpr, evalCallExpr, evalMemberExpr, evalLogicalExpr,
      evalBinaryExpr, evalUnaryExpr, evalIdentifier, evalObjectExpr;
    repeat keeps_step;
    first [ apply evalStatements_keeps | apply whileLoop_keeps
          | apply forLoop_keeps | apply evalArgs_keeps
          | apply callFunction_keeps | apply evalProperties_keeps
          | idtac ].
  all: repeat (destruct (opIs _ _); repeat keeps_step).
Qed.

End KeptNodes.

(** Whatever the four state-changing operations keep, evaluation keeps. *)
Lemma Evaluate_keeps fuel node env :
  keeps I (Evaluate FormatFloat fuel node env).
Proof.
  revert node env. induction fuel as [|fuel IH]; intros node env.
  - apply keeps_out_of_fuel.
  - apply EvaluateNode_keeps. exact IH.
Qed.

End EvaluateKeeps.

(** The ways in which the four operations end. *)

Lemma DeclareVar_ends env x v c st st' :
  finalState (DeclareVar env x v c st) = Some st' ->
  st' = st \/
  exists e, envs st !! env = Some e /\ variables e !! x = None /\
            st' = withVar env e x v c st.
Proof.
  destruct (envs st !! env) as [e|] eqn:He.
  - destruct (variables e !! x) as [old|] eqn:Hx.
    + unfold DeclareVar, bind. rewrite (deref_at _ _ _ He), Hx.
      intros [= <-]. by left.
    + rewrite (DeclareVar_fresh _ _ _ _ _ _ He Hx). intros [= <-].
      right. by exists e.
  - unfold DeclareVar, bind, deref. rewrite He. intros [= <-]. by left.
Qed.

Lemma AssignVal_ends env x w st st' :
  finalState (AssignVal env x w st) = Some st' ->
  st' = st \/
  exists target e,
    envs st !! target = Some e /\ is_Some (variables e !! x) /\
    (x ∉ constants e) /\ st' = withVar target e x w false st.
Proof.
  unfold AssignVal, bind.
  destruct (resolve env x st) as [target st1|err st1|p st1|] eqn:Hres;
    cbn; try done.
  - destruct (resolveFrom_found _ _ _ _ _ _ Hres) as (-> & e & old & He & Hx).
    rewrite (deref_at _ _ _ He).
    destruct (decide (x ∈ constants e)) as [Hc|Hc]; [intros [= <-]; by left|].
    unfold setVar, store, bind. rewrite (deref_at _ _ _ He). intros [= <-].
    right. exists target, e. by rewrite Hx.
  - intros [= <-]. left.
    apply (unchanged_resolve env x st). by rewrite Hres.
  - intros [= <-]. left.
    apply (unchanged_resolve env x st). by rewrite Hres.
Qed.

Lemma NewEnvironment_ends p st st' :
  finalState (NewEnvironment (Some p) st) = Some st' -> st' = withFrame p st.
Proof. by intros [= <-]. Qed.

Lemma callNative_ends fn args env st st' :
  finalState (callNative fn args env st) = Some st' ->
  st' = st \/ st' = withLine args st.
Proof.
  destruct fn. cbn. destruct (existsb _ args); intros [= <-]; by eauto.
Qed.

(** Whatever the four kinds of change keep, every evaluation keeps,
    however it ends. *)
Lemma Evaluate_steps (FormatFloat : float64 -> string) (I : State -> Prop) :
  (forall st st', I st -> changes st st' -> I st') ->
  forall fuel node env st st',
    I st ->
    finalState (Evaluate FormatFloat fuel node env st) = Some st' ->
    I st'.
Proof.
  intros Hstep fuel node env.
  apply (Evaluate_keeps FormatFloat I).
  - intros env0 x v c st st' Hst
      [->|(e & He & Hx & ->)]%DeclareVar_ends; [done|].
    apply (Hstep st); [done|]. by constructor.
  - intros env0 x v st st' Hst
      [->|(target & e & He & Hx & Hc & ->)]%AssignVal_ends; [done|].
    apply (Hstep st); [done|]. by constructor.
  - intros p st st' Hst ->%NewEnvironment_ends.
    apply (Hstep st); [done|]. by constructor.
  - intros fn args env0 st st' Hst [->| ->]%callNative_ends; [done|].
    apply (Hstep st); [done|]. by constructor.
Qed.

(** X5: evaluation changes the interpreter state in four ways only - a name
    that a frame does not have is declared in it, a variable that is not
    constant in its frame is given a value, a frame that is not global is
    put at the end of the heap, a line is put at the end of the output.
    The state in which an evaluation ends, whether it returns, fails or
    panics, is reached from the state in which it starts by a sequence of
    such changes. *)
Theorem Evaluate_changes_by_steps (FormatFloat : float64 -> string)
    fuel node env st st' :
  finalState (Evaluate FormatFloat fuel node env st) = Some st' ->
  rtc changes st st'.
Proof.
  apply (Evaluate_steps FormatFloat (rtc changes st)); [|done].
  intros st1 st2 Hst1 Hstep. by eapply rtc_r.
Qed.

Lemma Evaluate_changes_by_steps_witness :
  rtc changes globalState afterCountdown.
Proof.
  apply (Evaluate_changes_by_steps noFormat 8 (Some countdown) 0%nat).
  vm_compute. reflexivity.
Defined.

(** X6: what [print] has written stays written - the output after an
    evaluation, however it ends, begins with the output before it. *)
Theorem output_only_grows (FormatFloat : float64 -> string)
    fuel node env st st' :
  finalState (Evaluate FormatFloat fuel node env st) = Some st' ->
  stdout st `prefix_of` stdout st'.
Proof.
  apply (Evaluate_steps FormatFloat (outputExtends st));
    [|unfold outputExtends; reflexivity].
  unfold outputExtends. intros st1 st2 Hst1 Hstep.
  destruct Hstep; cbn; try done. by apply prefix_app_r.
Qed.

Lemma output_only_grows_witness :
  stdout globalState `prefix_of` stdout afterCountdown.
Proof.
  apply (output_only_grows noFormat 8 (Some countdown) 0%nat).
  vm_compute. reflexivity.
Defined.

Lemma framesExtend_refl st : framesExtend st st.
Proof. intros i e He. exists e. by repeat split. Qed.

Lemma framesExtend_withVar st0 st env e x v c :
  framesExtend st0 st ->
  envs st !! env = Some e ->
  (forall e0 w, envs st0 !! env = Some e0 -> x ∈ constants e0 ->
                variables e0 !! x = Some w -> False) ->
  framesExtend st0 (withVar env e x v c st).
Proof.
  intros Hext He Hx i e0 He0.
  destruct (Hext i e0 He0) as (e1 & He1 & Hp & Hg & Hdom & Hcs & Hval).
  destruct (decide (i = env)) as [->|Hne].
  - injection (eq_trans (eq_sym He) He1) as <-.
    eexists. split; [by eapply withVar_at|]. cbn.
    repeat split; [done|done| | |].
    + rewrite dom_insert. set_solver.
    + destruct c; set_solver.
    + intros y w Hy Hyw. rewrite lookup_insert_ne; [by apply Hval|].
      intros <-. by apply (Hx e0 w).
  - exists e1. by rewrite withVar_other.
Qed.

Lemma Evaluate_framesExtend (FormatFloat : float64 -> string)
    fuel node env st st' :
  finalState (Evaluate FormatFloat fuel node env st) = Some st' ->
  framesExtend st st'.
Proof.
  apply (Evaluate_steps FormatFloat (framesExtend st));
    [|apply framesExtend_refl].
  intros st1 st2 Hst1 Hstep.
  destruct Hstep as [st1 env1 e1 x v c He1 Hx|st1 env1 e1 x v He1 Hx Hc
                    |st1 p|st1 args].
  - apply framesExtend_withVar; [done..|].
    intros e0 w He0 Hc Hw.
    destruct (Hst1 env1 e0 He0) as (e2 & He2 & _ & _ & _ & _ & Hval).
    injection (eq_trans (eq_sym He1) He2) as <-.
    rewrite (Hval x w Hc Hw) in Hx. done.
  - apply framesExtend_withVar; [done..|].
    intros e0 w He0 Hc0 Hw.
    destruct (Hst1 env1 e0 He0) as (e2 & He2 & _ & _ & _ & Hcs & _).
    injection (eq_trans (eq_sym He1) He2) as <-. set_solver.
  - intros i e He.
    destruct (Hst1 i e He) as (e1 & He1 & Hrest).
    exists e1. split; [|done]. cbn. by apply lookup_app_l_Some.
  - exact Hst1.
Qed.

(** X7: frames are never taken away or changed in place - after an
    evaluation, however it ends, every frame of the heap is still at its
    index, with the same parent and the same global flag; the names it had
    declared are still declared, its constants are still constants, and
    every constant still has the value it had. *)
Theorem frames_persist (FormatFloat : float64 -> string)
    fuel node env st st' i e :
  finalState (Evaluate FormatFloat fuel node env st) = Some st' ->
  envs st !! i = Some e ->
  exists e', envs st' !! i = Some e' /\
    parent e' = parent e /\ global e' = global e /\
    dom (variables e) ⊆ dom (variables e') /\
    constants e ⊆ constants e' /\
    forall x v, x ∈ constants e -> variables e !! x = Some v ->
                variables e' !! x = Some v.
Proof.
  intros Hrun. by apply (Evaluate_framesExtend FormatFloat fuel node env).
Qed.

Lemma frames_persist_witness :
  exists e',
    envs afterCountdown !! 0%nat = Some e' /\
    parent e' = parent globalFrame /\ global e' = global globalFrame /\
    dom (variables globalFrame) ⊆ dom (variables e') /\
    constants globalFrame ⊆ constants e' /\
    forall x v, x ∈ constants globalFrame ->
                variables globalFrame !! x = Some v ->
                variables e' !! x = Some v.
Proof.
  apply (frames_persist noFormat 8 (Some countdown) 0%nat globalState);
    vm_compute; reflexivity.
Defined.

Lemma constantsDeclared_withVar st env e x v c :
  constantsDeclared st -> envs st !! env = Some e ->
  constantsDeclared (withVar env e x v c st).
Proof.
  unfold constantsDeclared. rewrite !Forall_lookup. cbn.
  intros Hst He i e' Hi.
  destruct (decide (i = env)) as [->|Hne].
  - rewrite list_lookup_insert_eq in Hi by (by eapply lookup_lt_Some).
    injection Hi as <-. cbn. intros y Hy.
    apply lookup_insert_is_Some.
    destruct (decide (x = y)) as [|Hxy]; [by left|right; split; [done|]].
    apply (Hst env e He). destruct c; [|done].
    apply elem_of_union in Hy as [Hy%elem_of_singleton|Hy]; [|done].
    by destruct Hxy.
  - rewrite list_lookup_insert_ne in Hi by done. by apply (Hst i e').
Qed.

(** X8: a constant always has a value - when every name a frame lists as a
    constant is declared in that frame before an evaluation, the same holds
    after it, however it ends. *)
Theorem constants_stay_declared (FormatFloat : float64 -> string)
    fuel node env st st' :
  constantsDeclared st ->
  finalState (Evaluate FormatFloat fuel node env st) = Some st' ->
  constantsDeclared st'.
Proof.
  apply (Evaluate_steps FormatFloat constantsDeclared).
  intros st1 st2 Hst1 Hstep.
  destruct Hstep as [st1 env1 e1 x v c He1 Hx|st1 env1 e1 x v He1 Hx Hc
                    |st1 p|st1 args].
  - by apply constantsDeclared_withVar.
  - by apply constantsDeclared_withVar.
  - unfold constantsDeclared in *. cbn.
    apply Forall_app. split; [done|]. apply Forall_singleton. cbn.
    set_solver.
  - exact Hst1.
Qed.

Lemma DeclareVar_keeps_constantsDeclared env x v c :
  keeps constantsDeclared (DeclareVar env x v c).
Proof.
  intros st st' Hst [->|(e & He & _ & ->)]%DeclareVar_ends; [done|].
  by apply constantsDeclared_withVar.
Qed.

Lemma constantsDeclared_globalState : constantsDeclared globalState.
Proof.
  assert (Hnew : keeps constantsDeclared (NewEnvironment None)).
  { intros st st' Hst. unfold NewEnvironment. cbn [negb].
    apply keeps_bind.
    - unfold setupGlobalScope.
      repeat (apply keeps_bind; [|intros _]);
        apply keeps_ignoreError, DeclareVar_keeps_constantsDeclared.
    - intros _. apply keeps_ret.
    - unfold constantsDeclared in *. cbn. apply Forall_app. split; [done|].
      apply Forall_singleton. cbn. set_solver. }
  unfold globalState.
  destruct (NewEnvironment None emptyState) as [v st| | |] eqn:Hrun;
    try by apply Forall_nil.
  apply (Hnew emptyState); [by apply Forall_nil|]. by rewrite Hrun.
Qed.

Lemma constants_stay_declared_witness : constantsDeclared afterCountdown.
Proof.
  apply (constants_stay_declared noFormat 8 (Some countdown) 0%nat
           globalState).
  - exact constantsDeclared_globalState.
  - vm_compute. reflexivity.
Defined.

(** ** The built-ins *)

Lemma run_globalState (FormatFloat : float64 -> string) fuel program :
  run FormatFloat fuel program =
  Evaluate FormatFloat fuel (Some program) 0%nat globalState.
Proof.
  unfold run, bind.
  assert (Hnew : NewEnvironment None emptyState = Ok 0%nat globalState)
    by (vm_compute; reflexivity).
  by rewrite Hnew.
Qed.

Lemma AssignVal_constant_here env x w st e v :
  envs st !! env = Some e -> variables e !! x = Some v ->
  x ∈ constants e ->
  AssignVal env x w st = Err (AssignToConstant x) st.
Proof.
  intros He Hx Hc. unfold AssignVal, resolve, bind.
  rewrite (resolveFrom_here _ _ _ _ _ _ He Hx), (deref_at _ _ _ He).
  by rewrite decide_True.
Qed.

Lemma DeclareVar_declared env x w c st e v :
  envs st !! env = Some e -> variables e !! x = Some v ->
  DeclareVar env x w c st = Err (AlreadyDefined x) st.
Proof.
  intros He Hx. unfold DeclareVar, bind. by rewrite (deref_at _ _ _ He), Hx.
Qed.

Lemma builtins_globalFrame x v :
  (x, v) ∈ builtins ->
  variables globalFrame !! x = Some v /\ x ∈ constants globalFrame.
Proof.
  unfold builtins. rewrite !elem_of_cons.
  intros [[= -> ->]|[[= -> ->]|[[= -> ->]|[[= -> ->]|Hin]]]];
    [..|by apply elem_of_nil in Hin];
    (split; [vm_compute; reflexivity|]).
  - apply (bool_decide_unpack ("nada" ∈ constants globalFrame)).
    vm_compute. exact I.
  - apply (bool_decide_unpack ("true" ∈ constants globalFrame)).
    vm_compute. exact I.
  - apply (bool_decide_unpack ("false" ∈ constants globalFrame)).
    vm_compute. exact I.
  - apply (bool_decide_unpack ("print" ∈ constants globalFrame)).
    vm_compute. exact I.
Qed.

(** X9: a program cannot change the built-ins.  In the state in which a run
    ends, whether it returned, failed or panicked, each of [nada], [true],
    [false] and [print] has in the global frame the value
    [setupGlobalScope] gave it; assigning to it fails as an assignment to a
    constant and declaring it again fails as a redeclaration. *)
Theorem builtins_stay (FormatFloat : float64 -> string) fuel program st'
    x v :
  finalState (run FormatFloat fuel program) = Some st' ->
  (x, v) ∈ builtins ->
  LookupVar 0%nat x st' = Ok v st' /\
  (forall w, AssignVal 0%nat x w st' = Err (AssignToConstant x) st') /\
  (forall w c, DeclareVar 0%nat x w c st' = Err (AlreadyDefined x) st').
Proof.
  rewrite run_globalState. intros Hrun [Hx Hc]%builtins_globalFrame.
  destruct (Evaluate_framesExtend _ _ _ _ _ _ Hrun 0%nat globalFrame)
    as (e' & He' & _ & _ & _ & Hcs & Hval); [by vm_compute|].
  pose proof (Hval x v Hc Hx) as Hx'.
  split; [by eapply LookupVar_here|]. split.
  - intros w. eapply AssignVal_constant_here; [done..|]. by apply Hcs.
  - intros w c. by eapply DeclareVar_declared.
Qed.

Lemma builtins_stay_witness :
  LookupVar 0%nat "true" afterCountdown = Ok (BoolVal true) afterCountdown.
Proof.
  refine (proj1 (builtins_stay noFormat 8 countdown afterCountdown "true"
                   (BoolVal true) _ _)).
  - vm_compute. reflexivity.
  - unfold builtins. rewrite !elem_of_cons. by right; left.
Defined.

(** ** Comparing values *)

Lemma SFcompare_antisym (x y : float64) :
  SFcompare y x = CompOpp <$> SFcompare x y.
Proof.
  destruct x as [sx|sx| |sx mx ex], y as [sy|sy| |sy my ey]; cbn;
    try done; try (by destruct sx); try (by destruct sy);
    try (by destruct sx, sy).
  change (PosDef.Pos.compare_cont Eq my mx) with (Pos.compare my mx).
  change (PosDef.Pos.compare_cont Eq mx my) with (Pos.compare mx my).
  rewrite (Z.compare_antisym ex ey), (Pos.compare_antisym mx my).
  destruct sx, sy; try done;
    by destruct (ex ?= ey), (Pos.compare mx my).
Qed.

Lemma float64_eqb_sym (x y : float64) : Float64.eqb x y = Float64.eqb y x.
Proof.
  unfold Float64.eqb, SFeqb. rewrite (SFcompare_antisym x y).
  by destruct (SFcompare x y) as [[]|].
Qed.

Lemma objectsEqual_lookup a b :
  objectsEqual a b = true <->
  size a = size b /\
  forall k va, a !! k = Some va ->
    exists vb, b !! k = Some vb /\ deepEqual va vb = true.
Proof.
  unfold objectsEqual. destruct (Nat.eqb_spec (size a) (size b)) as [Hs|Hs];
    cbn [negb]; [|split; [done|by intros [? _]]].
  rewrite (map_fold_andb_true
             (fun key valA => match b !! key with
                              | Some valB => deepEqual valA valB
                              | None => false
                              end)).
  split.
  - intros Hall. split; [done|]. intros k va Hk.
    specialize (Hall k va Hk). cbn in Hall.
    destruct (b !! k) as [vb|]; [by exists vb|done].
  - intros [_ Hall] k va Hk. cbn.
    by destruct (Hall k va Hk) as (vb & -> & ?).
Qed.

Lemma objectsEqual_dom a b : objectsEqual a b = true -> dom a = dom b.
Proof.
  intros [Hs Hall]%objectsEqual_lookup.
  apply (set_subseteq_size_eq (dom a) (dom b)).
  - intros k [va Hk]%elem_of_dom.
    destruct (Hall k va Hk) as (vb & Hb & _). apply elem_of_dom. by eexists.
  - rewrite !size_dom. lia.
Qed.

(** X10: two objects are equal exactly when they have the same keys and,
    under each key, equal values; the name of an object plays no part. *)
Theorem objects_equal_by_keys a an b bn :
  deepEqual (ObjectVal a an) (ObjectVal b bn) = true <->
  dom a = dom b /\
  forall k va vb, a !! k = Some va -> b !! k = Some vb ->
                  deepEqual va vb = true.
Proof.
  rewrite deepEqual_objects. split.
  - intros Heq. split; [by apply objectsEqual_dom|].
    apply objectsEqual_lookup in Heq as [_ Hall]. intros k va vb Ha Hb.
    destruct (Hall k va Ha) as (vb' & Hb' & ?). congruence.
  - intros [Hdom Hall]. apply objectsEqual_lookup. split.
    + by rewrite <- !size_dom, Hdom.
    + intros k va Ha.
      assert (is_Some (b !! k)) as [vb Hb].
      { apply elem_of_dom. rewrite <- Hdom. apply elem_of_dom. by eexists. }
      exists vb. split; [done|]. by eapply Hall.
Qed.

Lemma objectsEqual_sym a b :
  (forall k va vb, a !! k = Some va -> deepEqual va vb = deepEqual vb va) ->
  objectsEqual a b = objectsEqual b a.
Proof.
  intros IH. apply eq_true_iff_eq.
  split; intros Heq; pose proof (objectsEqual_dom _ _ Heq) as Hdom;
    apply objectsEqual_lookup in Heq as [Hs Hall];
    apply objectsEqual_lookup; (split; [done|]).
  - intros k vb Hb.
    assert (is_Some (a !! k)) as [va Ha].
    { apply elem_of_dom. rewrite Hdom. apply elem_of_dom. by eexists. }
    exists va. split; [done|].
    destruct (Hall k va Ha) as (vb' & Hb' & Heq).
    rewrite Hb in Hb'. injection Hb' as <-. by rewrite <- (IH k va vb Ha).
  - intros k va Ha.
    assert (is_Some (b !! k)) as [vb Hb].
    { apply elem_of_dom. rewrite Hdom. apply elem_of_dom. by eexists. }
    exists vb. split; [done|].
    destruct (Hall k vb Hb) as (va' & Ha' & Heq).
    rewrite Ha in Ha'. injection Ha' as <-. by rewrite (IH k va vb Ha).
Qed.

(** X11: [deepEqual] does not depend on the order of its arguments. *)
Theorem deepEqual_sym a b : deepEqual a b = deepEqual b a.
Proof.
  revert b. induction a as [a IHprops _] using RuntimeVal_deep_ind.
  intros b.
  destruct a as [|x|s| |x|pa na|call name|name ps env body|x],
           b as [|y|t| |y|pb nb|call' name'|name' ps' env' body'|y];
    try reflexivity.
  - cbn. apply float64_eqb_sym.
  - cbn. by destruct x, y.
  - rewrite !deepEqual_objects. apply objectsEqual_sym.
    intros k va vb Ha. by eapply IHprops.
Qed.

Lemma float64_leb_ltb_eqb (x y : float64) :
  Float64.leb x y = Float64.ltb x y || Float64.eqb x y.
Proof.
  unfold Float64.leb, Float64.ltb, Float64.eqb, SFleb, SFltb, SFeqb.
  by destruct (SFcompare x y) as [[]|].
Qed.

(** X12: the order comparisons order Numbers and nothing else.  [a <= b]
    holds exactly when both are Numbers and [a < b] or [a == b] holds (so
    [nada <= nada] is false although [nada == nada] is true); [a > b] is
    [b < a] and [a >= b] is [b <= a]; and of [a < b], [a == b], [a > b] no
    two hold together. *)
Theorem order_comparisons_on_Numbers a b :
  (lessEqual a b = true <->
   (exists x y, a = NumberVal x /\ b = NumberVal y) /\
   (lessThan a b = true \/ deepEqual a b = true)) /\
  greaterThan a b = lessThan b a /\
  greaterEqual a b = lessEqual b a /\
  (lessThan a b = true -> deepEqual a b = false /\ greaterThan a b = false).
Proof.
  split; [|split; [|split]].
  - split.
    + destruct a as [|x| | | | | | |], b as [|y| | | | | | |]; try done.
      cbn. rewrite float64_leb_ltb_eqb. intros Hle. split; [by eauto|].
      by apply orb_true_iff.
    + intros [(x & y & -> & ->) Hor]. cbn in *.
      rewrite float64_leb_ltb_eqb. by apply orb_true_iff.
  - by destruct a, b.
  - by destruct a, b.
  - destruct a as [|x| | | | | | |], b as [|y| | | | | | |]; try done.
    cbn. unfold Float64.ltb, Float64.eqb, SFltb, SFeqb.
    rewrite (SFcompare_antisym x y).
    by destruct (SFcompare x y) as [[]|].
Qed.

(** ** Calls *)




Lemma resolveFrom_grown bound env x st st2 target :
  envs st `prefix_of` envs st2 ->
  resolveFrom bound env x st = Ok target st ->
  resolveFrom bound env x st2 = Ok target st2.
Proof.
  intros [more Hmore]. revert env.
  induction bound as [|bound IH]; intros env; cbn; unfold bind, deref;
    destruct (envs st !! env) as [e|] eqn:He; try done;
    rewrite Hmore, (lookup_app_l_Some _ _ _ _ He);
    destruct (variables e !! x); try (by intros [= ->]);
    destruct (parent e); try done.
  apply IH.
Qed.

Lemma LookupVar_found env x v st :
  LookupVar env x st = Ok v st ->
  exists target e,
    resolve env x st = Ok target st /\ envs st !! target = Some e /\
    variables e !! x = Some v.
Proof.
  unfold LookupVar, bind.
  destruct (resolve env x st) as [target st1| | |] eqn:Hres; try done.
  destruct (resolveFrom_found _ _ _ _ _ _ Hres) as (-> & e & w & He & Hx).
  rewrite (deref_at _ _ _ He), Hx. cbn. intros [= <-]. by eauto.
Qed.

(** X14: names in the body of a call.  A parameter stands for the argument
    at its place (the first place, if it is listed twice); a name that is
    not a parameter stands for what it stood for in the frame the function
    was declared in, when the call was made. *)
Theorem call_frame_scoping declarationEnv ps args st :
  let scope := length (envs st) in
  let st' := withCall declarationEnv ps args st in
  (forall before x after vs v ws,
      ps = (before ++ x :: after)%list -> x ∉ before ->
      args = (vs ++ v :: ws)%list -> length vs = length before ->
      LookupVar scope x st' = Ok v st') /\
  (forall x v,
      x ∉ ps -> LookupVar declarationEnv x st = Ok v st ->
      LookupVar scope x st' = Ok v st').
Proof.
  intros scope st'.
  assert (Hscope : envs st' !! scope =
                   Some (mkEnvironment false (Some declarationEnv)
                           (list_to_map (zip ps args)) ∅)).
  { unfold st', scope. cbn. by rewrite lookup_app_r, Nat.sub_diag. }
  split.
  - intros before x after vs v ws -> Hx -> Hlen.
    eapply LookupVar_here; [exact Hscope|]. cbn.
    rewrite zip_with_app by done. rewrite list_to_map_app. cbn.
    rewrite lookup_union_r, lookup_insert_eq; [done|].
    apply not_elem_of_list_to_map_1. rewrite fst_zip by lia. exact Hx.
  - intros x v Hx (target & e & Hres & He & Hv)%LookupVar_found.
    assert (Hfresh : (list_to_map (zip ps args) : gmap string RuntimeVal)
                       !! x = None).
    { apply not_elem_of_list_to_map_1. intros Hin. apply Hx.
      apply list_elem_of_fmap in Hin as ([y w] & -> & Hin).
      by apply elem_of_zip_l in Hin. }
    assert (Hpre : envs st `prefix_of` envs st') by (by eexists).
    unfold LookupVar, resolve, bind.
    replace (length (envs st')) with (S (length (envs st)))
      by (unfold st'; cbn; rewrite length_app; cbn; lia).
    rewrite (resolveFrom_up _ _ _ _ _ declarationEnv Hscope Hfresh eq_refl).
    rewrite (resolveFrom_grown _ _ _ _ st' _ Hpre Hres).
    assert (He' : envs st' !! target = Some e)
      by (unfold st'; cbn; by apply lookup_app_l_Some).
    rewrite (deref_at _ _ _ He'). by rewrite Hv.
Qed.

(** ** Object literals and member access *)

Section Objects.

Variable Ev : option Stmt -> EnvPtr -> M RuntimeVal.

Lemma evalProperties_app l1 l2 env object st :
  evalProperties Ev (l1 ++ l2) env object st =
  (let* m := evalProperties Ev l1 env object in evalProperties Ev l2 env m)
    st.
Proof.
  revert object st. induction l1 as [|[key value] l1 IH]; intros object st.
  - reflexivity.
  - cbn [app evalProperties]. unfold bind.
    destruct (match value with
              | Some v => Ev (Some v) env
              | None => LookupVar env key
              end st) as [w st1| | |]; first [done|by rewrite IH].
Qed.

Lemma evalProperties_keys props env object st m st' :
  evalProperties Ev props env object st = Ok m st' ->
  dom m = dom object ∪ list_to_set props.*1 /\
  forall k, k ∉ props.*1 -> m !! k = object !! k.
Proof.
  revert object st. induction props as [|[key value] props IH];
    intros object st.
  - intros [= <- <-]. cbn.
    by rewrite (right_id_L (∅ : gset string) (∪)).
  - cbn [evalProperties]. unfold bind at 1.
    destruct (match value with
              | Some v => Ev (Some v) env
              | None => LookupVar env key
              end st) as [w st1| | |]; try done.
    intros [Hdom Hother]%IH. split.
    + rewrite Hdom, dom_insert_L. cbn.
      by rewrite (comm_L (∪) {[key]} (dom object)), (assoc_L (∪)).
    + intros k Hk. cbn in Hk. apply not_elem_of_cons in Hk as [Hne Hk].
      rewrite (Hother k Hk). by rewrite lookup_insert_ne.
Qed.

(** X15: the object an object literal evaluates to has exactly the keys the
    literal lists, and under a key listed more than once the value of its
    last listing: the value of the listed expression or, for a key listed
    without one, of the variable of that name, taken in the state that the
    evaluation of the listings before it has reached. *)
Theorem object_literal_keys_and_values before key value after env st v st' :
  evalObjectExpr Ev (before ++ (key, value) :: after) env st = Ok v st' ->
  key ∉ after.*1 ->
  exists m m1 st1 w st2,
    v = ObjectVal m EmptyString /\
    dom m = list_to_set ((before ++ (key, value) :: after)%list).*1 /\
    evalProperties Ev before env ∅ st = Ok m1 st1 /\
    match value with
    | Some e => Ev (Some e) env
    | None => LookupVar env key
    end st1 = Ok w st2 /\
    m !! key = Some w.
Proof.
  unfold evalObjectExpr, bind at 1.
  destruct (evalProperties Ev _ env ∅ st) as [m st3| | |] eqn:Hall;
    try done.
  intros [= <- <-] Hkey.
  pose proof (evalProperties_keys _ _ _ _ _ _ Hall) as [Hdom _].
  rewrite dom_empty_L, (left_id_L (∅ : gset string) (∪)) in Hdom.
  rewrite evalProperties_app in Hall. unfold bind at 1 in Hall.
  destruct (evalProperties Ev before env ∅ st) as [m1 st1| | |] eqn:Hbefore;
    try done.
  cbn [evalProperties] in Hall. unfold bind at 1 in Hall.
  destruct (match value with
            | Some e => Ev (Some e) env
            | None => LookupVar env key
            end st1) as [w st2| | |] eqn:Hvalue; try done.
  apply evalProperties_keys in Hall as [_ Hother].
  exists m, m1, st1, w, st2. repeat split; try done.
  rewrite (Hother key Hkey). apply lookup_insert_eq.
Qed.

End Objects.

Lemma object_literal_keys_and_values_witness :
  exists m m1 st1 w st2,
    ObjectVal {[ "a" := NumberVal (of_Z 2) ]} EmptyString =
      ObjectVal m EmptyString /\
    dom m = list_to_set
              (([("a", Some (number 1))] ++
                ("a", Some (number 2)) :: [])%list).*1 /\
    evalProperties (Evaluate noFormat 1) [("a", Some (number 1))] 0%nat ∅
      globalState = Ok m1 st1 /\
    Evaluate noFormat 1 (Some (number 2)) 0%nat st1 = Ok w st2 /\
    m !! "a" = Some w.
Proof.
  apply (object_literal_keys_and_values (Evaluate noFormat 1)
           [("a", Some (number 1))] "a" (Some (number 2)) [] 0%nat
           globalState _ globalState).
  - vm_compute. reflexivity.
  - cbn. intros Hin. inversion Hin.
Defined.

(** X16: member access.  On an object, a key the object does not have
    yields Nada, whether the key is written after a dot or computed from a
    String; on a value that is not an object, member access fails. *)
Theorem member_access_edge_cases (FormatFloat : float64 -> string)
    fuel object env st v st1 key :
  Evaluate FormatFloat fuel (Some object) env st = Ok v st1 ->
  match v with
  | ObjectVal props _ =>
      let found := default NadaVal (props !! key) in
      Evaluate FormatFloat (S fuel)
        (Some (MemberExpr object (Identifier key) false)) env st =
        Ok found st1 /\
      Evaluate FormatFloat (S fuel)
        (Some (MemberExpr object (StringLiteral key) true)) env st =
        Ok found st1
  | _ =>
      forall property computed,
        Evaluate FormatFloat (S fuel)
          (Some (MemberExpr object property computed)) env st =
        Err (PropertyOfNonObject v) st1
  end.
Proof.
  intros Hobj.
  assert (Hfuel : exists fuel', fuel = S fuel').
  { destruct fuel; [done|by eauto]. }
  destruct Hfuel as [fuel' ->].
  destruct v; try (intros property computed);
    rewrite Evaluate_S; cbn [EvaluateNode]; unfold evalMemberExpr, bind;
    rewrite Hobj; try done.
  split; [done|].
  rewrite Evaluate_S. cbn [EvaluateNode]. unfold evalMemberExpr, bind.
  rewrite Hobj. by rewrite Evaluate_S.
Qed.

Lemma member_access_edge_cases_witness :
  Evaluate noFormat 3
    (Some (MemberExpr (ObjectLiteral [("a", Some (number 1))])
             (Identifier "b") false)) 0%nat globalState =
  Ok NadaVal globalState.
Proof.
  refine (proj1 (member_access_edge_cases noFormat 2
                   (ObjectLiteral [("a", Some (number 1))]) 0%nat globalState
                   (ObjectVal {[ "a" := NumberVal (of_Z 1) ]} EmptyString)
                   globalState "b" _)).
  vm_compute. reflexivity.
Defined.

(** ** Operators, conditions and loops *)

Section Operators.

Variable FormatFloat : float64 -> string.
Variable Ev : option Stmt -> EnvPtr -> M RuntimeVal.

Lemma evalLogicalExpr_Bool l r op env st v st' :
  evalLogicalExpr Ev l r op env st = Ok v st' -> exists b, v = BoolVal b.
Proof.
  unfold evalLogicalExpr.
  intros (vl & st1 & _ & (vr & st2 & _ & H)%bind_Ok_inv)%bind_Ok_inv.
  revert H.
  repeat (destruct (opIs op _); [intros [-> _]%ret_Ok; by eauto|]).
  done.
Qed.

(** What [evalBinaryExpr] returns, by its operands: the numeric result for
    two Numbers, Nada as soon as one operand is not a Number. *)
Lemma evalBinaryExpr_operands l r op env st v st' :
  evalBinaryExpr Ev l r op env st = Ok v st' ->
  exists vl st1 vr,
    Ev (Some l) env st = Ok vl st1 /\ Ev (Some r) env st1 = Ok vr st' /\
    match vl, vr with
    | NumberVal a, NumberVal b =>
        exists x, evalNumericBinaryExpr a b op st' = Ok x st' /\
                  v = NumberVal x
    | _, _ => v = NadaVal
    end.
Proof.
  unfold evalBinaryExpr.
  intros (vl & st1 & Hl & (vr & st2 & Hr & H)%bind_Ok_inv)%bind_Ok_inv.
  exists vl, st1, vr.
  destruct vl, vr; try (apply ret_Ok in H as [-> ->]; by repeat split).
  apply bind_Ok_inv in H as (x & st3 & Hnum & [-> ->]%ret_Ok).
  assert (st3 = st2) as ->.
  { by apply (unchanged_evalNumericBinaryExpr Value Value0 op st2 st3);
      rewrite Hnum. }
  repeat split; [done..|]. by exists x.
Qed.

Lemma evalBinaryExpr_not_Numbers l r op env st vl st1 vr st2 :
  Ev (Some l) env st = Ok vl st1 -> Ev (Some r) env st1 = Ok vr st2 ->
  (forall a, vl <> NumberVal a) \/ (forall b, vr <> NumberVal b) ->
  evalBinaryExpr Ev l r op env st = Ok NadaVal st2.
Proof.
  intros Hl Hr Hnot. unfold evalBinaryExpr.
  rewrite (bind_Ok _ _ _ _ _ Hl), (bind_Ok _ _ _ _ _ Hr).
  destruct vl, vr; try reflexivity.
  destruct Hnot as [Hnot|Hnot]; by edestruct Hnot.
Qed.

Lemma evalUnaryExpr_operand o op env st v st' :
  evalUnaryExpr Ev o op env st = Ok v st' ->
  exists vo,
    Ev (Some o) env st = Ok vo st' /\
    match vo with
    | NumberVal a =>
        v = evalNumericUnaryExpr a op /\ exists x, v = NumberVal x
    | _ => v = NadaVal
    end.
Proof.
  unfold evalUnaryExpr. intros (vo & st1 & Ho & H)%bind_Ok_inv.
  exists vo. destruct vo; apply ret_Ok in H as [-> ->]; try by split.
  split; [done|]. split; [done|]. unfold evalNumericUnaryExpr.
  repeat (destruct (opIs op _); [by eauto|]). by eauto.
Qed.

End Operators.

Lemma DeclareVar_value env x v c st w st' :
  DeclareVar env x v c st = Ok w st' -> w = v.
Proof.
  destruct (envs st !! env) as [e|] eqn:He.
  - destruct (variables e !! x) as [old|] eqn:Hx.
    + by rewrite (DeclareVar_declared _ _ _ _ _ _ _ He Hx).
    + rewrite (DeclareVar_fresh _ _ _ _ _ _ He Hx). by intros [= <- _].
  - unfold DeclareVar, bind, deref. by rewrite He.
Qed.

(** X17: the logical operators do not short-circuit.  Whatever the
    operator, known or not, and whatever the left operand evaluates to, a
    logical expression evaluates its left and then its right operand, and
    ends in the state that leaves. *)
Theorem LogicalExpr_evaluates_both_sides (FormatFloat : float64 -> string)
    fuel l r op env st :
  finalState
    (Evaluate FormatFloat (S fuel) (Some (LogicalExpr l r op)) env st) =
  finalState
    ((let* _ := Evaluate FormatFloat fuel (Some l) env in
      Evaluate FormatFloat fuel (Some r) env) st).
Proof.
  rewrite Evaluate_S. cbn [EvaluateNode]. unfold evalLogicalExpr, bind.
  destruct (Evaluate FormatFloat fuel (Some l) env st)
    as [vl st1| | |]; [|done..].
  destruct (Evaluate FormatFloat fuel (Some r) env st1)
    as [vr st2| | |]; [|done..].
  repeat (destruct (opIs op _); [done|]). done.
Qed.

(** X18: the kind of value a node evaluates to.  A logical expression
    yields a Bool.  An arithmetic expression evaluates its operands and
    yields a Number when they are Numbers, and Nada as soon as one of them
    is not, whatever the operator: the sum of two strings is Nada.  A
    literal yields its value; an object literal an object; a function
    declaration the function, closed over the frame it is declared in; a
    [return] a return signal. *)
Theorem result_kinds (FormatFloat : float64 -> string) :
  (forall fuel node env st v st',
      Evaluate FormatFloat (S fuel) (Some node) env st = Ok v st' ->
      match node with
      | LogicalExpr _ _ _ => exists b, v = BoolVal b
      | BinaryExpr l r op =>
          exists vl st1 vr,
            Evaluate FormatFloat fuel (Some l) env st = Ok vl st1 /\
            Evaluate FormatFloat fuel (Some r) env st1 = Ok vr st' /\
            match vl, vr with
            | NumberVal a, NumberVal b =>
                exists x, evalNumericBinaryExpr a b op st' = Ok x st' /\
                          v = NumberVal x
            | _, _ => v = NadaVal
            end
      | UnaryExpr o op =>
          exists vo,
            Evaluate FormatFloat fuel (Some o) env st = Ok vo st' /\
            match vo with
            | NumberVal a =>
                v = evalNumericUnaryExpr a op /\ exists x, v = NumberVal x
            | _ => v = NadaVal
            end
      | NumericLiteral x => v = NumberVal x
      | StringLiteral s => v = StringVal s
      | ObjectLiteral _ => exists m, v = ObjectVal m EmptyString
      | FunctionDeclaration name ps body =>
          v = UserFunctionValue name ps env body
      | ReturnStmt _ => exists x, v = ReturnValue x
      | _ => True
      end) /\
  (forall fuel l r op env st vl st1 vr st2,
      Evaluate FormatFloat fuel (Some l) env st = Ok vl st1 ->
      Evaluate FormatFloat fuel (Some r) env st1 = Ok vr st2 ->
      (forall a, vl <> NumberVal a) \/ (forall b, vr <> NumberVal b) ->
      Evaluate FormatFloat (S fuel) (Some (BinaryExpr l r op)) env st =
      Ok NadaVal st2) /\
  (forall fuel o op env st vo st1,
      Evaluate FormatFloat fuel (Some o) env st = Ok vo st1 ->
      (forall a, vo <> NumberVal a) ->
      Evaluate FormatFloat (S fuel) (Some (UnaryExpr o op)) env st =
      Ok NadaVal st1) /\
  (forall fuel a b op env st,
      Evaluate FormatFloat (S (S fuel))
        (Some (BinaryExpr (StringLiteral a) (StringLiteral b) op)) env st =
      Ok NadaVal st).
Proof.
  split; [|split; [|split]].
  - intros fuel node env st v st'.
    destruct node; try done; rewrite Evaluate_S; cbn [EvaluateNode].
    + apply DeclareVar_value.
    + intros H. apply bind_Ok_inv in H as (x & st1 & _ & [-> _]%ret_Ok).
      by eauto.
    + apply evalLogicalExpr_Bool.
    + apply evalBinaryExpr_operands.
    + apply evalUnaryExpr_operand.
    + by intros [-> _]%ret_Ok.
    + by intros [-> _]%ret_Ok.
    + intros H. apply bind_Ok_inv in H as (m & st1 & _ & [-> _]%ret_Ok).
      by eauto.
  - intros fuel l r op env st vl st1 vr st2 Hl Hr Hnot. step_Evaluate.
    by apply (evalBinaryExpr_not_Numbers _ l r op env st vl st1 vr st2).
  - intros fuel o op env st vo st1 Ho Hnot. step_Evaluate.
    unfold evalUnaryExpr. rewrite (bind_Ok _ _ _ _ _ Ho).
    destruct vo; try reflexivity. by destruct (Hnot Value).
  - reflexivity.
Qed.

Lemma result_kinds_witness :
  Evaluate noFormat 1 (Some (StringLiteral "a")) 0%nat globalState =
    Ok (StringVal "a") globalState /\
  Evaluate noFormat 1 (Some (Identifier "print")) 0%nat globalState =
    Ok (NativeFunctionValue printCall "print") globalState /\
  Evaluate noFormat 2
    (Some (BinaryExpr (StringLiteral "a") (Identifier "print") "+")) 0%nat
    globalState = Ok NadaVal globalState.
Proof.
  do 2 (split; [vm_compute; reflexivity|]).
  apply (proj1 (proj2 (result_kinds noFormat)) 1%nat (StringLiteral "a")
           (Identifier "print") "+" 0%nat globalState (StringVal "a")
           globalState (NativeFunctionValue printCall "print") globalState).
  - vm_compute. reflexivity.
  - vm_compute. reflexivity.
  - left. discriminate.
Defined.

(** The loop of [while] returns only from a test that found the condition
    false. *)
Lemma whileLoop_exit (Ev : option Stmt -> EnvPtr -> M RuntimeVal)
    budget c body env result st v st' :
  whileLoop Ev budget c body env result st = Ok v st' ->
  exists st0, Ev (Some c) env st0 = Ok (BoolVal false) st'.
Proof.
  revert result st. induction budget as [|budget IH]; intros result st;
    [done|].
  cbn [whileLoop].
  intros (condVal & st1 & Hcond & H)%bind_Ok_inv.
  destruct condVal as [| | | |[|]| | | |]; try done.
  - apply bind_Ok_inv in H as (result' & st2 & _ & H). by eapply IH.
  - apply ret_Ok in H as [_ ->]. by eauto.
Qed.

(** X19: a [while] statement returns only after its condition has
    evaluated to [false]: the state in which it returns is the state in
    which an evaluation of the condition returned [false]. *)
Theorem while_returns_on_false_condition (FormatFloat : float64 -> string)
    fuel c body env st v st' :
  Evaluate FormatFloat (S fuel) (Some (WhileStmt c body)) env st = Ok v st' ->
  exists st0,
    Evaluate FormatFloat fuel (Some c) env st0 = Ok (BoolVal false) st'.
Proof. rewrite Evaluate_S. cbn [EvaluateNode]. apply whileLoop_exit. Qed.

Lemma while_returns_on_false_condition_witness :
  exists st0,
    Evaluate noFormat 7
      (Some (LogicalExpr (Identifier "c") (number 0) ">")) 0%nat st0 =
    Ok (BoolVal false) afterCountdown.
Proof.
  apply (while_returns_on_false_condition noFormat 7
           (LogicalExpr (Identifier "c") (number 0) ">")
           [printOf (Identifier "c");
            AssignmentExpr (Identifier "c")
              (BinaryExpr (Identifier "c") (number 1) "-")]
           0%nat
           (default globalState
              (finalState
                 (Evaluate noFormat 7
                    (Some (VarDeclaration false "c" (Some (number 3))))
                    0%nat globalState)))
           (NumberVal zero)).
  vm_compute. reflexivity.
Defined.

(** ** Expressions without effects *)

Section PureExpressions.

Variable FormatFloat : float64 -> string.
Variable Ev : option Stmt -> EnvPtr -> M RuntimeVal.

Hypothesis Ev_pure :
  forall node env, pureExpr node = true -> unchanged (Ev (Some node) env).

Lemma evalProperties_pure props env object :
  forallb (fun kv : string * option Stmt =>
             let (_, value) := kv in
             match value with
             | Some v => pureExpr v
             | None => true
             end) props = true ->
  unchanged (evalProperties Ev props env object).
Proof.
  revert object. induction props as [|[key value] props IH];
    intros object Hpure; cbn [evalProperties].
  - apply unchanged_ret.
  - cbn [forallb] in Hpure. apply andb_true_iff in Hpure as [Hv Hrest].
    apply unchanged_bind; [|intros w; by apply IH].
    destruct value; [by apply Ev_pure|apply unchanged_LookupVar].
Qed.

Lemma EvaluateNode_pure budget node env :
  pureExpr node = true ->
  unchanged (EvaluateNode FormatFloat Ev budget (Some node) env).
Proof.
  destruct node; try done; cbn [pureExpr EvaluateNode]; intros Hpure.
  - unfold evalMemberExpr. apply andb_true_iff in Hpure as [Ho Hp].
    apply unchanged_bind; [by apply Ev_pure|]. intros objVal.
    destruct objVal; try apply unchanged_fail.
    apply unchanged_bind; [|intros k; apply unchanged_ret].
    destruct Computed.
    + apply unchanged_bind; [by apply Ev_pure|]. intros propVal.
      destruct propVal; first [apply unchanged_ret|apply unchanged_fail].
    + destruct node2; first [apply unchanged_ret|apply unchanged_fail].
  - unfold evalLogicalExpr. apply andb_true_iff in Hpure as [Hl Hr].
    apply unchanged_bind; [by apply Ev_pure|]. intros leftSide.
    apply unchanged_bind; [by apply Ev_pure|]. intros rightSide.
    repeat (destruct (opIs _ _); [apply unchanged_ret|]).
    apply unchanged_fail.
  - unfold evalBinaryExpr. apply andb_true_iff in Hpure as [Hl Hr].
    apply unchanged_bind; [by apply Ev_pure|]. intros leftSide.
    apply unchanged_bind; [by apply Ev_pure|]. intros rightSide.
    destruct leftSide, rightSide; try apply unchanged_ret.
    apply unchanged_bind; [apply unchanged_evalNumericBinaryExpr|].
    intros x. apply unchanged_ret.
  - unfold evalUnaryExpr.
    apply unchanged_bind; [by apply Ev_pure|]. intros operant.
    destruct operant; apply unchanged_ret.
  - apply unchanged_ret.
  - apply unchanged_ret.
  - apply unchanged_LookupVar.
  - unfold evalObjectExpr.
    apply unchanged_bind; [by apply evalProperties_pure|].
    intros m. apply unchanged_ret.
Qed.

End PureExpressions.

Lemma Evaluate_pure (FormatFloat : float64 -> string) fuel node env :
  pureExpr node = true ->
  unchanged (Evaluate FormatFloat fuel (Some node) env).
Proof.
  revert node env. induction fuel as [|fuel IH]; intros node env Hpure.
  - by intros st st'.
  - rewrite Evaluate_S. by apply EvaluateNode_pure.
Qed.

(** X20: an expression with no call and no assignment in it has no effect:
    however its evaluation ends, the frames and the output are as they
    were. *)
Theorem pure_expressions_have_no_effect (FormatFloat : float64 -> string)
    fuel node env st st' :
  pureExpr node = true ->
  finalState (Evaluate FormatFloat fuel (Some node) env st) = Some st' ->
  st' = st.
Proof. intros Hpure. by apply Evaluate_pure. Qed.

Lemma pure_expressions_have_no_effect_witness : globalState = globalState.
Proof.
  apply (pure_expressions_have_no_effect noFormat 3
           (BinaryExpr (number 1) (Identifier "missing") "+")
           0%nat globalState globalState).
  - reflexivity.
  - vm_compute. reflexivity.
Defined.

(** X4: a name that no frame of the scope chain declares, from the frame of
    the use up to the root, gives no error value but a host panic: from a
    lookup as from an assignment, and at the level of [Evaluate] for an
    identifier and for an assignment to one.  The assignment evaluates its
    value first and panics in the state that leaves, the name being
    undeclared there; a value with no call and no assignment in it leaves
    the state as it was. *)
Theorem undeclared_name_panics (FormatFloat : float64 -> string) env x st :
  undeclared st x env ->
  LookupVar env x st = Panic (VariableDoesNotExist x) st /\
  (forall w, AssignVal env x w st = Panic (VariableDoesNotExist x) st) /\
  (forall fuel,
      Evaluate FormatFloat (S fuel) (Some (Identifier x)) env st =
      Panic (VariableDoesNotExist x) st) /\
  (forall fuel value w,
      pureExpr value = true ->
      forall st1,
      Evaluate FormatFloat fuel (Some value) env st = Ok w st1 ->
      Evaluate FormatFloat (S fuel)
        (Some (AssignmentExpr (Identifier x) value)) env st =
      Panic (VariableDoesNotExist x) st) /\
  (forall fuel value w st1,
      Evaluate FormatFloat fuel (Some value) env st = Ok w st1 ->
      undeclared st1 x env ->
      Evaluate FormatFloat (S fuel)
        (Some (AssignmentExpr (Identifier x) value)) env st =
      Panic (VariableDoesNotExist x) st1).
Proof.
  intros Hun.
  assert (Hassign : forall fuel value w st1,
            Evaluate FormatFloat fuel (Some value) env st = Ok w st1 ->
            undeclared st1 x env ->
            Evaluate FormatFloat (S fuel)
              (Some (AssignmentExpr (Identifier x) value)) env st =
            Panic (VariableDoesNotExist x) st1).
  { intros fuel value w st1 Hval Hun1. step_Evaluate.
    unfold evalAssignmentExpr. rewrite (bind_Ok _ _ _ _ _ Hval).
    unfold AssignVal, bind. by rewrite (resolve_undeclared st1 x env Hun1). }
  pose proof (resolve_undeclared st x env Hun) as Hres.
  split; [|split; [|split; [|split]]].
  - unfold LookupVar, bind. by rewrite Hres.
  - intros w. unfold AssignVal, bind. by rewrite Hres.
  - intros fuel. step_Evaluate. unfold evalIdentifier, LookupVar, bind.
    by rewrite Hres.
  - intros fuel value w Hpure st1 Hval.
    assert (st1 = st) as ->.
    { apply (Evaluate_pure FormatFloat fuel value env Hpure). by rewrite Hval. }
    by apply (Hassign fuel value w).
  - exact Hassign.
Qed.

Lemma undeclared_name_panics_witness :
  undeclared callState "y" 1%nat /\
  Evaluate noFormat 1 (Some (Identifier "y")) 1%nat callState =
  Panic (VariableDoesNotExist "y") callState.
Proof.
  assert (Hun : undeclared callState "y" 1%nat).
  { exists 1%nat, 0%nat, globalFrame. split; [|split; [|split]].
    - apply (climbs_up callState "y" 0 1%nat callFrame 0%nat 0%nat);
        [vm_compute; reflexivity..|constructor].
    - vm_compute. reflexivity.
    - vm_compute. reflexivity.
    - vm_compute. reflexivity. }
  split; [exact Hun|].
  apply (proj1 (proj2 (proj2 (undeclared_name_panics noFormat 1%nat "y"
                                callState Hun))) 0%nat).
Defined.

(** ** The lexer *)

Import Lexer.

(** The token kind [lexOr] settles on does not depend on what it read. *)
Lemma lexOr_tokenType (l : Lexer) : (lexOr l).1.2 = ILLEGAL.
Proof.
  unfold lexOr. by destruct (lexRepeatLoop _ _ _ _ _) as [[lit orCount] l'].
Qed.

(** C5 (what the code does): [lexOr] tests its token variable, not its
    count of bars, against 2, so it never answers OR.  Whenever [Lex] reads a
    bar that is followed by another bar, the token it appends at the
    position of the first bar is ILLEGAL; the text [||] lexes to an ILLEGAL
    token followed by EOF. *)
Theorem double_bar_lexes_as_ILLEGAL (IsSpace IsDigit IsLetter : rune -> bool) :
  (forall l, (lexOr l).1.2 <> OR) /\
  (forall p rest,
      exists lit l',
        lexRune IsSpace IsDigit IsLetter (char "|")
          (mkLexer p (char "|" :: rest)) =
        Some (l', Some (mkTokenItem p ILLEGAL lit))) /\
  Lex IsSpace IsDigit IsLetter (NewLexer (runes "||")) =
    Some [mkTokenItem (mkPosition 1 1) ILLEGAL "||";
          mkTokenItem (mkPosition 1 2) EOF EmptyString].
Proof.
  split; [|split].
  - intros l. by rewrite lexOr_tokenType.
  - intros p rest. unfold lexRune. cbn [Z.eqb char N_of_ascii Z.of_N
      N.of_nat Pos.eqb].
    change (char "|" =? 10) with false. cbv iota.
    pose proof (lexOr_tokenType
                  (goBack (char "|") p (char "|" :: rest))) as Hty.
    destruct (lexOr _) as [[lit t] l']. cbn in Hty. subst t. by eauto.
  - vm_compute. reflexivity.
Qed.

(** *** [Lex] reads its whole input *)

Section LexProgress.

Variables IsSpace IsDigit IsLetter : rune -> bool.

(** Each read loop leaves no more runes than it was given. *)

Lemma lexRepeatLoop_rest c p rs lit count :
  (length (input (lexRepeatLoop c p rs lit count).2) <= length rs)%nat.
Proof.
  revert p lit count. induction rs as [|r rest IH]; intros p lit count; cbn.
  - lia.
  - destruct (r =? c); cbn; [|lia]. etrans; [apply IH|lia].
Qed.

Lemma lexPairLoop_rest c p rs lit cCount equalCount :
  (length (input (lexPairLoop c p rs lit cCount equalCount).2)
   <= length rs)%nat.
Proof.
  revert p lit cCount equalCount.
  induction rs as [|r rest IH]; intros p lit cCount equalCount; cbn.
  - lia.
  - destruct (r =? c); [etrans; [apply IH|lia]|].
    destruct (r =? char "="); cbn; [|lia]. etrans; [apply IH|lia].
Qed.

Lemma lexEqualsLoop_rest p rs lit equalCount :
  (length (input (lexEqualsLoop p rs lit equalCount).2) <= length rs)%nat.
Proof.
  revert p lit equalCount.
  induction rs as [|r rest IH]; intros p lit equalCount; cbn.
  - lia.
  - destruct (r =? char "="); cbn; [|lia]. etrans; [apply IH|lia].
Qed.

Lemma lexNumLoop_rest p rs literal varType dotCount :
  (length (input (lexNumLoop IsDigit p rs literal varType dotCount).2)
   <= length rs)%nat.
Proof.
  revert p literal varType dotCount.
  induction rs as [|r rest IH]; intros p literal varType dotCount; cbn.
  - lia.
  - destruct (IsDigit r); [etrans; [apply IH|lia]|].
    destruct (r =? char "."); cbn; [|lia]. etrans; [apply IH|lia].
Qed.

Lemma lexIdentLoop_rest p rs literal :
  (length (input (lexIdentLoop IsDigit IsLetter p rs literal).2)
   <= length rs)%nat.
Proof.
  revert p literal. induction rs as [|r rest IH]; intros p literal; cbn.
  - lia.
  - destruct (_ || _); cbn; [|lia]. etrans; [apply IH|lia].
Qed.

Lemma lexStringLoop_rest p rs literal :
  (length (input (lexStringLoop p rs literal).2) <= length rs)%nat.
Proof.
  revert p literal. induction rs as [|r rest IH]; intros p literal; cbn.
  - lia.
  - destruct (r =? quote); cbn; [lia|]. etrans; [apply IH|lia].
Qed.

(** Entered on the rune that [Lex] has just unread, a scanner takes at
    least that rune. *)

Lemma lexEquals_rest p rest :
  (length (input (lexEquals (goBack (char "=") p rest)).2) <= length rest)%nat.
Proof.
  unfold lexEquals, goBack. cbn [pos input lexEqualsLoop].
  rewrite Z.eqb_refl.
  pose proof (lexEqualsLoop_rest
                (advance (mkPosition (line p) (column p - 1))) rest
                (EmptyString ++ runeString (char "=")) (0 + 1)).
  by destruct (lexEqualsLoop _ _ _ _) as [[? ?] ?].
Qed.

Lemma lexPair_rest c p rest :
  (length (input (lexPairLoop c (pos (goBack c p rest))
                    (input (goBack c p rest)) EmptyString 0 0).2)
   <= length rest)%nat.
Proof.
  unfold goBack. cbn [pos input lexPairLoop]. rewrite Z.eqb_refl.
  apply lexPairLoop_rest.
Qed.

Lemma lexRepeat_rest c p rest :
  (length (input (lexRepeatLoop c (pos (goBack c p rest))
                    (input (goBack c p rest)) EmptyString 0).2)
   <= length rest)%nat.
Proof.
  unfold goBack. cbn [pos input lexRepeatLoop]. rewrite Z.eqb_refl.
  apply lexRepeatLoop_rest.
Qed.

Lemma lexNot_rest p rest :
  (length (input (lexNot (goBack (char "!") p rest)).2) <= length rest)%nat.
Proof.
  unfold lexNot. pose proof (lexPair_rest (char "!") p rest).
  by destruct (lexPairLoop _ _ _ _ _ _) as [[[? ?] ?] ?].
Qed.

Lemma lexLessThan_rest p rest :
  (length (input (lexLessThan (goBack (char "<") p rest)).2)
   <= length rest)%nat.
Proof.
  unfold lexLessThan. pose proof (lexPair_rest (char "<") p rest).
  by destruct (lexPairLoop _ _ _ _ _ _) as [[[? ?] ?] ?].
Qed.

Lemma lexGreaterThan_rest p rest :
  (length (input (lexGreaterThan (goBack (char ">") p rest)).2)
   <= length rest)%nat.
Proof.
  unfold lexGreaterThan. pose proof (lexPair_rest (char ">") p rest).
  by destruct (lexPairLoop _ _ _ _ _ _) as [[[? ?] ?] ?].
Qed.

Lemma lexAnd_rest p rest :
  (length (input (lexAnd (goBack (char "&") p rest)).2) <= length rest)%nat.
Proof.
  unfold lexAnd. pose proof (lexRepeat_rest (char "&") p rest).
  by destruct (lexRepeatLoop _ _ _ _ _) as [[? ?] ?].
Qed.

Lemma lexOr_rest p rest :
  (length (input (lexOr (goBack (char "|") p rest)).2) <= length rest)%nat.
Proof.
  unfold lexOr. pose proof (lexRepeat_rest (char "|") p rest).
  by destruct (lexRepeatLoop _ _ _ _ _) as [[? ?] ?].
Qed.

Lemma lexNum_rest r p rest :
  IsDigit r = true ->
  (length (input (lexNum IsDigit (goBack r p rest)).2) <= length rest)%nat.
Proof.
  intros Hdigit. unfold lexNum, goBack. cbn [pos input lexNumLoop].
  rewrite Hdigit. apply lexNumLoop_rest.
Qed.

Lemma lexIdent_rest r p rest :
  IsLetter r = true ->
  (length (input (lexIdent IsDigit IsLetter (goBack r p rest)).2)
   <= length rest)%nat.
Proof.
  intros Hletter. unfold lexIdent, goBack. cbn [pos input lexIdentLoop].
  rewrite Hletter. apply lexIdentLoop_rest.
Qed.

Lemma lexString_rest p rest :
  exists res,
    lexString (goBack quote p rest) = Some res /\
    (length (input res.2) <= length rest)%nat.
Proof.
  unfold lexString, goBack. cbn [pos input]. rewrite Z.eqb_refl. cbn [negb].
  eexists. split; [reflexivity|]. apply lexStringLoop_rest.
Qed.

(** A turn of the loop of [Lex] never fails, and the lexer it goes on with
    has at most the runes that followed the one just read. *)
Lemma lexRune_progress r p rest :
  exists l' tok,
    lexRune IsSpace IsDigit IsLetter r (mkLexer p rest) = Some (l', tok) /\
    (length (input l') <= length rest)%nat.
Proof.
  unfold lexRune. cbn [pos input].
  repeat lazymatch goal with
    | |- context [if r =? ?c then _ else _] =>
        lazymatch c with
        | quote => fail
        | _ => destruct (Z.eqb_spec r c) as [->|?]; [shelve|]
        end
    end.
  - destruct (IsSpace r); [by eexists _, _|].
    destruct (IsDigit r) eqn:Hdigit.
    { pose proof (lexNum_rest r p rest Hdigit).
      destruct (lexNum _ _) as [[? ?] ?]. by eexists _, _. }
    destruct (IsLetter r) eqn:Hletter.
    { pose proof (lexIdent_rest r p rest Hletter).
      destruct (lexIdent _ _ _) as [? ?]. by eexists _, _. }
    destruct (Z.eqb_spec r quote) as [->|?]; [|by eexists _, _].
    destruct (lexString_rest p rest) as ([[? ?] ?] & -> & ?).
    by eexists _, _.
  Unshelve.
  all: cbv beta iota delta [Z.eqb char N_of_ascii Z.of_N N.of_nat Pos.eqb
                             Ascii.N_of_digits N.add N.mul N.double
                             N.succ_double Pos.add Pos.succ Pos.mul].
  all: try by eexists _, _.
  all: lazymatch goal with
       | |- context [lexEquals (goBack _ ?q ?rs)] =>
           pose proof (lexEquals_rest q rs);
           destruct (lexEquals _) as [[? ?] ?]
       | |- context [lexNot (goBack _ ?q ?rs)] =>
           pose proof (lexNot_rest q rs); destruct (lexNot _) as [[? ?] ?]
       | |- context [lexAnd (goBack _ ?q ?rs)] =>
           pose proof (lexAnd_rest q rs); destruct (lexAnd _) as [[? ?] ?]
       | |- context [lexOr (goBack _ ?q ?rs)] =>
           pose proof (lexOr_rest q rs); destruct (lexOr _) as [[? ?] ?]
       | |- context [lexLessThan (goBack _ ?q ?rs)] =>
           pose proof (lexLessThan_rest q rs);
           destruct (lexLessThan _) as [[? ?] ?]
       | |- context [lexGreaterThan (goBack _ ?q ?rs)] =>
           pose proof (lexGreaterThan_rest q rs);
           destruct (lexGreaterThan _) as [[? ?] ?]
       end.
  all: by eexists _, _.
Qed.

Lemma lexLoop_total budget l tokenList :
  (length (input l) < budget)%nat ->
  exists tokens p,
    lexLoop IsSpace IsDigit IsLetter budget l tokenList =
    Some (tokens ++ [mkTokenItem p EOF EmptyString])%list.
Proof.
  revert l tokenList.
  induction budget as [|budget IH]; intros [p rs] tokenList Hlt; [lia|].
  cbn [lexLoop input pos]. destruct rs as [|r rest].
  - by eexists _, _.
  - destruct (lexRune_progress r (advance p) rest) as (l' & tok & -> & Hrest).
    cbn [length input] in Hlt.
    destruct tok as [tok|]; apply IH; lia.
Qed.

(** [Lex] returns for every input, and the token list it returns ends with
    the EOF token. *)
Lemma Lex_total (l : Lexer) :
  exists tokens p,
    Lex IsSpace IsDigit IsLetter l =
    Some (tokens ++ [mkTokenItem p EOF EmptyString])%list.
Proof. unfold Lex. apply lexLoop_total. lia. Qed.

End LexProgress.

(** ** The scanners take the longest run *)

Section Runs.

Variables IsSpace IsDigit IsLetter : rune -> bool.

Lemma moved_0 p : moved p 0 = p.
Proof. destruct p. unfold moved. cbn. f_equal. lia. Qed.

Lemma moved_advance p n : moved (advance p) n = moved p (S n).
Proof. unfold moved, advance. cbn [line column]. f_equal. lia. Qed.

Lemma goBack_advance r p rest :
  goBack r (advance p) rest = mkLexer p (r :: rest).
Proof. destruct p. unfold goBack, advance. cbn. do 2 f_equal. lia. Qed.

Lemma lexEqualsLoop_run p run rest lit equalCount :
  Forall (fun r => r = char "=") run ->
  stops (fun r => r =? char "=") rest ->
  lexEqualsLoop p (run ++ rest) lit equalCount =
  (fold_left (fun lit r => lit ++ runeString r) run lit,
   equalCount + Z.of_nat (length run),
   mkLexer (moved p (length run)) rest).
Proof.
  intros Hrun Hrest. revert p lit equalCount.
  induction Hrun as [|r run -> _ IH]; intros p lit equalCount.
  - cbn [app length fold_left]. rewrite moved_0, Z.add_0_r.
    destruct rest as [|r rest]; [done|]. cbn in Hrest. cbn [lexEqualsLoop].
    by rewrite Hrest, goBack_advance.
  - cbn [app length fold_left lexEqualsLoop]. rewrite Z.eqb_refl, IH.
    rewrite moved_advance. repeat (f_equal; try lia).
Qed.

Lemma lexRepeatLoop_run c p run rest lit count :
  Forall (fun r => r = c) run ->
  stops (fun r => r =? c) rest ->
  lexRepeatLoop c p (run ++ rest) lit count =
  (fold_left (fun lit r => lit ++ runeString r) run lit,
   count + Z.of_nat (length run),
   mkLexer (moved p (length run)) rest).
Proof.
  intros Hrun Hrest. revert p lit count.
  induction Hrun as [|r run -> _ IH]; intros p lit count.
  - cbn [app length fold_left]. rewrite moved_0, Z.add_0_r.
    destruct rest as [|r rest]; [done|]. cbn in Hrest. cbn [lexRepeatLoop].
    by rewrite Hrest, goBack_advance.
  - cbn [app length fold_left lexRepeatLoop]. rewrite Z.eqb_refl, IH.
    rewrite moved_advance. repeat (f_equal; try lia).
Qed.

Lemma lexPairLoop_run c p run rest lit cCount equalCount :
  c <> char "=" ->
  Forall (fun r => r = c \/ r = char "=") run ->
  stops (fun r => (r =? c) || (r =? char "=")) rest ->
  lexPairLoop c p (run ++ rest) lit cCount equalCount =
  (fold_left (fun lit r => lit ++ runeString r) run lit,
   cCount + Z.of_nat (count_occ Z.eq_dec run c),
   equalCount + Z.of_nat (count_occ Z.eq_dec run (char "=")),
   mkLexer (moved p (length run)) rest).
Proof.
  intros Hc Hrun Hrest. revert p lit cCount equalCount.
  induction Hrun as [|r run Hr _ IH]; intros p lit cCount equalCount.
  - cbn [app length fold_left count_occ]. rewrite moved_0, !Z.add_0_r.
    destruct rest as [|r rest]; [done|]. cbn in Hrest. cbn [lexPairLoop].
    apply orb_false_iff in Hrest as [-> ->]. by rewrite goBack_advance.
  - cbn [app length fold_left lexPairLoop count_occ].
    destruct Hr as [->| ->].
    + rewrite Z.eqb_refl, IH, moved_advance.
      destruct (Z.eq_dec c c) as [_|]; [|done].
      destruct (Z.eq_dec c (char "=")) as [|_]; [done|].
      repeat (f_equal; try lia).
    + destruct (Z.eqb_spec (char "=") c) as [|_]; [done|].
      rewrite Z.eqb_refl, IH, moved_advance.
      destruct (Z.eq_dec (char "=") c) as [|_]; [done|].
      destruct (Z.eq_dec (char "=") (char "=")) as [_|]; [|done].
      repeat (f_equal; try lia).
Qed.

Lemma count_occ_pair c run :
  c <> char "=" ->
  Forall (fun r => r = c \/ r = char "=") run ->
  (count_occ Z.eq_dec run c + count_occ Z.eq_dec run (char "=")
   = length run)%nat.
Proof.
  intros Hc Hrun. induction Hrun as [|r run Hr _ IH]; [done|].
  cbn [count_occ length]. destruct Hr as [->| ->].
  - destruct (Z.eq_dec c c) as [_|]; [|done].
    destruct (Z.eq_dec c (char "=")) as [|_]; [done|]. lia.
  - destruct (Z.eq_dec (char "=") c) as [|_]; [done|].
    destruct (Z.eq_dec (char "=") (char "=")) as [_|]; [|done]. lia.
Qed.

Hypothesis dot_is_no_digit : IsDigit (char ".") = false.

Lemma lexNumLoop_run p run rest literal varType dotCount :
  0 <= dotCount ->
  Forall (fun r => IsDigit r = true \/ r = char ".") run ->
  stops (fun r => IsDigit r || (r =? char ".")) rest ->
  lexNumLoop IsDigit p (run ++ rest) literal varType dotCount =
  (fold_left (fun lit r => lit ++ runeString r) run literal,
   match count_occ Z.eq_dec run (char ".") with
   | O => varType
   | S O => if dotCount =? 0 then FLOAT else ILLEGAL
   | _ => ILLEGAL
   end,
   mkLexer (moved p (length run)) rest).
Proof.
  intros Hdots Hrun Hrest. revert p literal varType dotCount Hdots.
  induction Hrun as [|r run Hr _ IH]; intros p literal varType dotCount Hdots.
  - cbn [app length fold_left count_occ]. rewrite moved_0.
    destruct rest as [|r rest]; [done|]. cbn in Hrest. cbn [lexNumLoop].
    apply orb_false_iff in Hrest as [-> ->]. by rewrite goBack_advance.
  - cbn [app length fold_left lexNumLoop count_occ].
    destruct Hr as [Hr| ->].
    + rewrite Hr, IH, moved_advance by done.
      destruct (Z.eq_dec r (char ".")) as [->|_]; [congruence|done].
    + rewrite dot_is_no_digit, Z.eqb_refl, IH, moved_advance by lia.
      destruct (Z.eq_dec (char ".") (char ".")) as [_|]; [|done].
      destruct (count_occ Z.eq_dec run (char ".")) as [|[|n]]; try done.
      destruct (Z.eqb_spec (dotCount + 1) 0) as [|_]; [lia|].
      by destruct (dotCount =? 0).
Qed.

Lemma lexIdentLoop_run p run rest literal :
  Forall (fun r => IsLetter r || IsDigit r || (r =? char "_") = true) run ->
  stops (fun r => IsLetter r || IsDigit r || (r =? char "_")) rest ->
  lexIdentLoop IsDigit IsLetter p (run ++ rest) literal =
  (fold_left (fun lit r => lit ++ runeString r) run literal,
   mkLexer (moved p (length run)) rest).
Proof.
  intros Hrun Hrest. revert p literal.
  induction Hrun as [|r run Hr _ IH]; intros p literal.
  - cbn [app length fold_left]. rewrite moved_0.
    destruct rest as [|r rest]; [done|]. cbn in Hrest. cbn [lexIdentLoop].
    by rewrite Hrest, goBack_advance.
  - cbn [app length fold_left lexIdentLoop].
    by rewrite Hr, IH, moved_advance.
Qed.

Lemma lexStringLoop_closed p body rest literal :
  quote ∉ body ->
  lexStringLoop p (body ++ quote :: rest) literal =
  (fold_left (fun lit r => lit ++ runeString r) body literal, STRING,
   mkLexer (moved p (S (length body))) rest).
Proof.
  revert p literal. induction body as [|r body IH]; intros p literal Hq.
  - cbn [app length fold_left lexStringLoop]. rewrite Z.eqb_refl.
    by rewrite <- moved_advance, moved_0.
  - apply not_elem_of_cons in Hq as [Hr Hq].
    cbn [app length fold_left lexStringLoop].
    destruct (Z.eqb_spec r quote) as [|_]; [done|].
    by rewrite IH, moved_advance.
Qed.

Lemma lexStringLoop_open p body literal :
  quote ∉ body ->
  lexStringLoop p body literal =
  (fold_left (fun lit r => lit ++ runeString r) body literal, ILLEGAL,
   mkLexer (moved p (length body)) []).
Proof.
  revert p literal. induction body as [|r body IH]; intros p literal Hq.
  - cbn [length fold_left lexStringLoop]. by rewrite moved_0.
  - apply not_elem_of_cons in Hq as [Hr Hq].
    cbn [length fold_left lexStringLoop].
    destruct (Z.eqb_spec r quote) as [|_]; [done|].
    by rewrite IH, moved_advance.
Qed.

End Runs.

Section Tokens.

Variables IsSpace IsDigit IsLetter : rune -> bool.

Lemma moved_back p n :
  moved (mkPosition (line p) (column p - 1)) (S n) = moved p n.
Proof. unfold moved. cbn [line column]. f_equal. lia. Qed.

Lemma Forall_replicate_eq {A} (x : A) n :
  Forall (fun y => y = x) (replicate n x).
Proof. induction n; by constructor. Qed.

(** X21: a run of [=] signs, and a run of [&] signs, is one token.  One [=]
    is EQUALS and two are DE; two [&] are AND; a run of any other length is
    one ILLEGAL token, so [===] is not read as [==] and [=].  The token
    stands at the first sign and the lexer goes on after the last. *)
Theorem runs_of_equals_and_ampersands p n rest c :
  c = char "=" \/ c = char "&" ->
  stops (fun r => r =? c) rest ->
  lexRune IsSpace IsDigit IsLetter c (mkLexer p (replicate n c ++ rest)) =
  Some (mkLexer (moved p n) rest,
        Some (mkTokenItem p
                (if c =? char "=" then
                   match n with O => EQUALS | S O => DE | _ => ILLEGAL end
                 else match n with S O => AND | _ => ILLEGAL end)
                (text (replicate (S n) c)))).
Proof.
  intros [-> | ->] Hrest.
  - change (lexRune IsSpace IsDigit IsLetter (char "=")
              (mkLexer p (replicate n (char "=") ++ rest)))
      with (let '(lit, t, l') :=
              lexEquals (goBack (char "=") p
                           (replicate n (char "=") ++ rest)) in
            Some (l', Some (mkTokenItem p t lit))).
    unfold lexEquals, goBack. cbn [pos input].
    change (char "=" :: replicate n (char "=") ++ rest)%list
      with (replicate (S n) (char "=") ++ rest)%list.
    rewrite lexEqualsLoop_run; [|apply Forall_replicate_eq|done].
    rewrite length_replicate, moved_back. do 4 f_equal.
    destruct n as [|[|n]]; try done.
    by destruct (Z.eqb_spec (0 + Z.of_nat (S (S (S n)))) 1) as [|_];
      [lia|destruct (Z.eqb_spec (0 + Z.of_nat (S (S (S n)))) 2); [lia|]].
  - change (lexRune IsSpace IsDigit IsLetter (char "&")
              (mkLexer p (replicate n (char "&") ++ rest)))
      with (let '(lit, t, l') :=
              lexAnd (goBack (char "&") p
                        (replicate n (char "&") ++ rest)) in
            Some (l', Some (mkTokenItem p t lit))).
    unfold lexAnd, goBack. cbn [pos input].
    change (char "&" :: replicate n (char "&") ++ rest)%list
      with (replicate (S n) (char "&") ++ rest)%list.
    rewrite lexRepeatLoop_run; [|apply Forall_replicate_eq|done].
    rewrite length_replicate, moved_back. do 4 f_equal.
    destruct n as [|[|n]]; try done.
    by destruct (Z.eqb_spec (0 + Z.of_nat (S (S (S n)))) 2) as [|_]; [lia|].
Qed.

Lemma pair_token c run (one two : Token) :
  c <> char "=" ->
  Forall (fun r => r = c \/ r = char "=") run ->
  (if (0 + Z.of_nat (count_occ Z.eq_dec (c :: run) c) =? 1) &&
      (0 + Z.of_nat (count_occ Z.eq_dec (c :: run) (char "=")) =? 1)
   then two
   else if (0 + Z.of_nat (count_occ Z.eq_dec (c :: run) c) =? 1) &&
           (0 + Z.of_nat (count_occ Z.eq_dec (c :: run) (char "=")) =? 0)
   then one
   else ILLEGAL) =
  match run with
  | [] => one
  | [e] => if e =? char "=" then two else ILLEGAL
  | _ => ILLEGAL
  end.
Proof.
  intros Hc Hrun. pose proof (count_occ_pair c run Hc Hrun) as Hsum.
  cbn [count_occ].
  destruct (Z.eq_dec c c) as [_|]; [|done].
  destruct (Z.eq_dec c (char "=")) as [|_]; [done|].
  destruct run as [|e [|e' run]].
  - done.
  - apply Forall_cons in Hrun as [[->| ->] _]; cbn [count_occ] in *.
    + destruct (Z.eq_dec c c) as [_|]; [|done].
      destruct (Z.eqb_spec c (char "=")) as [|_]; [done|]. done.
    + destruct (Z.eq_dec (char "=") c) as [|_]; [done|]. done.
  - cbn [length] in Hsum.
    repeat match goal with
           | |- context [?x =? ?y] =>
               destruct (Z.eqb_spec x y); cbn [andb]
           end; try done; lia.
Qed.

(** X22: [!], [<] and [>] take every [=] and every repetition of
    themselves that follows, as one token.  Alone the sign is NOT, LT or
    GT; with one [=] after it, NE, LTE or GTE; any longer run is one
    ILLEGAL token. *)
Theorem comparison_signs_take_the_run p run rest c one two :
  (c, one, two) ∈ [(char "!", NOT, NE); (char "<", LT, LTE);
                   (char ">", GT, GTE)] ->
  Forall (fun r => r = c \/ r = char "=") run ->
  stops (fun r => (r =? c) || (r =? char "=")) rest ->
  lexRune IsSpace IsDigit IsLetter c (mkLexer p (run ++ rest)) =
  Some (mkLexer (moved p (length run)) rest,
        Some (mkTokenItem p
                match run with
                | [] => one
                | [e] => if e =? char "=" then two else ILLEGAL
                | _ => ILLEGAL
                end
                (text (c :: run)))).
Proof.
  rewrite !elem_of_cons.
  intros [[= -> -> ->]|[[= -> -> ->]|[[= -> -> ->]|Hin]]] Hrun Hrest;
    [| | |by apply elem_of_nil in Hin].
  - change (lexRune IsSpace IsDigit IsLetter (char "!")
              (mkLexer p (run ++ rest)))
      with (let '(lit, t, l') :=
              lexNot (goBack (char "!") p (run ++ rest)) in
            Some (l', Some (mkTokenItem p t lit))).
    unfold lexNot, goBack. cbn [pos input].
    change (char "!" :: run ++ rest)%list
      with ((char "!" :: run) ++ rest)%list.
    rewrite lexPairLoop_run; [|done|by constructor; [left|]|done].
    cbn [length]. rewrite moved_back.
    by rewrite (pair_token (char "!") run NOT NE).
  - change (lexRune IsSpace IsDigit IsLetter (char "<")
              (mkLexer p (run ++ rest)))
      with (let '(lit, t, l') :=
              lexLessThan (goBack (char "<") p (run ++ rest)) in
            Some (l', Some (mkTokenItem p t lit))).
    unfold lexLessThan, goBack. cbn [pos input].
    change (char "<" :: run ++ rest)%list
      with ((char "<" :: run) ++ rest)%list.
    rewrite lexPairLoop_run; [|done|by constructor; [left|]|done].
    cbn [length]. rewrite moved_back.
    by rewrite (pair_token (char "<") run LT LTE).
  - change (lexRune IsSpace IsDigit IsLetter (char ">")
              (mkLexer p (run ++ rest)))
      with (let '(lit, t, l') :=
              lexGreaterThan (goBack (char ">") p (run ++ rest)) in
            Some (l', Some (mkTokenItem p t lit))).
    unfold lexGreaterThan, goBack. cbn [pos input].
    change (char ">" :: run ++ rest)%list
      with ((char ">" :: run) ++ rest)%list.
    rewrite lexPairLoop_run; [|done|by constructor; [left|]|done].
    cbn [length]. rewrite moved_back.
    by rewrite (pair_token (char ">") run GT GTE).
Qed.

(** X23: [lexNum] takes the longest run of digits and dots, and the dots
    decide the token: INT without a dot, FLOAT with one (wherever it is, so
    [1.] is a FLOAT), ILLEGAL with more. *)
Theorem numbers_by_their_dots p run rest :
  IsDigit (char ".") = false ->
  Forall (fun r => IsDigit r = true \/ r = char ".") run ->
  stops (fun r => IsDigit r || (r =? char ".")) rest ->
  lexNum IsDigit (mkLexer p (run ++ rest)) =
  (text run,
   match count_occ Z.eq_dec run (char ".") with
   | O => INT
   | S O => FLOAT
   | _ => ILLEGAL
   end,
   mkLexer (moved p (length run)) rest).
Proof.
  intros Hdot Hrun Hrest. unfold lexNum. cbn [pos input].
  by rewrite (lexNumLoop_run IsDigit Hdot) by done.
Qed.

(** [lexIdent] takes the longest run of letters, digits and
    underscores. *)
Lemma identifiers_take_the_run p run rest :
  Forall (fun r => IsLetter r || IsDigit r || (r =? char "_") = true) run ->
  stops (fun r => IsLetter r || IsDigit r || (r =? char "_")) rest ->
  lexIdent IsDigit IsLetter (mkLexer p (run ++ rest)) =
  (text run, mkLexer (moved p (length run)) rest).
Proof.
  intros Hrun Hrest. unfold lexIdent. cbn [pos input].
  by rewrite lexIdentLoop_run.
Qed.

(** X24: a string runs from its opening quote to the next quote, whatever
    stands between them: there are no escapes, and a line break inside
    does not start a new line for the positions.  With no quote left in
    the input the rest of the input becomes one ILLEGAL token. *)
Theorem strings_end_at_the_next_quote p body rest :
  quote ∉ body ->
  lexString (mkLexer p (quote :: body ++ quote :: rest)) =
    Some (text body, STRING, mkLexer (moved p (length body + 2)) rest) /\
  lexString (mkLexer p (quote :: body)) =
    Some (text body, ILLEGAL, mkLexer (moved p (length body + 1)) []).
Proof.
  intros Hq. unfold lexString. cbn [pos input]. rewrite Z.eqb_refl.
  cbn [negb]. split.
  - rewrite lexStringLoop_closed by done. rewrite moved_advance.
    by replace (S (S (length body))) with (length body + 2)%nat by lia.
  - rewrite lexStringLoop_open by done. rewrite moved_advance.
    by replace (S (length body)) with (length body + 1)%nat by lia.
Qed.

End Tokens.

Lemma runs_of_equals_and_ampersands_witness :
  lexRune asciiSpace asciiDigit asciiLetter (char "=")
    (mkLexer (mkPosition 1 1) (replicate 2 (char "=") ++ [char "x"])) =
  Some (mkLexer (moved (mkPosition 1 1) 2) [char "x"],
        Some (mkTokenItem (mkPosition 1 1) ILLEGAL "===")).
Proof.
  apply (runs_of_equals_and_ampersands asciiSpace asciiDigit asciiLetter
           (mkPosition 1 1) 2 [char "x"] (char "=")).
  - left. reflexivity.
  - reflexivity.
Defined.

Lemma comparison_signs_take_the_run_witness :
  lexRune asciiSpace asciiDigit asciiLetter (char "<")
    (mkLexer (mkPosition 1 1) ([char "="] ++ [char "x"])) =
  Some (mkLexer (moved (mkPosition 1 1) 1) [char "x"],
        Some (mkTokenItem (mkPosition 1 1) LTE "<=")).
Proof.
  apply (comparison_signs_take_the_run asciiSpace asciiDigit asciiLetter
           (mkPosition 1 1) [char "="] [char "x"] (char "<") LT LTE).
  - rewrite !elem_of_cons. right. left. reflexivity.
  - constructor; [right; reflexivity|constructor].
  - reflexivity.
Defined.

Lemma numbers_by_their_dots_witness :
  lexNum asciiDigit
    (mkLexer (mkPosition 1 0) (runes "1.5" ++ runes "+2")) =
  ("1.5", FLOAT, mkLexer (moved (mkPosition 1 0) 3) (runes "+2")).
Proof.
  apply (numbers_by_their_dots asciiDigit (mkPosition 1 0)
           (runes "1.5") (runes "+2")).
  - reflexivity.
  - repeat (apply List.Forall_cons;
            [first [left; reflexivity|right; reflexivity]|]).
    apply List.Forall_nil.
  - reflexivity.
Defined.

Lemma strings_end_at_the_next_quote_witness :
  lexString (mkLexer (mkPosition 1 0)
               (quote :: runes "a b" ++ quote :: runes "+")) =
  Some ("a b", STRING, mkLexer (moved (mkPosition 1 0) 5) (runes "+")).
Proof.
  refine (proj1 (strings_end_at_the_next_quote (mkPosition 1 0)
                   (runes "a b") (runes "+") _)).
  cbn. rewrite !elem_of_cons, elem_of_nil. intros [H|[H|[H|H]]]; done.
Defined.

(** ** The token list *)

Section TokenList.

Variables IsSpace IsDigit IsLetter : rune -> bool.

Lemma lexEquals_not_EOF l : (lexEquals l).1.2 <> EOF.
Proof.
  unfold lexEquals. destruct (lexEqualsLoop _ _ _ _) as [[lit n] l'].
  cbn. by destruct (n =? 1), (n =? 2).
Qed.

Lemma lexNot_not_EOF l : (lexNot l).1.2 <> EOF.
Proof.
  unfold lexNot. destruct (lexPairLoop _ _ _ _ _ _) as [[[lit n] m] l'].
  cbn. by destruct (n =? 1), (m =? 1), (m =? 0).
Qed.

Lemma lexLessThan_not_EOF l : (lexLessThan l).1.2 <> EOF.
Proof.
  unfold lexLessThan. destruct (lexPairLoop _ _ _ _ _ _) as [[[lit n] m] l'].
  cbn. by destruct (n =? 1), (m =? 1), (m =? 0).
Qed.

Lemma lexGreaterThan_not_EOF l : (lexGreaterThan l).1.2 <> EOF.
Proof.
  unfold lexGreaterThan.
  destruct (lexPairLoop _ _ _ _ _ _) as [[[lit n] m] l'].
  cbn. by destruct (n =? 1), (m =? 1), (m =? 0).
Qed.

Lemma lexAnd_not_EOF l : (lexAnd l).1.2 <> EOF.
Proof.
  unfold lexAnd. destruct (lexRepeatLoop _ _ _ _ _) as [[lit n] l'].
  cbn. by destruct (n =? 2).
Qed.

Lemma lexOr_not_EOF l : (lexOr l).1.2 <> EOF.
Proof. by rewrite lexOr_tokenType. Qed.

Lemma lexNumLoop_not_EOF p rs literal varType dotCount :
  varType <> EOF ->
  (lexNumLoop IsDigit p rs literal varType dotCount).1.2 <> EOF.
Proof.
  revert p literal varType dotCount.
  induction rs as [|r rest IH]; intros p literal varType dotCount Hty;
    cbn [lexNumLoop]; [done|].
  destruct (IsDigit r); [by apply IH|].
  destruct (r =? char "."); [|done].
  apply IH. by destruct (dotCount =? 0).
Qed.

Lemma lexStringLoop_not_EOF p rs literal :
  (lexStringLoop p rs literal).1.2 <> EOF.
Proof.
  revert p literal. induction rs as [|r rest IH]; intros p literal;
    cbn [lexStringLoop]; [done|].
  destruct (r =? quote); [done|apply IH].
Qed.

Lemma keyword_not_EOF lit : keyword lit <> EOF.
Proof. unfold keyword. by repeat destruct (existsb _ _). Qed.

(** The token of a turn of the loop of [Lex] is not the EOF token, and
    stands at the position of the rune the turn has read. *)
Lemma lexRune_token r p rest l' tok :
  lexRune IsSpace IsDigit IsLetter r (mkLexer p rest) = Some (l', Some tok) ->
  tokenType tok <> EOF /\ tokenPos tok = p.
Proof.
  unfold lexRune. cbn [pos input].
  repeat lazymatch goal with
    | |- context [if r =? ?c then _ else _] =>
        lazymatch c with
        | quote => fail
        | _ => destruct (Z.eqb_spec r c) as [->|?]; [shelve|]
        end
    end.
  - destruct (IsSpace r); [done|].
    destruct (IsDigit r).
    { pose proof (lexNumLoop_not_EOF (pos (goBack r p rest))
                    (input (goBack r p rest)) EmptyString INT 0) as Hty.
      unfold lexNum. destruct (lexNumLoop _ _ _ _ _ _) as [[? ?] ?].
      intros [= <- <-]. cbn in *. by split; [apply Hty|]. }
    destruct (IsLetter r).
    { destruct (lexIdent _ _ _) as [lit ?]. intros [= <- <-].
      split; [apply keyword_not_EOF|done]. }
    destruct (Z.eqb_spec r quote) as [->|?];
      [|by intros [= <- <-]].
    unfold lexString, goBack. cbn [pos input]. rewrite Z.eqb_refl.
    cbn [negb].
    pose proof (lexStringLoop_not_EOF
                  (advance (mkPosition (line p) (column p - 1))) rest
                  EmptyString) as Hty.
    destruct (lexStringLoop _ _ _) as [[? ?] ?]. by intros [= <- <-].
  Unshelve.
  all: cbv beta iota delta [Z.eqb char N_of_ascii Z.of_N N.of_nat Pos.eqb
                             Ascii.N_of_digits N.add N.mul N.double
                             N.succ_double Pos.add Pos.succ Pos.mul].
  all: try by intros [= <- <-].
  all: lazymatch goal with
       | |- context [lexEquals ?l] =>
           pose proof (lexEquals_not_EOF l) as Hty;
           destruct (lexEquals _) as [[? ?] ?]
       | |- context [lexNot ?l] =>
           pose proof (lexNot_not_EOF l) as Hty;
           destruct (lexNot _) as [[? ?] ?]
       | |- context [lexAnd ?l] =>
           pose proof (lexAnd_not_EOF l) as Hty;
           destruct (lexAnd _) as [[? ?] ?]
       | |- context [lexOr ?l] =>
           pose proof (lexOr_not_EOF l) as Hty;
           destruct (lexOr _) as [[? ?] ?]
       | |- context [lexLessThan ?l] =>
           pose proof (lexLessThan_not_EOF l) as Hty;
           destruct (lexLessThan _) as [[? ?] ?]
       | |- context [lexGreaterThan ?l] =>
           pose proof (lexGreaterThan_not_EOF l) as Hty;
           destruct (lexGreaterThan _) as [[? ?] ?]
       end.
  all: by intros [= <- <-].
Qed.

Lemma lexLoop_tokens budget l tokenList :
  (length (input l) < budget)%nat ->
  exists tokens p,
    lexLoop IsSpace IsDigit IsLetter budget l tokenList =
      Some (tokenList ++ tokens ++ [mkTokenItem p EOF EmptyString])%list /\
    Forall (fun tok => tokenType tok <> EOF) tokens /\
    (length tokens <= length (input l))%nat.
Proof.
  revert l tokenList.
  induction budget as [|budget IH]; intros [p rs] tokenList Hlt; [lia|].
  cbn [lexLoop input pos]. destruct rs as [|r rest].
  - exists [], p. by repeat split.
  - destruct (lexRune_progress IsSpace IsDigit IsLetter r (advance p) rest)
      as (l' & tok & Hturn & Hrest).
    rewrite Hturn. cbn [length input] in Hlt.
    destruct tok as [tok|].
    + destruct (IH l' (tokenList ++ [tok])%list) as (tokens & q & -> & ? & ?);
        [lia|].
      exists (tok :: tokens), q. rewrite <- app_assoc. cbn [app length input].
      repeat split; [|lia].
      constructor; [|done]. by eapply lexRune_token.
    + destruct (IH l' tokenList) as (tokens & q & -> & ? & ?); [lia|].
      exists tokens, q. cbn [length input]. repeat split; [done|lia].
Qed.

(** X25: [Lex] returns a token list for every input: no input makes it
    fail or run on.  The list ends with the EOF token, which stands nowhere
    else in it, and holds at most one token for each rune of the input
    before that. *)
Theorem Lex_returns_tokens_then_EOF (l : Lexer) :
  exists tokens p,
    Lex IsSpace IsDigit IsLetter l =
      Some (tokens ++ [mkTokenItem p EOF EmptyString])%list /\
    Forall (fun tok => tokenType tok <> EOF) tokens /\
    (length tokens <= length (input l))%nat.
Proof.
  unfold Lex.
  destruct (lexLoop_tokens (S (length (input l))) l []) as (tokens & p & H);
    [lia|].
  by exists tokens, p.
Qed.

End TokenList.
Import Lexer.
Import Parsing.
Import Yield.

(** ** The parser *)

Section YieldBasics.

Context {A B : Type}.

Lemma yields_pure (Q : A -> Prop) (v : A) : Q v -> yields Q (pure v).
Proof. by intros Hv p w p' [= <- _]. Qed.

Lemma yields_andThen (R : A -> Prop) (Q : B -> Prop) (m : P A)
    (k : A -> P B) :
  yields R m -> (forall w, R w -> yields Q (k w)) ->
  yields Q (andThen m k).
Proof.
  intros Hm Hk p v p'. unfold andThen.
  destruct (m p) as [w q| |] eqn:Hrun; [|done..].
  apply (Hk w). by eapply Hm.
Qed.

Lemma yields_anything (m : P A) : yields (fun _ => True) m.
Proof. done. Qed.

Lemma yields_errorHere (Q : A -> Prop) message :
  yields Q (errorHere message).
Proof. by intros p v p'. Qed.

Lemma yields_Unfinished (Q : A -> Prop) : yields Q (fun _ => Unfinished).
Proof. by intros p v p'. Qed.

End YieldBasics.

Lemma propertiesOk_snoc properties key value :
  propertiesOk properties ->
  match value with Some v => isExpr v = true | None => True end ->
  propertiesOk (properties ++ [(key, value)]).
Proof.
  unfold propertiesOk. intros Hprops Hvalue. rewrite forallb_app, Hprops.
  cbn. destruct value; [by rewrite Hvalue|done].
Qed.

Lemma forallb_snoc {A} (f : A -> bool) l x :
  forallb f l = true -> f x = true -> forallb f (l ++ [x]) = true.
Proof. intros Hl Hx. rewrite forallb_app, Hl. cbn. by rewrite Hx. Qed.

Section AstShape.

Variable ParseFloat : string -> float64.

Section Rules.

Variable parse : Rule -> P Stmt.
Variable budget : nat.

Hypothesis parse_ok : forall rule, yields (ruleOk rule) (parse rule).

Lemma parseProperties_ok fuel properties :
  propertiesOk properties ->
  yields propertiesOk (parseProperties parse fuel properties).
Proof.
  revert properties. induction fuel as [|fuel IH]; intros properties Hok;
    cbn [parseProperties].
  - eapply yields_andThen; [apply yields_anything|]. intros ty _.
    destruct (_ && _); [apply yields_Unfinished|by apply yields_pure].
  - eapply yields_andThen; [apply yields_anything|]. intros ty _.
    destruct (_ && _); [|by apply yields_pure].
    eapply yields_andThen; [apply yields_anything|]. intros object _.
    eapply yields_andThen; [apply yields_anything|]. intros ty' _.
    destruct (_ || _).
    + eapply yields_andThen; [apply yields_anything|]. intros _ _.
      apply IH. by apply propertiesOk_snoc.
    + eapply yields_andThen; [apply yields_anything|]. intros _ _.
      eapply yields_andThen; [apply yields_anything|]. intros ty'' _.
      eapply (yields_andThen (fun v => isExpr v = true)).
      { destruct (tokenIs ty'' OPENCURLY);
          [apply (parse_ok ObjectExprRule)|apply (parse_ok ExprRule)]. }
      intros val Hval.
      eapply yields_andThen; [apply yields_anything|]. intros ty3 _.
      eapply yields_andThen; [apply yields_anything|]. intros _ _.
      apply IH. by apply propertiesOk_snoc.
Qed.

Lemma parseObjectExpr_ok :
  yields (fun v => isExpr v = true) (parseObjectExpr parse budget).
Proof.
  unfold parseObjectExpr.
  eapply yields_andThen; [apply yields_anything|]. intros ty _.
  destruct (negb _); [apply (parse_ok AdditiveRule)|].
  eapply yields_andThen; [apply yields_anything|]. intros _ _.
  eapply yields_andThen; [by apply parseProperties_ok|].
  intros properties Hprops.
  eapply yields_andThen; [apply yields_anything|]. intros _ _.
  by apply yields_pure.
Qed.

Lemma parsePrimary_ok :
  yields (fun v => isExpr v = true) (parsePrimary ParseFloat parse budget).
Proof.
  unfold parsePrimary.
  eapply yields_andThen; [apply yields_anything|]. intros ty _.
  destruct (tokenIs ty NOT).
  { eapply yields_andThen; [apply yields_anything|]. intros _ _.
    eapply yields_andThen; [apply (parse_ok PrimaryRule)|].
    intros expr Hexpr. by apply yields_pure. }
  destruct (tokenIs ty IDENT).
  { eapply yields_andThen; [apply yields_anything|]. intros token _.
    by apply yields_pure. }
  destruct (_ || _).
  { eapply yields_andThen; [apply yields_anything|]. intros token _.
    by apply yields_pure. }
  destruct (tokenIs ty STRING).
  { eapply yields_andThen; [apply yields_anything|]. intros token _.
    by apply yields_pure. }
  destruct (tokenIs ty OPENPAREN).
  { eapply yields_andThen; [apply yields_anything|]. intros _ _.
    eapply yields_andThen; [apply (parse_ok ExprRule)|].
    intros val Hval.
    eapply yields_andThen; [apply yields_anything|]. intros _ _.
    by apply yields_pure. }
  destruct (tokenIs ty OPENCURLY); [apply parseObjectExpr_ok|].
  destruct (_ || _); [apply yields_errorHere|].
  destruct (tokenIs ty ILLEGAL); by intros p v p'.
Qed.

Lemma memberLoop_ok fuel object :
  isExpr object = true ->
  yields (fun v => isExpr v = true)
    (memberLoop ParseFloat parse budget fuel object).
Proof.
  revert object. induction fuel as [|fuel IH]; intros object Hobject;
    cbn [memberLoop];
    (eapply yields_andThen; [apply yields_anything|]); intros ty _;
    (destruct (_ || _); [|by apply yields_pure]);
    [apply yields_Unfinished|].
  eapply yields_andThen; [apply yields_anything|]. intros operator _.
  destruct (tokenIs _ DOT).
  - eapply yields_andThen; [apply parsePrimary_ok|]. intros property Hp.
    destruct (negb _); [apply yields_errorHere|].
    apply IH. cbn. by rewrite Hobject, Hp.
  - eapply yields_andThen; [apply (parse_ok ExprRule)|]. intros property Hp.
    eapply yields_andThen; [apply yields_anything|]. intros _ _.
    apply IH. cbn. by rewrite Hobject, Hp.
Qed.

Lemma parseMemberExpr_ok :
  yields (fun v => isExpr v = true)
    (parseMemberExpr ParseFloat parse budget).
Proof.
  unfold parseMemberExpr.
  eapply yields_andThen; [apply parsePrimary_ok|]. intros object Hobject.
  by apply memberLoop_ok.
Qed.

Lemma argumentLoop_ok fuel args :
  forallb isExpr args = true ->
  yields (fun args => forallb isExpr args = true)
    (argumentLoop parse fuel args).
Proof.
  revert args. induction fuel as [|fuel IH]; intros args Hargs;
    cbn [argumentLoop]; [apply yields_Unfinished|].
  eapply yields_andThen; [apply (parse_ok ExprRule)|]. intros arg Harg.
  eapply yields_andThen; [apply yields_anything|]. intros ty _.
  destruct (negb _); [apply yields_pure; by apply forallb_snoc|].
  eapply yields_andThen; [apply yields_anything|]. intros _ _.
  apply IH. by apply forallb_snoc.
Qed.

Lemma parseArguments_ok :
  yields (fun args => forallb isExpr args = true)
    (parseArguments parse budget).
Proof.
  unfold parseArguments.
  eapply yields_andThen; [apply yields_anything|]. intros _ _.
  eapply yields_andThen; [apply yields_anything|]. intros ty _.
  destruct (tokenIs ty CLOSEPAREN).
  - eapply yields_andThen; [apply yields_anything|]. intros _ _.
    by apply yields_pure.
  - eapply yields_andThen; [by apply argumentLoop_ok|]. intros args Hargs.
    eapply yields_andThen; [apply yields_anything|]. intros _ _.
    by apply yields_pure.
Qed.

Lemma parseCallExpr_ok fuel caller :
  isExpr caller = true ->
  yields (fun v => isExpr v = true) (parseCallExpr parse budget fuel caller).
Proof.
  revert caller. induction fuel as [|fuel IH]; intros caller Hcaller;
    cbn [parseCallExpr];
    (eapply yields_andThen; [apply parseArguments_ok|]); intros args Hargs;
    (eapply yields_andThen; [apply yields_anything|]); intros ty _;
    (destruct (tokenIs ty OPENPAREN);
     [|apply yields_pure; cbn; by rewrite Hargs, Hcaller]).
  - apply yields_Unfinished.
  - apply IH. cbn. by rewrite Hargs, Hcaller.
Qed.

Lemma parseCallMemberExpr_ok :
  yields (fun v => isExpr v = true)
    (parseCallMemberExpr ParseFloat parse budget).
Proof.
  unfold parseCallMemberExpr.
  eapply yields_andThen; [apply parseMemberExpr_ok|]. intros member Hm.
  eapply yields_andThen; [apply yields_anything|]. intros ty _.
  destruct (tokenIs ty OPENPAREN); [by apply parseCallExpr_ok|].
  by apply yields_pure.
Qed.

Lemma operatorLoop_ok fuel operators operand node left :
  yields (fun v => isExpr v = true) operand ->
  (forall l r op, isExpr l = true -> isExpr r = true ->
                  isExpr (node l r op) = true) ->
  isExpr left = true ->
  yields (fun v => isExpr v = true)
    (operatorLoop fuel operators operand node left).
Proof.
  intros Hoperand Hnode. revert left.
  induction fuel as [|fuel IH]; intros left Hleft; cbn [operatorLoop];
    (eapply yields_andThen; [apply yields_anything|]); intros ty _;
    (destruct (existsb _ _); [|by apply yields_pure]);
    [apply yields_Unfinished|].
  eapply yields_andThen; [apply yields_anything|]. intros operator _.
  eapply yields_andThen; [apply Hoperand|]. intros right Hright.
  apply IH. by apply Hnode.
Qed.

Lemma BinaryExpr_ok l r op :
  isExpr l = true -> isExpr r = true -> isExpr (BinaryExpr l r op) = true.
Proof. cbn. by intros -> ->. Qed.

Lemma LogicalExpr_ok l r op :
  isExpr l = true -> isExpr r = true -> isExpr (LogicalExpr l r op) = true.
Proof. cbn. by intros -> ->. Qed.

Lemma parseMulti_ok :
  yields (fun v => isExpr v = true) (parseMulti ParseFloat parse budget).
Proof.
  unfold parseMulti.
  eapply yields_andThen; [apply parseCallMemberExpr_ok|]. intros left Hl.
  apply operatorLoop_ok;
    [apply parseCallMemberExpr_ok|apply BinaryExpr_ok|done].
Qed.

Lemma parseAdditive_ok :
  yields (fun v => isExpr v = true) (parseAdditive ParseFloat parse budget).
Proof.
  unfold parseAdditive.
  eapply yields_andThen; [apply parseMulti_ok|]. intros left Hl.
  apply operatorLoop_ok; [apply parseMulti_ok|apply BinaryExpr_ok|done].
Qed.

Lemma parseRelationalExpr_ok :
  yields (fun v => isExpr v = true)
    (parseRelationalExpr ParseFloat parse budget).
Proof.
  unfold parseRelationalExpr.
  eapply yields_andThen; [apply parseAdditive_ok|]. intros left Hl.
  apply operatorLoop_ok; [apply parseAdditive_ok|apply LogicalExpr_ok|done].
Qed.

Lemma parseEqualityExpr_ok :
  yields (fun v => isExpr v = true)
    (parseEqualityExpr ParseFloat parse budget).
Proof.
  unfold parseEqualityExpr.
  eapply yields_andThen; [apply parseRelationalExpr_ok|]. intros left Hl.
  apply operatorLoop_ok;
    [apply parseRelationalExpr_ok|apply LogicalExpr_ok|done].
Qed.

Lemma parseLogicalExpr_ok :
  yields (fun v => isExpr v = true)
    (parseLogicalExpr ParseFloat parse budget).
Proof.
  unfold parseLogicalExpr.
  eapply yields_andThen; [apply parseEqualityExpr_ok|]. intros left Hl.
  apply operatorLoop_ok;
    [apply parseEqualityExpr_ok|apply LogicalExpr_ok|done].
Qed.

Lemma parseExpr_ok :
  yields (fun v => isExpr v = true) (parseExpr ParseFloat parse budget).
Proof.
  unfold parseExpr, parseAssignmentExpr.
  eapply yields_andThen; [apply parseLogicalExpr_ok|]. intros expr He.
  eapply yields_andThen; [apply yields_anything|]. intros ty _.
  destruct (tokenIs ty EQUALS); [|by apply yields_pure].
  eapply yields_andThen; [apply yields_anything|]. intros _ _.
  eapply yields_andThen; [apply (parse_ok ExprRule)|]. intros val Hval.
  apply yields_pure. cbn. by rewrite He, Hval.
Qed.

Lemma parseBody_ok fuel body :
  forallb isStmt body = true ->
  yields (fun body => forallb isStmt body = true) (parseBody parse fuel body).
Proof.
  revert body. induction fuel as [|fuel IH]; intros body Hbody;
    cbn [parseBody];
    (eapply yields_andThen; [apply yields_anything|]); intros ty _;
    (destruct (_ && _); [|by apply yields_pure]);
    [apply yields_Unfinished|].
  eapply yields_andThen; [apply (parse_ok StmtRule)|]. intros s Hs.
  apply IH. by apply forallb_snoc.
Qed.

Lemma parseStmt_ok :
  yields (fun v => isStmt v = true) (parseStmt ParseFloat parse budget).
Proof.
  unfold parseStmt.
  eapply yields_andThen; [apply yields_anything|]. intros ty _.
  destruct (_ || _).
  { unfold parseVarDeclaration.
    eapply yields_andThen; [apply yields_anything|]. intros ty1 _.
    eapply yields_andThen; [apply yields_anything|]. intros _ _.
    eapply yields_andThen; [apply yields_anything|]. intros identifier _.
    eapply yields_andThen; [apply yields_anything|]. intros ty2 _.
    destruct (negb _).
    - destruct (tokenIs ty1 CONST);
        [apply yields_errorHere|by apply yields_pure].
    - eapply yields_andThen; [apply yields_anything|]. intros _ _.
      eapply yields_andThen; [apply parseExpr_ok|]. intros val Hval.
      by apply yields_pure. }
  destruct (tokenIs ty FUN).
  { unfold parseFunctionDeclaration.
    eapply yields_andThen; [apply yields_anything|]. intros _ _.
    eapply yields_andThen; [apply yields_anything|]. intros name _.
    eapply yields_andThen; [apply yields_anything|]. intros args _.
    eapply yields_andThen; [apply yields_anything|]. intros params _.
    eapply yields_andThen; [apply yields_anything|]. intros _ _.
    eapply yields_andThen; [by apply parseBody_ok|]. intros body Hbody.
    eapply yields_andThen; [apply yields_anything|]. intros _ _.
    by apply yields_pure. }
  destruct (tokenIs ty IF).
  { unfold parseIfStmt.
    eapply yields_andThen; [apply yields_anything|]. intros _ _.
    eapply yields_andThen; [apply yields_anything|]. intros _ _.
    eapply yields_andThen; [apply parseExpr_ok|]. intros condition Hc.
    eapply yields_andThen; [apply yields_anything|]. intros _ _.
    eapply yields_andThen; [apply yields_anything|]. intros _ _.
    eapply yields_andThen; [by apply parseBody_ok|]. intros body Hbody.
    eapply yields_andThen; [apply yields_anything|]. intros _ _.
    apply yields_pure. cbn. by rewrite Hc, Hbody. }
  destruct (tokenIs ty WHILE).
  { unfold parseWhileStmt.
    eapply yields_andThen; [apply yields_anything|]. intros _ _.
    eapply yields_andThen; [apply yields_anything|]. intros _ _.
    eapply yields_andThen; [apply parseExpr_ok|]. intros condition Hc.
    eapply yields_andThen; [apply yields_anything|]. intros _ _.
    eapply yields_andThen; [apply yields_anything|]. intros _ _.
    eapply yields_andThen; [by apply parseBody_ok|]. intros body Hbody.
    eapply yields_andThen; [apply yields_anything|]. intros _ _.
    apply yields_pure. cbn. by rewrite Hc, Hbody. }
  destruct (tokenIs ty FOR).
  { unfold parseForStmt.
    eapply yields_andThen; [apply yields_anything|]. intros _ _.
    eapply yields_andThen; [apply yields_anything|]. intros _ _.
    eapply yields_andThen; [apply parseExpr_ok|]. intros condition Hc.
    eapply yields_andThen; [apply yields_anything|]. intros _ _.
    eapply yields_andThen; [apply yields_anything|]. intros _ _.
    eapply yields_andThen; [by apply parseBody_ok|]. intros body Hbody.
    eapply yields_andThen; [apply yields_anything|]. intros _ _.
    apply yields_pure. cbn. by rewrite Hc, Hbody. }
  destruct (tokenIs ty RETURN).
  { unfold parseReturnStmt.
    eapply yields_andThen; [apply yields_anything|]. intros _ _.
    eapply yields_andThen; [apply yields_anything|]. intros ty1 _.
    destruct (_ || _); [by apply yields_pure|].
    eapply yields_andThen; [apply parseExpr_ok|]. intros expr He.
    by apply yields_pure. }
  intros p v p' Hrun. by apply (isExpr_isStmt v), (parseExpr_ok p v p').
Qed.

Lemma parseRule_ok rule :
  yields (ruleOk rule) (parseRule ParseFloat parse budget rule).
Proof.
  destruct rule; cbn [parseRule ruleOk].
  - apply parseStmt_ok.
  - apply parseExpr_ok.
  - apply parsePrimary_ok.
  - apply parseObjectExpr_ok.
  - apply parseAdditive_ok.
Qed.

End Rules.

Lemma parse_ok fuel rule : yields (ruleOk rule) (parse ParseFloat fuel rule).
Proof.
  revert rule. induction fuel as [|fuel IH]; intros rule.
  - by intros p v p'.
  - cbn [parse]. by apply parseRule_ok.
Qed.

Lemma produceLoop_ok fuel budget Body :
  forallb isStmt Body = true ->
  yields (fun program =>
            exists body, program = Program body /\ body <> [] /\
                         forallb isStmt body = true)
    (produceLoop ParseFloat fuel budget Body).
Proof.
  revert Body. induction budget as [|budget IH]; intros Body HBody;
    cbn [produceLoop]; [by intros p v p'|].
  eapply yields_andThen; [apply (parse_ok fuel StmtRule)|]. intros stmt Hs.
  eapply yields_andThen; [apply yields_anything|]. intros ty _.
  destruct (tokenIs ty EOF).
  - apply yields_pure. eexists. split; [done|].
    split; [by destruct Body|by apply forallb_snoc].
  - apply IH. by apply forallb_snoc.
Qed.

End AstShape.

(** X26: what the parser returns is a program of statements.  The AST
    [ProduceAst] returns is a Program with at least one statement; each is
    a declaration, an [if], a [while], a [for], a [return] or an
    expression, built from such statements and from expressions all the
    way down: no Program and no Property node stands inside, and a
    condition, an operand, an argument, a callee or an assigned value is
    never a statement. *)
Theorem ProduceAst_yields_statements (ParseFloat : string -> float64)
    fuel p program p' :
  ProduceAst ParseFloat fuel p = Done program p' ->
  exists body,
    program = Program body /\ body <> [] /\ forallb isStmt body = true.
Proof.
  intros Hrun. unfold ProduceAst in Hrun.
  exact (produceLoop_ok ParseFloat fuel fuel [] eq_refl p program p' Hrun).
Qed.

Lemma ProduceAst_yields_statements_witness :
  exists body,
    Program [NumericLiteral (digitsValue "7")] = Program body /\
    body <> [] /\ forallb isStmt body = true.
Proof.
  apply (ProduceAst_yields_statements digitsValue 2
           (NewParser [mkTokenItem (mkPosition 1 1) INT "7";
                       mkTokenItem (mkPosition 1 2) EOF EmptyString])
           (Program [NumericLiteral (digitsValue "7")])
           (mkParser [mkTokenItem (mkPosition 1 1) INT "7";
                      mkTokenItem (mkPosition 1 2) EOF EmptyString]
              1 (mkTokenItem (mkPosition 1 2) EOF EmptyString))).
  vm_compute. reflexivity.
Defined.

(** *** The parser ends *)

Lemma tokenIs_true t u : tokenIs t u = true -> t = u.
Proof. unfold tokenIs. destruct t, u; cbn; done. Qed.

Lemma advance_ready p :
  ready p ->
  ready (advance p) /\
  (remaining (advance p) <= remaining p)%nat /\
  (tokenType (currentToken p) <> EOF ->
   (remaining (advance p) < remaining p)%nat).
Proof.
  destruct p as [ts i cur]. unfold ready, remaining, advance.
  cbn [tokens tokenIndex currentToken].
  intros (Hi & Hcur & Hlast).
  assert (Hlen : (1 <= length ts)%nat).
  { destruct ts; [done|cbn; lia]. }
  destruct (Z.ltb_spec (i + 1) (Z.of_nat (length ts))) as [Hin|Hout].
  - destruct (lookup_lt_is_Some_2 ts (Z.to_nat (i + 1))) as [next Hnext];
      [lia|].
    rewrite Hnext. cbn [default].
    split; [|split; [lia|intros _; lia]].
    split; [lia|]. split; [|done].
    by rewrite Z.min_l by lia.
  - split; [|split; [lia|]].
    + split; [lia|]. split; [|done].
      rewrite Z.min_r by lia. by rewrite Z.min_r in Hcur by lia.
    + intros Hne. destruct Hne.
      rewrite Z.min_r in Hcur by lia. rewrite last_lookup in Hlast.
      replace (Z.to_nat (Z.of_nat (length ts) - 1)) with (pred (length ts))
        in Hcur by lia.
      rewrite Hcur in Hlast. by injection Hlast.
Qed.

Lemma NewParser_ready front final :
  tokenType final = EOF ->
  ready (NewParser (front ++ [final])) /\
  remaining (NewParser (front ++ [final])) = length front.
Proof.
  intros Hfinal. unfold NewParser, advance, ready, remaining.
  cbn [tokens tokenIndex currentToken]. rewrite length_app. cbn [length].
  change (-1 + 1) with 0.
  destruct (Z.ltb_spec 0 (Z.of_nat (length front + 1))) as [_|]; [|lia].
  destruct (lookup_lt_is_Some_2 (front ++ [final]) (Z.to_nat 0))
    as [first Hfirst]; [rewrite length_app; cbn; lia|].
  rewrite Hfirst. cbn [default].
  split; [|lia]. split; [done|]. split.
  - by rewrite Z.min_l by lia.
  - by rewrite last_snoc, <- Hfinal.
Qed.

Section BelowBasics.

Context {A B : Type}.

Lemma below_mono n m (o : Parsed A) : (n <= m)%nat -> below n o -> below m o.
Proof. destruct o; cbn; [|done..]. intros Hle [? ?]. split; [done|lia]. Qed.

Lemma below_andThen n m (f : P A) (k : A -> P B) q :
  below n (f q) ->
  (forall v q', ready q' -> (remaining q' < n)%nat -> below m (k v q')) ->
  below m (andThen f k q).
Proof.
  unfold andThen. destruct (f q) as [v q'| |]; cbn; [|done..].
  intros [Hready Hlt] Hk. by apply Hk.
Qed.

Lemma below_currentType n (k : Token -> P B) q :
  below n (k (tokenType (currentToken q)) q) ->
  below n (andThen currentType k q).
Proof. done. Qed.

Lemma below_eat n (k : TokenItem -> P B) q :
  below n (k (currentToken q) (advance q)) -> below n (andThen eat k q).
Proof. done. Qed.

Lemma below_expect n ty msg (k : TokenItem -> P B) q :
  (tokenType (currentToken q) = ty ->
   below n (k (currentToken q) (advance q))) ->
  below n (andThen (expect ty msg) k q).
Proof.
  intros Hk. unfold andThen, expect, eat. cbn.
  destruct (tokenIs _ ty) eqn:Hty; cbn; [|done].
  apply Hk. by apply tokenIs_true.
Qed.

Lemma below_dropError_expect n ty msg (k : unit -> P B) q :
  below n (k tt (advance q)) ->
  below n (andThen (dropError (expect ty msg)) k q).
Proof.
  intros Hk. unfold andThen, dropError, expect, eat. cbn.
  by destruct (tokenIs _ ty).
Qed.

Lemma below_pure n (v : A) q :
  ready q -> (remaining q < n)%nat -> below n (pure v q).
Proof. done. Qed.

End BelowBasics.

Lemma tokenIs_refl t : tokenIs t t = true.
Proof. apply Z.eqb_refl. Qed.

Lemma tokenIs_false t u : tokenIs t u = false -> t <> u.
Proof. intros Hne ->. by rewrite tokenIs_refl in Hne. Qed.

Lemma not_EOF_remaining q :
  ready q -> tokenType (currentToken q) <> EOF -> (1 <= remaining q)%nat.
Proof.
  intros Hq Hne. destruct (advance_ready q Hq) as (_ & _ & Hlt).
  specialize (Hlt Hne). lia.
Qed.

Lemma below_pure_andThen {A B} n (v : A) (k : A -> P B) q :
  below n (k v q) -> below n (andThen (pure v) k q).
Proof. done. Qed.

Lemma below_assoc {A B C} n (m : P A) (k1 : A -> P B) (k2 : B -> P C) q :
  below n (andThen m (fun x => andThen (k1 x) k2) q) ->
  below n (andThen (andThen m k1) k2 q).
Proof. unfold andThen. by destruct (m q). Qed.

Section Ends.

Variable ParseFloat : string -> float64.

Section Rules.

Variable parse : Rule -> P Stmt.
Variable budget : nat.

(** The rule being parsed has rank [r] and began with [n] tokens before
    it: the rules it reaches begin with fewer, or with as many and a lower
    rank. *)
Variables n r : nat.

Hypothesis parse_below :
  forall rule q,
    ready q ->
    (remaining q < n)%nat \/ (remaining q = n /\ (rank rule < r)%nat) ->
    below (remaining q) (parse rule q).

Hypothesis budget_enough : (n <= budget)%nat.

(** The facts about the parser after a token has been eaten. *)
Ltac eaten q :=
  let Hready := fresh "Hadvanced" in
  let Hle := fresh "Hnomore" in
  let Hlt := fresh "Hfewer" in
  assert (ready q) as Hready by assumption;
  apply advance_ready in Hready as (Hready & Hle & Hlt);
  try (specialize (Hlt ltac:(congruence))).

Lemma parseProperties_below fuel properties q :
  ready q -> (remaining q < n)%nat -> (remaining q <= fuel)%nat ->
  below (S (remaining q)) (parseProperties parse fuel properties q).
Proof.
  revert properties q.
  induction fuel as [|fuel IH]; intros properties q Hq Hn Hfuel;
    cbn [parseProperties]; apply below_currentType;
    destruct (negb (tokenIs _ EOF) && _) eqn:Hloop;
    try (apply below_pure; [done|lia]).
  - apply andb_true_iff in Hloop as [Hne%negb_true_iff%tokenIs_false _].
    pose proof (not_EOF_remaining q Hq Hne). lia.
  - apply andb_true_iff in Hloop as [Hne%negb_true_iff%tokenIs_false _].
    apply below_expect. intros Hty. eaten q.
    apply below_currentType.
    destruct (tokenIs _ COMMA || _).
    + destruct (tokenIs _ COMMA).
      * apply below_assoc, below_eat. eaten (advance q).
        apply below_pure_andThen.
        eapply below_mono; [|apply IH]; [lia|done|lia..].
      * apply below_pure_andThen.
        eapply below_mono; [|apply IH]; [lia|done|lia..].
    + apply below_expect. intros Hty2. eaten (advance q).
      apply below_currentType.
      eapply (below_andThen (remaining (advance (advance q)))).
      { destruct (tokenIs _ OPENCURLY); apply parse_below; try done;
          left; lia. }
      intros val q3 Hq3 Hlt3. apply below_currentType.
      destruct (negb _).
      * apply below_assoc, below_expect. intros Hty3. eaten q3.
        apply below_pure_andThen.
        eapply below_mono; [|apply IH]; [lia|done|lia..].
      * apply below_pure_andThen.
        eapply below_mono; [|apply IH]; [lia|done|lia..].
Qed.

Lemma parseObjectExpr_below q :
  ready q -> (remaining q <= n)%nat ->
  tokenType (currentToken q) = OPENCURLY \/ (remaining q < n)%nat
  \/ (rank AdditiveRule < r)%nat ->
  below (remaining q) (parseObjectExpr parse budget q).
Proof.
  intros Hq Hn Hdead. unfold parseObjectExpr. apply below_currentType.
  destruct (tokenIs _ OPENCURLY) eqn:Hty; cbn [negb].
  - apply tokenIs_true in Hty. apply below_eat. eaten q.
    eapply (below_andThen (S (remaining (advance q)))).
    { apply parseProperties_below; [done|lia..]. }
    intros properties q1 Hq1 Hlt1. apply below_expect. intros Hty1.
    eaten q1. apply below_pure; [done|lia].
  - apply tokenIs_false in Hty. apply parse_below; [done|].
    destruct Hdead as [?|[?|?]]; [done|by left|].
    destruct (decide (remaining q = n)); [by right|left; lia].
Qed.

Lemma parsePrimary_below q :
  ready q -> (remaining q <= n)%nat ->
  below (remaining q) (parsePrimary ParseFloat parse budget q).
Proof.
  intros Hq Hn. unfold parsePrimary. apply below_currentType.
  set (ty := tokenType (currentToken q)).
  assert (Hty : tokenType (currentToken q) = ty) by done. clearbody ty.
  destruct (tokenIs ty NOT) eqn:Hnot.
  { apply tokenIs_true in Hnot. apply below_eat. eaten q.
    eapply (below_andThen (remaining (advance q))).
    { apply parse_below; [done|left; lia]. }
    intros expr q1 Hq1 Hlt1. apply below_pure; [done|lia]. }
  destruct (tokenIs ty IDENT) eqn:Hident.
  { apply tokenIs_true in Hident. apply below_eat. eaten q.
    by apply below_pure. }
  destruct (tokenIs ty INT || tokenIs ty FLOAT) eqn:Hnum.
  { apply orb_true_iff in Hnum as [Hnum%tokenIs_true|Hnum%tokenIs_true];
      apply below_eat; eaten q; by apply below_pure. }
  destruct (tokenIs ty STRING) eqn:Hstring.
  { apply tokenIs_true in Hstring. apply below_eat. eaten q.
    by apply below_pure. }
  destruct (tokenIs ty OPENPAREN) eqn:Hparen.
  { apply tokenIs_true in Hparen. apply below_eat. eaten q.
    eapply (below_andThen (remaining (advance q))).
    { apply parse_below; [done|left; lia]. }
    intros val q1 Hq1 Hlt1. apply below_expect. intros Hty1. eaten q1.
    apply below_pure; [done|lia]. }
  destruct (tokenIs ty OPENCURLY) eqn:Hcurly.
  { apply tokenIs_true in Hcurly. apply parseObjectExpr_below; [done..|].
    left. congruence. }
  destruct (tokenIs ty EOF || tokenIs ty CLOSEPAREN || tokenIs ty CLOSECURLY
            || tokenIs ty COMMA); [exact I|].
  destruct (tokenIs ty ILLEGAL); exact I.
Qed.

Lemma memberLoop_below fuel object q :
  ready q -> (remaining q < n)%nat -> (remaining q <= fuel)%nat ->
  below (S (remaining q)) (memberLoop ParseFloat parse budget fuel object q).
Proof.
  revert object q.
  induction fuel as [|fuel IH]; intros object q Hq Hn Hfuel;
    cbn [memberLoop]; apply below_currentType;
    destruct (tokenIs _ DOT || tokenIs _ OPENBRACKET) eqn:Hloop;
    try (apply below_pure; [done|lia]).
  - assert (tokenType (currentToken q) <> EOF) as Hne.
    { by apply orb_true_iff in Hloop
        as [->%tokenIs_true| ->%tokenIs_true]. }
    pose proof (not_EOF_remaining q Hq Hne). lia.
  - assert (tokenType (currentToken q) <> EOF) as Hne.
    { by apply orb_true_iff in Hloop
        as [->%tokenIs_true| ->%tokenIs_true]. }
    apply below_eat. eaten q.
    destruct (tokenIs _ DOT).
    + eapply (below_andThen (remaining (advance q))).
      { apply parsePrimary_below; [done|lia]. }
      intros property q1 Hq1 Hlt1.
      destruct (negb _); [done|].
      eapply below_mono; [|apply IH]; [lia|done|lia..].
    + eapply (below_andThen (remaining (advance q))).
      { apply parse_below; [done|left; lia]. }
      intros property q1 Hq1 Hlt1.
      apply below_dropError_expect. eaten q1.
      eapply below_mono; [|apply IH]; [lia|done|lia..].
Qed.

Lemma parseMemberExpr_below q :
  ready q -> (remaining q <= n)%nat ->
  below (remaining q) (parseMemberExpr ParseFloat parse budget q).
Proof.
  intros Hq Hn. unfold parseMemberExpr.
  eapply (below_andThen (remaining q)); [by apply parsePrimary_below|].
  intros object q1 Hq1 Hlt1.
  eapply below_mono; [|apply memberLoop_below]; [lia|done|lia..].
Qed.

Lemma argumentLoop_below fuel args q :
  ready q -> (remaining q < n)%nat -> (remaining q < fuel)%nat ->
  below (remaining q) (argumentLoop parse fuel args q).
Proof.
  revert args q.
  induction fuel as [|fuel IH]; intros args q Hq Hn Hfuel;
    cbn [argumentLoop]; [lia|].
  eapply (below_andThen (remaining q)).
  { apply parse_below; [done|by left]. }
  intros arg q1 Hq1 Hlt1. apply below_currentType.
  destruct (tokenIs _ COMMA) eqn:Hcomma; cbn [negb].
  - apply tokenIs_true in Hcomma. apply below_eat. eaten q1.
    eapply below_mono; [|apply IH]; [lia|done|lia..].
  - apply below_pure; [done|lia].
Qed.

Lemma parseArguments_below q :
  ready q -> (remaining q <= n)%nat ->
  below (remaining q) (parseArguments parse budget q).
Proof.
  intros Hq Hn. unfold parseArguments.
  apply below_expect. intros Hty. eaten q. apply below_currentType.
  destruct (tokenIs _ CLOSEPAREN) eqn:Hclose.
  - apply tokenIs_true in Hclose. apply below_eat. eaten (advance q).
    apply below_pure; [done|lia].
  - eapply (below_andThen (remaining (advance q))).
    { apply argumentLoop_below; [done|lia..]. }
    intros args q1 Hq1 Hlt1. apply below_expect. intros Hty1. eaten q1.
    apply below_pure; [done|lia].
Qed.

Lemma parseCallExpr_below fuel caller q :
  ready q -> (remaining q <= n)%nat -> (remaining q <= fuel)%nat ->
  below (remaining q) (parseCallExpr parse budget fuel caller q).
Proof.
  revert caller q.
  induction fuel as [|fuel IH]; intros caller q Hq Hn Hfuel;
    cbn [parseCallExpr];
    (eapply (below_andThen (remaining q));
     [by apply parseArguments_below|]);
    intros arguments q1 Hq1 Hlt1; apply below_currentType;
    destruct (tokenIs _ OPENPAREN); try (apply below_pure; [done|lia]).
  - lia.
  - eapply below_mono; [|apply IH]; [lia|done|lia..].
Qed.

Lemma parseCallMemberExpr_below q :
  ready q -> (remaining q <= n)%nat ->
  below (remaining q) (parseCallMemberExpr ParseFloat parse budget q).
Proof.
  intros Hq Hn. unfold parseCallMemberExpr.
  eapply (below_andThen (remaining q)); [by apply parseMemberExpr_below|].
  intros member q1 Hq1 Hlt1. apply below_currentType.
  destruct (tokenIs _ OPENPAREN).
  - eapply below_mono; [|apply parseCallExpr_below]; [lia|done|lia..].
  - apply below_pure; [done|lia].
Qed.

Lemma operatorLoop_below fuel operators operand node left q :
  (forall q', ready q' -> (remaining q' <= n)%nat ->
              below (remaining q') (operand q')) ->
  existsb (tokenIs EOF) operators = false ->
  ready q -> (remaining q <= n)%nat -> (remaining q <= fuel)%nat ->
  below (S (remaining q))
    (operatorLoop fuel operators operand node left q).
Proof.
  intros Hoperand Hops. revert left q.
  induction fuel as [|fuel IH]; intros left q Hq Hn Hfuel;
    cbn [operatorLoop]; apply below_currentType;
    destruct (existsb (tokenIs (tokenType (currentToken q))) operators)
      eqn:Hloop;
    try (apply below_pure; [done|lia]).
  - assert (tokenType (currentToken q) <> EOF) as Hne.
    { intros Heq. rewrite Heq in Hloop. congruence. }
    pose proof (not_EOF_remaining q Hq Hne). lia.
  - assert (tokenType (currentToken q) <> EOF) as Hne.
    { intros Heq. rewrite Heq in Hloop. congruence. }
    apply below_eat. eaten q.
    eapply (below_andThen (remaining (advance q))).
    { apply Hoperand; [done|lia]. }
    intros right q1 Hq1 Hlt1.
    eapply below_mono; [|apply IH]; [lia|done|lia..].
Qed.

Lemma parseMulti_below q :
  ready q -> (remaining q <= n)%nat ->
  below (remaining q) (parseMulti ParseFloat parse budget q).
Proof.
  intros Hq Hn. unfold parseMulti.
  eapply (below_andThen (remaining q));
    [by apply parseCallMemberExpr_below|].
  intros left q1 Hq1 Hlt1.
  eapply below_mono; [|apply operatorLoop_below];
    [lia|apply parseCallMemberExpr_below|done|done|lia..].
Qed.

Lemma parseAdditive_below q :
  ready q -> (remaining q <= n)%nat ->
  below (remaining q) (parseAdditive ParseFloat parse budget q).
Proof.
  intros Hq Hn. unfold parseAdditive.
  eapply (below_andThen (remaining q)); [by apply parseMulti_below|].
  intros left q1 Hq1 Hlt1.
  eapply below_mono; [|apply operatorLoop_below];
    [lia|apply parseMulti_below|done|done|lia..].
Qed.

Lemma parseRelationalExpr_below q :
  ready q -> (remaining q <= n)%nat ->
  below (remaining q) (parseRelationalExpr ParseFloat parse budget q).
Proof.
  intros Hq Hn. unfold parseRelationalExpr.
  eapply (below_andThen (remaining q)); [by apply parseAdditive_below|].
  intros left q1 Hq1 Hlt1.
  eapply below_mono; [|apply operatorLoop_below];
    [lia|apply parseAdditive_below|done|done|lia..].
Qed.

Lemma parseEqualityExpr_below q :
  ready q -> (remaining q <= n)%nat ->
  below (remaining q) (parseEqualityExpr ParseFloat parse budget q).
Proof.
  intros Hq Hn. unfold parseEqualityExpr.
  eapply (below_andThen (remaining q));
    [by apply parseRelationalExpr_below|].
  intros left q1 Hq1 Hlt1.
  eapply below_mono; [|apply operatorLoop_below];
    [lia|apply parseRelationalExpr_below|done|done|lia..].
Qed.

Lemma parseLogicalExpr_below q :
  ready q -> (remaining q <= n)%nat ->
  below (remaining q) (parseLogicalExpr ParseFloat parse budget q).
Proof.
  intros Hq Hn. unfold parseLogicalExpr.
  eapply (below_andThen (remaining q)); [by apply parseEqualityExpr_below|].
  intros left q1 Hq1 Hlt1.
  eapply below_mono; [|apply operatorLoop_below];
    [lia|apply parseEqualityExpr_below|done|done|lia..].
Qed.

Lemma parseExpr_below q :
  ready q -> (remaining q <= n)%nat ->
  below (remaining q) (parseExpr ParseFloat parse budget q).
Proof.
  intros Hq Hn. unfold parseExpr, parseAssignmentExpr.
  eapply (below_andThen (remaining q)); [by apply parseLogicalExpr_below|].
  intros expr q1 Hq1 Hlt1. apply below_currentType.
  destruct (tokenIs _ EQUALS) eqn:Hty.
  - apply tokenIs_true in Hty. apply below_eat. eaten q1.
    eapply (below_andThen (remaining (advance q1))).
    { apply parse_below; [done|left; lia]. }
    intros val q2 Hq2 Hlt2. apply below_pure; [done|lia].
  - apply below_pure; [done|lia].
Qed.

Lemma parseBody_below fuel body q :
  ready q -> (remaining q < n)%nat -> (remaining q <= fuel)%nat ->
  below (S (remaining q)) (parseBody parse fuel body q).
Proof.
  revert body q.
  induction fuel as [|fuel IH]; intros body q Hq Hn Hfuel;
    cbn [parseBody]; apply below_currentType;
    destruct (negb (tokenIs _ EOF) && _) eqn:Hloop;
    try (apply below_pure; [done|lia]).
  - apply andb_true_iff in Hloop as [Hne%negb_true_iff%tokenIs_false _].
    pose proof (not_EOF_remaining q Hq Hne). lia.
  - eapply (below_andThen (remaining q)).
    { apply parse_below; [done|by left]. }
    intros statement q1 Hq1 Hlt1.
    eapply below_mono; [|apply IH]; [lia|done|lia..].
Qed.

Lemma parameters_below name args params q m :
  ready q -> (remaining q < m)%nat ->
  below m (parameters name args params q).
Proof.
  intros Hq Hm. revert params.
  induction args as [|arg rest IH]; intros params; cbn [parameters].
  - by apply below_pure.
  - destruct arg; first [exact I|apply IH].
Qed.

(** The body of a statement after its opening brace: the statements, the
    closing brace, and the node built from them. *)
Lemma block_below (node : list Stmt -> Stmt) msg q m :
  ready q -> (remaining q < n)%nat -> (remaining q < m)%nat ->
  below m
    ((let+ body := parseBody parse budget [] in
      let+ _ := expect CLOSECURLY msg in
      pure (node body)) q).
Proof.
  intros Hq Hn Hm.
  eapply (below_andThen (S (remaining q))).
  { apply parseBody_below; [done|lia..]. }
  intros body q1 Hq1 Hlt1. apply below_expect. intros Hty. eaten q1.
  apply below_pure; [done|lia].
Qed.

(** The head of [if], [while] and [for] after the keyword. *)
Lemma conditional_below (node : Stmt -> list Stmt -> Stmt)
    msg1 msg2 msg3 msg4 q m :
  ready q -> (remaining q < n)%nat -> (remaining q < m)%nat ->
  below m
    ((let+ _ := expect OPENPAREN msg1 in
      let+ condition := parseExpr ParseFloat parse budget in
      let+ _ := expect CLOSEPAREN msg2 in
      let+ _ := expect OPENCURLY msg3 in
      let+ body := parseBody parse budget [] in
      let+ _ := expect CLOSECURLY msg4 in
      pure (node condition body)) q).
Proof.
  intros Hq Hn Hm. apply below_expect. intros Hty. eaten q.
  eapply (below_andThen (remaining (advance q))).
  { apply parseExpr_below; [done|lia]. }
  intros condition q1 Hq1 Hlt1. apply below_expect. intros Hty1. eaten q1.
  apply below_expect. intros Hty2. eaten (advance q1).
  apply (block_below (node condition)); [done|lia..].
Qed.

Lemma parseStmt_below q :
  ready q -> (remaining q <= n)%nat ->
  below (remaining q) (parseStmt ParseFloat parse budget q).
Proof.
  intros Hq Hn. unfold parseStmt. apply below_currentType.
  set (ty := tokenType (currentToken q)).
  assert (Hty : tokenType (currentToken q) = ty) by done. clearbody ty.
  destruct (tokenIs ty VAR || tokenIs ty CONST) eqn:Hvar.
  { assert (ty <> EOF) as Hne.
    { by apply orb_true_iff in Hvar as [->%tokenIs_true| ->%tokenIs_true]. }
    unfold parseVarDeclaration. apply below_currentType.
    apply below_eat. eaten q.
    apply below_expect. intros Hty1. eaten (advance q).
    apply below_currentType.
    destruct (tokenIs (tokenType (currentToken (advance (advance q))))
                EQUALS) eqn:Heq; cbn [negb].
    - apply tokenIs_true in Heq. apply below_eat.
      eaten (advance (advance q)).
      eapply (below_andThen (remaining (advance (advance (advance q))))).
      { apply parseExpr_below; [done|lia]. }
      intros val q1 Hq1 Hlt1. apply below_pure; [done|lia].
    - destruct (tokenIs (tokenType (currentToken q)) CONST); [exact I|].
      apply below_pure; [done|lia]. }
  destruct (tokenIs ty FUN) eqn:Hfun.
  { apply tokenIs_true in Hfun. unfold parseFunctionDeclaration.
    apply below_eat. eaten q.
    apply below_expect. intros Hty1. eaten (advance q).
    eapply (below_andThen (remaining (advance (advance q)))).
    { apply parseArguments_below; [done|lia]. }
    intros args q1 Hq1 Hlt1.
    eapply (below_andThen (remaining (advance (advance q)))).
    { by apply parameters_below. }
    intros params q2 Hq2 Hlt2. apply below_expect. intros Hty2. eaten q2.
    apply (block_below (FunctionDeclaration _ params)); [done|lia..]. }
  destruct (tokenIs ty IF) eqn:Hif.
  { apply tokenIs_true in Hif. unfold parseIfStmt.
    apply below_expect. intros _. eaten q.
    apply (conditional_below IfStmt); [done|lia..]. }
  destruct (tokenIs ty WHILE) eqn:Hwhile.
  { apply tokenIs_true in Hwhile. unfold parseWhileStmt.
    apply below_expect. intros _. eaten q.
    apply (conditional_below WhileStmt); [done|lia..]. }
  destruct (tokenIs ty FOR) eqn:Hfor.
  { apply tokenIs_true in Hfor. unfold parseForStmt.
    apply below_expect. intros _. eaten q.
    apply (conditional_below ForStmt); [done|lia..]. }
  destruct (tokenIs ty RETURN) eqn:Hreturn.
  { apply tokenIs_true in Hreturn. unfold parseReturnStmt.
    apply below_expect. intros _. eaten q. apply below_currentType.
    destruct (tokenIs (tokenType (currentToken (advance q))) CLOSECURLY
              || tokenIs (tokenType (currentToken (advance q))) EOF);
      [by apply below_pure|].
    eapply (below_andThen (remaining (advance q))).
    { apply parseExpr_below; [done|lia]. }
    intros expr q1 Hq1 Hlt1. apply below_pure; [done|lia]. }
  by apply parseExpr_below.
Qed.

Lemma parseRule_below rule q :
  rank rule = r -> ready q -> (remaining q <= n)%nat ->
  below (remaining q) (parseRule ParseFloat parse budget rule q).
Proof.
  intros Hrank Hq Hn. destruct rule; cbn [parseRule].
  - by apply parseStmt_below.
  - by apply parseExpr_below.
  - by apply parsePrimary_below.
  - apply parseObjectExpr_below; [done..|].
    right. right. rewrite <- Hrank. cbn. lia.
  - by apply parseAdditive_below.
Qed.

End Rules.

(** Each rule of the grammar ends when it may descend to twice the number
    of tokens before it, and if it returns it has passed a token. *)
Lemma parse_below fuel rule q :
  ready q -> (2 * remaining q + rank rule < fuel)%nat ->
  below (remaining q) (parse ParseFloat fuel rule q).
Proof.
  revert rule q. induction fuel as [|fuel IH]; intros rule q Hq Hfuel;
    [lia|].
  cbn [parse].
  apply (parseRule_below (parse ParseFloat fuel) fuel (remaining q)
           (rank rule)); [|lia|done..|lia].
  intros rule' q' Hq' Hless. apply IH; [done|].
  assert (rank rule' <= 1)%nat by (destruct rule'; cbn; lia).
  lia.
Qed.

Lemma produceLoop_below fuel budget Body q :
  ready q -> (2 * remaining q < fuel)%nat -> (remaining q < budget)%nat ->
  below (S (remaining q)) (produceLoop ParseFloat fuel budget Body q).
Proof.
  revert Body q. induction budget as [|budget IH];
    intros Body q Hq Hfuel Hbudget; [lia|].
  cbn [produceLoop].
  eapply (below_andThen (remaining q)).
  { apply parse_below; [done|cbn; lia]. }
  intros stmt q1 Hq1 Hlt1. apply below_currentType.
  destruct (tokenIs _ EOF); [apply below_pure; [done|lia]|].
  eapply below_mono; [|apply IH]; [lia|done|lia..].
Qed.

End Ends.

Lemma ProduceAst_below (ParseFloat : string -> float64) front final fuel :
  tokenType final = EOF -> (2 * length front < fuel)%nat ->
  below (S (length front))
    (ProduceAst ParseFloat fuel (NewParser (front ++ [final]))).
Proof.
  intros Hfinal Hfuel.
  destruct (NewParser_ready front final Hfinal) as [Hready Hremaining].
  rewrite <- Hremaining. unfold ProduceAst.
  apply produceLoop_below; [done|lia..].
Qed.

(** X27: the parser ends.  On a token list that ends with the EOF token,
    as every list of [Lex] does, [ProduceAst] returns an AST or an error:
    no such list makes it loop or recurse without end.  So the front end
    ends on every source text: [Lex] returns a token list and [ProduceAst]
    returns on that list.  (The budget of the model is not used up once
    it is more than twice the number of tokens, or of runes.) *)
Theorem ProduceAst_ends (ParseFloat : string -> float64) :
  (forall front final fuel,
      tokenType final = EOF -> (2 * length front < fuel)%nat ->
      ProduceAst ParseFloat fuel (NewParser (front ++ [final]))
      <> Unfinished) /\
  (forall (IsSpace IsDigit IsLetter : rune -> bool) source fuel,
      (2 * length source < fuel)%nat ->
      exists result,
        parseSource IsSpace IsDigit IsLetter ParseFloat fuel source =
          Some result /\
        result <> Unfinished).
Proof.
  split.
  - intros front final fuel Hfinal Hfuel Hrun.
    pose proof (ProduceAst_below ParseFloat front final fuel Hfinal Hfuel)
      as Hbelow.
    by rewrite Hrun in Hbelow.
  - intros IsSpace IsDigit IsLetter source fuel Hfuel.
    unfold parseSource, Lex.
    destruct (lexLoop_tokens IsSpace IsDigit IsLetter
                (S (length (input (NewLexer source)))) (NewLexer source) [])
      as (tokenList & p & -> & _ & Hlen); [lia|].
    cbn [app input NewLexer] in *. eexists. split; [done|].
    intros Hrun.
    pose proof (ProduceAst_below ParseFloat tokenList
                  (mkTokenItem p EOF EmptyString) fuel eq_refl) as Hbelow.
    rewrite Hrun in Hbelow. apply Hbelow. lia.
Qed.

Lemma ProduceAst_ends_witness :
  exists result,
    parseSource asciiSpace asciiDigit asciiLetter digitsValue 9
      (runes "(1 +") = Some result /\
    result <> Unfinished.
Proof.
  apply (proj2 (ProduceAst_ends digitsValue) asciiSpace asciiDigit
           asciiLetter (runes "(1 +") 9%nat).
  cbn. lia.
Defined.

(** *** Blank source texts *)

Section BlankSources.

Variables IsSpace IsDigit IsLetter : rune -> bool.

Lemma lexRune_blank r l :
  blank IsSpace r = true ->
  exists l',
    lexRune IsSpace IsDigit IsLetter r l = Some (l', None) /\
    input l' = input l.
Proof.
  unfold blank. intros Hblank. unfold lexRune.
  destruct (Z.eqb_spec r 10) as [->|Hline]; [by eexists|].
  cbn [orb] in Hblank. apply andb_true_iff in Hblank as [Hspace Hsigns].
  apply negb_true_iff in Hsigns. unfold signs in Hsigns.
  cbn [map existsb] in Hsigns.
  repeat (apply orb_false_iff in Hsigns as [Hsign Hsigns];
          rewrite Hsign; clear Hsign).
  rewrite Hspace. by eexists.
Qed.

Lemma lexLoop_blank budget l tokenList :
  Forall (fun r => blank IsSpace r = true) (input l) ->
  (length (input l) < budget)%nat ->
  exists p,
    lexLoop IsSpace IsDigit IsLetter budget l tokenList =
    Some (tokenList ++ [mkTokenItem p EOF EmptyString])%list.
Proof.
  revert l. induction budget as [|budget IH]; intros [p rs] Hblank Hlt;
    [lia|].
  cbn [lexLoop input pos] in *. destruct rs as [|r rest]; [by eexists|].
  apply Forall_cons in Hblank as [Hr Hrest].
  destruct (lexRune_blank r (mkLexer (Lexer.advance p) rest) Hr)
    as (l' & -> & Hinput).
  cbn [input] in Hinput. apply IH; rewrite Hinput; [done|cbn in Hlt; lia].
Qed.

(** X28: a source text with nothing in it but white space and line breaks,
    the empty text included, is not a program: [Lex] returns the EOF token
    alone, and [ProduceAst] fails on it, expecting an expression.  So no
    source text gives a Program without statements. *)
Theorem blank_source_is_rejected (ParseFloat : string -> float64)
    source fuel :
  Forall (fun r => blank IsSpace r = true) source ->
  exists position parser,
    parseSource IsSpace IsDigit IsLetter ParseFloat (S fuel) source =
    Some (Failed
            (mkParsingError "Expected an expression or value but found none"
               position)
            parser).
Proof.
  intros Hblank. unfold parseSource, Lex.
  destruct (lexLoop_blank (S (length (input (NewLexer source))))
              (NewLexer source) [] Hblank) as [position ->]; [lia|].
  by exists position, (NewParser [mkTokenItem position EOF EmptyString]).
Qed.

End BlankSources.

Lemma blank_source_is_rejected_witness :
  exists position parser,
    parseSource asciiSpace asciiDigit asciiLetter digitsValue 1
      [32; 10; 32] =
    Some (Failed
            (mkParsingError "Expected an expression or value but found none"
               position)
            parser).
Proof.
  apply (blank_source_is_rejected asciiSpace asciiDigit asciiLetter
           digitsValue [32; 10; 32] 0).
  repeat (apply List.Forall_cons; [reflexivity|]). apply List.Forall_nil.
Defined.

(** *** From source text to evaluation *)

(** The text of the sample [countdown] parses to its AST. *)
Example countdown_is_parsed :
  exists parser,
    parseSource asciiSpace asciiDigit asciiLetter digitsValue 12
      (runes "val c = 3  while (c > 0) { print(c)  c = c - 1 }") =
    Some (Done countdown parser).
Proof. eexists. vm_compute. reflexivity. Qed.

(** So does the text of [bareReturnCall]: the [return] before the closing
    brace becomes a return statement without a value. *)
Example bareReturnCall_is_parsed :
  exists parser,
    parseSource asciiSpace asciiDigit asciiLetter digitsValue 12
      (runes "fn f() { return }  f()") =
    Some (Done bareReturnCall parser).
Proof. eexists. vm_compute. reflexivity. Qed.

(** *** What the parser lets pass *)

(** One turn of the loop of [parseMemberExpr] at an opening bracket. *)
Lemma memberLoop_bracket (ParseFloat : string -> float64)
    (parse : Rule -> P Stmt) budget turns object p property p1 :
  tokenType (currentToken p) = OPENBRACKET ->
  parse ExprRule (advance p) = Done property p1 ->
  memberLoop ParseFloat parse budget (S turns) object p =
  memberLoop ParseFloat parse budget turns (MemberExpr object property true)
    (advance p1).
Proof.
  intros Hbracket Hindex. cbn [memberLoop].
  unfold andThen at 1, currentType at 1. rewrite Hbracket. cbn [tokenIs orb].
  change (tokenIs OPENBRACKET DOT || tokenIs OPENBRACKET OPENBRACKET)
    with true. cbn iota.
  unfold andThen at 1, eat at 1. rewrite Hbracket.
  change (tokenIs OPENBRACKET DOT) with false. cbn iota.
  unfold andThen at 1. rewrite Hindex.
  unfold andThen at 1, dropError, expect, andThen at 1, eat.
  by destruct (negb (tokenIs (tokenType (currentToken p1)) CLOSEBRACKET)).
Qed.

Lemma memberLoop_stops (ParseFloat : string -> float64)
    (parse : Rule -> P Stmt) budget turns object p :
  tokenType (currentToken p) <> DOT ->
  tokenType (currentToken p) <> OPENBRACKET ->
  memberLoop ParseFloat parse budget turns object p = Done object p.
Proof.
  intros Hdot Hbracket.
  assert (Hno : tokenIs (tokenType (currentToken p)) DOT
                || tokenIs (tokenType (currentToken p)) OPENBRACKET = false).
  { apply orb_false_iff. split.
    - destruct (tokenIs _ DOT) eqn:H; [|done].
      by apply tokenIs_true in H.
    - destruct (tokenIs _ OPENBRACKET) eqn:H; [|done].
      by apply tokenIs_true in H. }
  destruct turns; cbn [memberLoop]; unfold andThen, currentType;
    by rewrite Hno.
Qed.

(** X29: the closing bracket of a computed member access is not checked.
    At an opening bracket after an object, once the index expression has
    been parsed, [parseMemberExpr] takes the next token whatever it is and
    goes on with the member expression from the token after it:
    [expect(CLOSEBRACKET)] does report a token that is no closing bracket,
    but its result is dropped.  So where no further member access follows,
    the member expression is returned as if the bracket had been closed. *)
Theorem closing_bracket_is_not_checked (ParseFloat : string -> float64)
    fuel budget turns object p property p1 :
  tokenType (currentToken p) = OPENBRACKET ->
  parse ParseFloat fuel ExprRule (advance p) = Done property p1 ->
  memberLoop ParseFloat (parse ParseFloat fuel) budget (S turns) object p =
    memberLoop ParseFloat (parse ParseFloat fuel) budget turns
      (MemberExpr object property true) (advance p1) /\
  (tokenType (currentToken p1) <> CLOSEBRACKET ->
   expect CLOSEBRACKET ("Expected " ++ quoted "]") p1 =
   Failed (mkParsingError ("Parsing Error: Expected " ++ quoted "]")
             (tokenPos (currentToken p1)))
     (advance p1)) /\
  (tokenType (currentToken (advance p1)) <> DOT ->
   tokenType (currentToken (advance p1)) <> OPENBRACKET ->
   memberLoop ParseFloat (parse ParseFloat fuel) budget (S turns) object p =
   Done (MemberExpr object property true) (advance p1)).
Proof.
  intros Hbracket Hindex.
  pose proof (memberLoop_bracket ParseFloat (parse ParseFloat fuel) budget
                turns object p property p1 Hbracket Hindex) as Hturn.
  split; [exact Hturn|]. split.
  - intros Hstray. unfold expect, andThen, eat.
    destruct (tokenIs (tokenType (currentToken p1)) CLOSEBRACKET) eqn:His;
      [by apply tokenIs_true in His|reflexivity].
  - intros Hdot Hopen. rewrite Hturn. by apply memberLoop_stops.
Qed.

Lemma closing_bracket_is_not_checked_witness :
  tokenType (currentToken atBracket) = OPENBRACKET /\
  parse digitsValue 2 ExprRule (advance atBracket) =
    Done (NumericLiteral (digitsValue "1")) atStray /\
  tokenType (currentToken atStray) = CLOSEPAREN /\
  memberLoop digitsValue (parse digitsValue 2) 2 1 (Identifier "a")
    atBracket =
  Done (MemberExpr (Identifier "a") (NumericLiteral (digitsValue "1")) true)
    (advance atStray).
Proof.
  do 3 (split; [vm_compute; reflexivity|]).
  apply (proj2 (proj2 (closing_bracket_is_not_checked digitsValue 2 2 0
                         (Identifier "a") atBracket
                         (NumericLiteral (digitsValue "1")) atStray
                         ltac:(vm_compute; reflexivity)
                         ltac:(vm_compute; reflexivity))));
    vm_compute; discriminate.
Defined.

(** At the level of [ProduceAst]: after an identifier, an opening bracket
    and a number, a token that does not carry the expression on is dropped,
    so [a[1)], [a[1}] and [a[1 b] all parse as [a[1]]. *)
Lemma index_then_stray_token (ParseFloat : string -> float64)
    object bracket index stray final fuel :
  tokenType object = IDENT -> tokenType bracket = OPENBRACKET ->
  tokenType index = INT -> tokenType final = EOF ->
  existsb (tokenIs (tokenType stray)) carriesOn = false ->
  exists parser,
    ProduceAst ParseFloat (S (S fuel))
      (NewParser [object; bracket; index; stray; final]) =
    Done (Program [MemberExpr (Identifier (value object))
                     (NumericLiteral (ParseFloat (value index))) true])
      parser.
Proof.
  destruct object as [p0 t0 v0], bracket as [p1 t1 v1],
    index as [p2 t2 v2], stray as [p3 t3 v3], final as [p4 t4 v4].
  cbn [tokenType value]. intros -> -> -> -> Hstray.
  exists (mkParser
            [mkTokenItem p0 IDENT v0; mkTokenItem p1 OPENBRACKET v1;
             mkTokenItem p2 INT v2; mkTokenItem p3 t3 v3;
             mkTokenItem p4 EOF v4]
            4 (mkTokenItem p4 EOF v4)).
  destruct fuel, t3; try discriminate Hstray; reflexivity.
Qed.

Lemma evalLogicalExpr_alias (Ev : option Stmt -> EnvPtr -> M RuntimeVal)
    l r op env st v st' :
  op ∈ aliases -> evalLogicalExpr Ev l r op env st <> Ok v st'.
Proof.
  unfold aliases. rewrite !elem_of_cons, elem_of_nil.
  intros Hop. unfold evalLogicalExpr, bind.
  destruct (Ev (Some l) env st) as [vl st1| | |]; [|done..].
  destruct (Ev (Some r) env st1) as [vr st2| | |]; [|done..].
  by destruct Hop as [->|[->|[->|[]]]].
Qed.

(** One turn of an operator loop: the text of the operator token is the
    operator of the node. *)
Lemma operatorLoop_turn turns operators (operand : P Stmt) node left p right
    p2 :
  existsb (tokenIs (tokenType (currentToken p))) operators = true ->
  operand (advance p) = Done right p2 ->
  operatorLoop (S turns) operators operand node left p =
  operatorLoop turns operators operand node
    (node left right (value (currentToken p))) p2.
Proof.
  intros Hop Hright. cbn [operatorLoop].
  unfold andThen at 1, currentType at 1. rewrite Hop.
  unfold andThen at 1, eat at 1. unfold andThen at 1. by rewrite Hright.
Qed.

Lemma operatorLoop_stops turns operators (operand : P Stmt) node left p :
  existsb (tokenIs (tokenType (currentToken p))) operators = false ->
  operatorLoop turns operators operand node left p = Done left p.
Proof.
  intros Hop. destruct turns; cbn [operatorLoop];
    unfold andThen, currentType; by rewrite Hop.
Qed.

(** X30: of the spellings of the logical operators only [and] and [or]
    evaluate.
    - [plus] and [&&] are AND tokens and [perhaps] is an OR token for the
      lexer.
    - At an AND or OR token after a left operand, whatever the operands
      are, [parseLogicalExpr] makes the text of the token the operator of
      the LogicalExpr it builds over them.
    - So the text [a plus b], and likewise with [&&] or [perhaps], is
      parsed to the LogicalExpr whose operator is that spelling.
    - [evalLogicalExpr] knows no operator of these three texts: a
      LogicalExpr with one of them never evaluates to a value, whatever its
      operands are. *)
Theorem operator_aliases_do_not_evaluate
    (ParseFloat : string -> float64) (FormatFloat : float64 -> string) :
  (keyword "plus" = AND /\ keyword "perhaps" = OR /\
   forall p, (lexAnd (mkLexer p (runes "&&"))).1 = ("&&", AND)) /\
  (forall fuel budget p0 left p right p2,
      parseEqualityExpr ParseFloat (parse ParseFloat fuel) (S budget) p0 =
        Done left p ->
      tokenType (currentToken p) = AND \/ tokenType (currentToken p) = OR ->
      parseEqualityExpr ParseFloat (parse ParseFloat fuel) (S budget)
        (advance p) = Done right p2 ->
      tokenType (currentToken p2) <> AND ->
      tokenType (currentToken p2) <> OR ->
      parseLogicalExpr ParseFloat (parse ParseFloat fuel) (S budget) p0 =
      Done (LogicalExpr left right (value (currentToken p))) p2) /\
  (forall spelling,
      spelling ∈ aliases ->
      exists parser,
        parseSource asciiSpace asciiDigit asciiLetter ParseFloat 9
          (runes ("a " ++ spelling ++ " b")) =
        Some (Done (Program [LogicalExpr (Identifier "a") (Identifier "b")
                               spelling])
                parser)) /\
  (forall l r op fuel env st v st',
      op ∈ aliases ->
      Evaluate FormatFloat fuel (Some (LogicalExpr l r op)) env st
      <> Ok v st').
Proof.
  split; [by repeat split|]. split; [|split].
  - intros fuel budget p0 left p right p2 Hleft Hop Hright Hand Hor.
    unfold parseLogicalExpr, andThen at 1. rewrite Hleft.
    rewrite (operatorLoop_turn budget [AND; OR] _ LogicalExpr left p right p2);
      [|by destruct Hop as [-> | ->]|done].
    apply operatorLoop_stops. cbn [existsb].
    destruct (tokenIs _ AND) eqn:H1; [by apply tokenIs_true in H1|].
    destruct (tokenIs _ OR) eqn:H2; [by apply tokenIs_true in H2|done].
  - unfold aliases. intros spelling.
    rewrite !elem_of_cons, elem_of_nil.
    intros [->|[->|[->|[]]]]; eexists; vm_compute; reflexivity.
  - intros l r op [|fuel] env st v st' Hop; [done|].
    rewrite Evaluate_S. cbn [EvaluateNode]. by apply evalLogicalExpr_alias.
Qed.

Lemma operator_aliases_do_not_evaluate_witness :
  parseEqualityExpr digitsValue (parse digitsValue 2) 1
    (NewParser aliasTokens) = Done (Identifier "a") atOperator /\
  tokenType (currentToken atOperator) = AND /\
  parseLogicalExpr digitsValue (parse digitsValue 2) 1
    (NewParser aliasTokens) =
  Done (LogicalExpr (Identifier "a") (Identifier "b")
          (value (currentToken atOperator)))
    (advance (advance atOperator)).
Proof.
  do 2 (split; [vm_compute; reflexivity|]).
  apply (proj1 (proj2 (operator_aliases_do_not_evaluate digitsValue noFormat))
           2%nat 0%nat (NewParser aliasTokens) (Identifier "a") atOperator
           (Identifier "b") (advance (advance atOperator)));
    first [vm_compute; reflexivity | left; vm_compute; reflexivity
          | vm_compute; discriminate].
Defined.

(** *** Programs have a last statement *)



